(** * kernel_to_il.h: fragments, hash-map wrappers, active-class scopes and
      region trackers of the kernel-to-IL flow graph builder.

    A shallow embedding of [runtime/vm/compiler/frontend/kernel_to_il.h].
    C++ objects live in explicit stores, pointers are optional addresses
    ([None] is [NULL]), [intptr_t] arithmetic is written with its 64-bit
    two's-complement wrap-around, and a member function that dereferences an
    invalid pointer yields [None]. *)

From Stdlib Require Import ZArith Lia List Bool.
From stdpp Require Import base option list gmap.

Local Open Scope Z_scope.

(** ** Machine integers and pointers *)

Module IntPtr.
(** [intptr_t] of a 64-bit target. *)
Definition min : Z := - 2 ^ 63.
Definition max : Z := 2 ^ 63 - 1.
Definition in_range (z : Z) : Prop := min <= z <= max.
Definition wrap (z : Z) : Z := (z - min) `mod` 2 ^ 64 + min.
Definition add (a b : Z) : Z := wrap (a + b).
Definition sub (a b : Z) : Z := wrap (a - b).
End IntPtr.

(** A pointer is an optional address into the store of its pointee type. *)
Abbreviation ptr := (option nat) (only parsing).
Abbreviation NULL := (@None nat) (only parsing).

Definition is_null (p : ptr) : bool :=
  match p with None => true | Some _ => false end.

(** [V()]: the value-initialised object of a type. *)
Class DefaultConstructible (V : Type) := default_value : V.

#[export] Instance ptr_default : DefaultConstructible ptr := NULL.
#[export] Instance intptr_default : DefaultConstructible Z := 0.

(** ** Hash maps *)

(** [KeyValueTrait::Pair]. *)
Record Pair (K V : Type) := mkPair { key : K; value : V }.
Arguments mkPair {K V} _ _.
Arguments key {K V} _.
Arguments value {K V} _.

(** The trait a chained hash map is instantiated with. *)
Class KeyValueTrait (K V : Type) := {
  Hashcode : K -> Z;
  IsKeyEqual : Pair K V -> K -> bool
}.

(** [IntKeyRawPointerValueTrait<V>]: keys are [intptr_t]. *)
Definition IntKeyRawPointerValueTrait (V : Type) : KeyValueTrait Z V :=
  {| Hashcode := fun k => k;
     IsKeyEqual := fun kv k => Z.eqb kv.(key) k |}.

(** Modelled from the spec: [RawPointerKeyValueTrait<K, V>] is declared in
    vm/hash_map.h, which is not part of the sources at hand.  Keys are raw
    pointers compared by address. *)
Definition RawPointerKeyValueTrait (V : Type) : KeyValueTrait nat V :=
  {| Hashcode := fun k => Z.of_nat k;
     IsKeyEqual := fun kv k => Nat.eqb kv.(key) k |}.

(** Modelled from the spec: [DirectChainedHashMap] (and its malloc-backed
    twin [MallocDirectChainedHashMap]) come from vm/hash_map.h, which is not
    part of the sources at hand.  The spec only asks for a sparse map from
    keys to values; the pairs are kept most recent first, [Insert] adds a
    pair and [Lookup] returns the first pair the trait accepts for the key,
    or [NULL]. *)
Module DirectChainedHashMap.
Section WithTrait.
Context {K V : Type} (T : KeyValueTrait K V).

Definition t := list (Pair K V).
Definition empty : t := [].
Definition Insert (kv : Pair K V) (m : t) : t := kv :: m.
Definition Lookup (key : K) (m : t) : option (Pair K V) :=
  List.find (fun kv => @IsKeyEqual _ _ T kv key) m.
End WithTrait.
End DirectChainedHashMap.

Module MallocDirectChainedHashMap.
Section WithTrait.
Context {K V : Type} (T : KeyValueTrait K V).

Definition t := DirectChainedHashMap.t (K:=K) (V:=V).
Definition empty : t := DirectChainedHashMap.empty.
Definition Insert (kv : Pair K V) (m : t) : t :=
  DirectChainedHashMap.Insert kv m.
Definition Lookup (key : K) (m : t) : option (Pair K V) :=
  DirectChainedHashMap.Lookup T key m.
End WithTrait.
End MallocDirectChainedHashMap.

(** [template <typename K, typename V> class Map]. *)
Module Map.
Section WithValue.
Context {V : Type} `{DefaultConstructible V}.

Definition t := DirectChainedHashMap.t (K:=nat) (V:=V).
Definition empty : t := DirectChainedHashMap.empty.

Definition Insert (key : nat) (value : V) (m : t) : t :=
  let kv := mkPair key value in
  DirectChainedHashMap.Insert kv m.

Definition Lookup (key : nat) (m : t) : V :=
  let found :=
    DirectChainedHashMap.Lookup (RawPointerKeyValueTrait V) key m in
  match found with
  | None => default_value
  | Some kv => kv.(value)
  end.

Definition LookupPair (key : nat) (m : t) : option (Pair nat V) :=
  DirectChainedHashMap.Lookup (RawPointerKeyValueTrait V) key m.
End WithValue.
End Map.

(** [template <typename V> class IntMap]. *)
Module IntMap.
Section WithValue.
Context {V : Type} `{DefaultConstructible V}.

Definition t := DirectChainedHashMap.t (K:=Z) (V:=V).
Definition empty : t := DirectChainedHashMap.empty.

Definition Insert (key : Z) (value : V) (m : t) : t :=
  let kv := mkPair key value in
  DirectChainedHashMap.Insert kv m.

Definition Lookup (key : Z) (m : t) : V :=
  let found :=
    DirectChainedHashMap.Lookup (IntKeyRawPointerValueTrait V) key m in
  match found with
  | None => default_value
  | Some kv => kv.(value)
  end.

Definition LookupPair (key : Z) (m : t) : option (Pair Z V) :=
  DirectChainedHashMap.Lookup (IntKeyRawPointerValueTrait V) key m.
End WithValue.
End IntMap.

(** [template <typename K, typename V> class MallocMap]. *)
Module MallocMap.
Section WithValue.
Context {V : Type} `{DefaultConstructible V}.

Definition t := MallocDirectChainedHashMap.t (K:=nat) (V:=V).
Definition empty : t := MallocDirectChainedHashMap.empty.

Definition Insert (key : nat) (value : V) (m : t) : t :=
  let kv := mkPair key value in
  MallocDirectChainedHashMap.Insert kv m.

Definition Lookup (key : nat) (m : t) : V :=
  let found :=
    MallocDirectChainedHashMap.Lookup (RawPointerKeyValueTrait V) key m in
  match found with
  | None => default_value
  | Some kv => kv.(value)
  end.

Definition LookupPair (key : nat) (m : t) : option (Pair nat V) :=
  MallocDirectChainedHashMap.Lookup (RawPointerKeyValueTrait V) key m.
End WithValue.
End MallocMap.

(** The map obtained from the empty one by a sequence of insertions (the
    last insertion first). *)
Definition Map_of_inserts {V} (kvs : list (nat * V)) : Map.t (V:=V) :=
  foldr (fun kv m => Map.Insert kv.1 kv.2 m) Map.empty kvs.
Definition IntMap_of_inserts {V} (kvs : list (Z * V)) : IntMap.t (V:=V) :=
  foldr (fun kv m => IntMap.Insert kv.1 kv.2 m) IntMap.empty kvs.
Definition MallocMap_of_inserts {V} (kvs : list (nat * V))
    : MallocMap.t (V:=V) :=
  foldr (fun kv m => MallocMap.Insert kv.1 kv.2 m) MallocMap.empty kvs.

(** ** Keys of the kernel constants map *)

(** [class KernelConstMapKeyEqualsTraits].  The class [Smi] comes from
    vm/object.h and is taken as a parameter: [Value] reads the integer of a
    Smi, [New] makes the Smi of an integer, and two Smis are compared as
    raw pointers.  [kMaxValue] stands for [Smi::kMaxValue].  The
    [ASSERT(key >= 0)] of [KeyAsSmi] is a precondition of the functions
    that take an [intptr_t] key.  A result of type [uword] is the 64-bit
    unsigned reading of the [intptr_t] computed. *)
Module KernelConstMapKeyEqualsTraits.
Section WithSmi.
Context {Smi : Type} `{EqDecision Smi}.
Context (Value : Smi -> Z) (New : Z -> Smi) (kMaxValue : Z).

Definition uword (z : Z) : Z := z `mod` 2 ^ 64.

(** [static uword HashValue(intptr_t pos)
       { return pos % (Smi::kMaxValue - 13); }] *)
Definition HashValue (pos : Z) : Z := uword (Z.rem pos (kMaxValue - 13)).

(** [static RawSmi* KeyAsSmi(const intptr_t key)] *)
Definition KeyAsSmi (key : Z) : Smi := New key.

(** [static bool IsMatch(const Object& a, const Object& b)] *)
Definition IsMatch (a b : Smi) : bool := Value a =? Value b.

(** [static bool IsMatch(const intptr_t key1, const Object& b)] *)
Definition IsMatch_key (key1 : Z) (b : Smi) : bool :=
  bool_decide (KeyAsSmi key1 = b).

(** [static uword Hash(const Object& obj)] *)
Definition Hash (obj : Smi) : Z := HashValue (Value obj).

(** [static uword Hash(const intptr_t key)] *)
Definition Hash_key (key : Z) : Z := HashValue (Value (KeyAsSmi key)).

(** [static RawObject* NewKey(const intptr_t key)] *)
Definition NewKey (key : Z) : Smi := KeyAsSmi key.
End WithSmi.
End KernelConstMapKeyEqualsTraits.

(** ** Fragments *)

Module Fragment.
(** [Instruction* entry; Instruction* current;] *)
Record t := mk { entry : ptr; current : ptr }.

(** [Fragment()] *)
Definition empty : t := mk NULL NULL.
(** [Fragment(Instruction* instruction)] *)
Definition of_instruction (instruction : ptr) : t :=
  mk instruction instruction.

Definition is_open (f : t) : bool :=
  is_null f.(entry) || negb (is_null f.(current)).
Definition is_closed (f : t) : bool := negb (is_open f).

(** The instruction graph is the successor link of every linked
    instruction, a finite map from addresses to addresses. *)
Definition linked (g : gmap nat nat) (n m : nat) : Prop := g !! n = Some m.
Definition reachable (g : gmap nat nat) : nat -> nat -> Prop :=
  rtc (linked g).

(** Modelled from the spec: [Fragment::closed] is defined in
    kernel_to_il.cc, which is not part of the sources at hand.  The result
    keeps the entry and has a null current exit. *)
Definition closed (f : t) : t := mk f.(entry) NULL.

(** Modelled from the spec: [Fragment::operator+=] and [operator+] are
    defined in kernel_to_il.cc, which is not part of the sources at hand.
    A closed left operand is returned as it is; an open one has its open
    exit wired to the entry of the right operand and the result spans
    from the left entry to the right current exit.  A fragment without an
    entry contributes nothing: on the left the result is the right
    operand, on the right the left operand is kept. *)
Definition concatenate (a b : t) (g : gmap nat nat) : t * gmap nat nat :=
  if is_closed a then (a, g)
  else
    match a.(entry), a.(current), b.(entry) with
    | None, _, _ => (b, g)
    | Some _, Some exit, Some next =>
        (mk a.(entry) b.(current), <[exit := next]> g)
    | Some _, _, _ => (a, g)
    end.
End Fragment.

(** ** The active class and its scope guards *)

Module ActiveClass.
Record t := mk {
  klass : ptr;
  member : ptr;
  enclosing : ptr;
  local_type_parameters : ptr
}.

(** [ActiveClass()] *)
Definition init : t := mk NULL NULL NULL NULL.

Definition HasMember (ac : t) : bool := negb (is_null ac.(member)).

Definition set_klass (k : ptr) (ac : t) : t :=
  mk k ac.(member) ac.(enclosing) ac.(local_type_parameters).
Definition set_member (m : ptr) (ac : t) : t :=
  mk ac.(klass) m ac.(enclosing) ac.(local_type_parameters).
End ActiveClass.

(** The scope guards work through an [ActiveClass*]; the pointees live in a
    store of active classes. *)
Module ActiveClassScope.
Record t := mk { active_class_ : nat; saved_ : ActiveClass.t }.

(** [ActiveClassScope(ActiveClass* active_class, const Class* klass)] *)
Definition ctor (active_class : nat) (klass : ptr)
    (store : gmap nat ActiveClass.t) : option (t * gmap nat ActiveClass.t) :=
  saved ← store !! active_class;
  Some (mk active_class saved,
        <[active_class := ActiveClass.set_klass klass saved]> store).

(** [~ActiveClassScope() { *active_class_ = saved_; }] *)
Definition dtor (self : t) (store : gmap nat ActiveClass.t)
    : gmap nat ActiveClass.t :=
  <[self.(active_class_) := self.(saved_)]> store.
End ActiveClassScope.

Module ActiveMemberScope.
Record t := mk { active_class_ : nat; saved_ : ActiveClass.t }.

(** [ActiveMemberScope(ActiveClass* active_class, const Function* member)] *)
Definition ctor (active_class : nat) (member : ptr)
    (store : gmap nat ActiveClass.t) : option (t * gmap nat ActiveClass.t) :=
  saved ← store !! active_class;
  (* The class is inherited. *)
  Some (mk active_class saved,
        <[active_class := ActiveClass.set_member member saved]> store).

(** [~ActiveMemberScope() { *active_class_ = saved_; }] *)
Definition dtor (self : t) (store : gmap nat ActiveClass.t)
    : gmap nat ActiveClass.t :=
  <[self.(active_class_) := self.(saved_)]> store.
End ActiveMemberScope.

(** ** Region trackers: data members *)

(** Modelled from the spec: [JoinEntryInstr] is declared in
    vm/compiler/backend/il.h, which is not part of the sources at hand.  A
    join entry carries its block id and the try-index it is tagged with. *)
Record JoinEntryInstr := mkJoin { block_id : Z; try_index : Z }.

(** Every tracker also holds [builder_], a pointer to the one builder of the
    translation; the embedding passes that builder explicitly. *)

Module TryCatchBlock.
Record t := mk { outer_ : ptr; try_index_ : Z }.

Definition try_index (self : t) : Z := self.(try_index_).
Definition outer (self : t) : ptr := self.(outer_).
End TryCatchBlock.

Module TryFinallyBlock.
Record t := mk {
  outer_ : ptr;
  finalizer_kernel_offset_ : Z;
  context_depth_ : Z;
  try_depth_ : Z;
  try_index_ : Z
}.

Definition finalizer_kernel_offset (self : t) : Z :=
  self.(finalizer_kernel_offset_).
Definition context_depth (self : t) : Z := self.(context_depth_).
Definition try_depth (self : t) : Z := self.(try_depth_).
Definition try_index (self : t) : Z := self.(try_index_).
Definition outer (self : t) : ptr := self.(outer_).
End TryFinallyBlock.

Module SwitchBlock.
Record t := mk {
  outer_ : ptr;
  destinations_ : IntMap.t (V:=ptr);
  outer_finally_ : ptr;
  case_count_ : Z;
  depth_ : Z;
  context_depth_ : Z;
  try_index_ : Z
}.

Definition HadJumper (self : t) (case_num : Z) : bool :=
  negb (is_null (IntMap.Lookup case_num self.(destinations_))).

Definition set_destinations_ (d : IntMap.t (V:=ptr)) (self : t) : t :=
  mk self.(outer_) d self.(outer_finally_) self.(case_count_)
     self.(depth_) self.(context_depth_) self.(try_index_).
End SwitchBlock.

Module BreakableBlock.
Record t := mk {
  index_ : Z;
  outer_ : ptr;
  destination_ : ptr;
  outer_finally_ : ptr;
  context_depth_ : Z;
  try_index_ : Z
}.

Definition HadJumper (self : t) : bool := negb (is_null self.(destination_)).
Definition destination (self : t) : ptr := self.(destination_).

Definition set_destination_ (d : ptr) (self : t) : t :=
  mk self.(index_) self.(outer_) d self.(outer_finally_)
     self.(context_depth_) self.(try_index_).
End BreakableBlock.

Module CatchBlock.
Record t := mk {
  outer_ : ptr;
  exception_var_ : ptr;
  stack_trace_var_ : ptr;
  catch_try_index_ : Z
}.

Definition exception_var (self : t) : ptr := self.(exception_var_).
Definition stack_trace_var (self : t) : ptr := self.(stack_trace_var_).
Definition catch_try_index (self : t) : Z := self.(catch_try_index_).
End CatchBlock.

(** ** The builder *)

(** The fields of [BaseFlowGraphBuilder] and [FlowGraphBuilder] that the
    trackers read and write, together with the stores of the objects the
    builder's pointers refer to.  A store never reuses an address: a new
    object is placed after every earlier one, and a destroyed tracker merely
    becomes unreachable. *)
Module FlowGraphBuilder.
Record t := mk {
  context_depth_ : Z;
  last_used_block_id_ : Z;
  try_catch_block_ : ptr;
  next_used_try_index_ : Z;
  try_depth_ : Z;
  breakable_block_ : ptr;
  switch_block_ : ptr;
  try_finally_block_ : ptr;
  catch_block_ : ptr;
  join_entries : list JoinEntryInstr;
  try_catch_blocks : list TryCatchBlock.t;
  try_finally_blocks : list TryFinallyBlock.t;
  switch_blocks : list SwitchBlock.t;
  breakable_blocks : list BreakableBlock.t;
  catch_blocks : list CatchBlock.t
}.

Definition set_context_depth_ (v : Z) (s : t) : t :=
  mk v s.(last_used_block_id_) s.(try_catch_block_)
    s.(next_used_try_index_) s.(try_depth_) s.(breakable_block_)
    s.(switch_block_) s.(try_finally_block_) s.(catch_block_)
    s.(join_entries) s.(try_catch_blocks) s.(try_finally_blocks)
    s.(switch_blocks) s.(breakable_blocks) s.(catch_blocks).
Definition set_last_used_block_id_ (v : Z) (s : t) : t :=
  mk s.(context_depth_) v s.(try_catch_block_) s.(next_used_try_index_)
    s.(try_depth_) s.(breakable_block_) s.(switch_block_)
    s.(try_finally_block_) s.(catch_block_) s.(join_entries)
    s.(try_catch_blocks) s.(try_finally_blocks) s.(switch_blocks)
    s.(breakable_blocks) s.(catch_blocks).
Definition set_try_catch_block_ (v : ptr) (s : t) : t :=
  mk s.(context_depth_) s.(last_used_block_id_) v s.(next_used_try_index_)
    s.(try_depth_) s.(breakable_block_) s.(switch_block_)
    s.(try_finally_block_) s.(catch_block_) s.(join_entries)
    s.(try_catch_blocks) s.(try_finally_blocks) s.(switch_blocks)
    s.(breakable_blocks) s.(catch_blocks).
Definition set_next_used_try_index_ (v : Z) (s : t) : t :=
  mk s.(context_depth_) s.(last_used_block_id_) s.(try_catch_block_) v
    s.(try_depth_) s.(breakable_block_) s.(switch_block_)
    s.(try_finally_block_) s.(catch_block_) s.(join_entries)
    s.(try_catch_blocks) s.(try_finally_blocks) s.(switch_blocks)
    s.(breakable_blocks) s.(catch_blocks).
Definition set_try_depth_ (v : Z) (s : t) : t :=
  mk s.(context_depth_) s.(last_used_block_id_) s.(try_catch_block_)
    s.(next_used_try_index_) v s.(breakable_block_) s.(switch_block_)
    s.(try_finally_block_) s.(catch_block_) s.(join_entries)
    s.(try_catch_blocks) s.(try_finally_blocks) s.(switch_blocks)
    s.(breakable_blocks) s.(catch_blocks).
Definition set_breakable_block_ (v : ptr) (s : t) : t :=
  mk s.(context_depth_) s.(last_used_block_id_) s.(try_catch_block_)
    s.(next_used_try_index_) s.(try_depth_) v s.(switch_block_)
    s.(try_finally_block_) s.(catch_block_) s.(join_entries)
    s.(try_catch_blocks) s.(try_finally_blocks) s.(switch_blocks)
    s.(breakable_blocks) s.(catch_blocks).
Definition set_switch_block_ (v : ptr) (s : t) : t :=
  mk s.(context_depth_) s.(last_used_block_id_) s.(try_catch_block_)
    s.(next_used_try_index_) s.(try_depth_) s.(breakable_block_) v
    s.(try_finally_block_) s.(catch_block_) s.(join_entries)
    s.(try_catch_blocks) s.(try_finally_blocks) s.(switch_blocks)
    s.(breakable_blocks) s.(catch_blocks).
Definition set_try_finally_block_ (v : ptr) (s : t) : t :=
  mk s.(context_depth_) s.(last_used_block_id_) s.(try_catch_block_)
    s.(next_used_try_index_) s.(try_depth_) s.(breakable_block_)
    s.(switch_block_) v s.(catch_block_) s.(join_entries)
    s.(try_catch_blocks) s.(try_finally_blocks) s.(switch_blocks)
    s.(breakable_blocks) s.(catch_blocks).
Definition set_catch_block_ (v : ptr) (s : t) : t :=
  mk s.(context_depth_) s.(last_used_block_id_) s.(try_catch_block_)
    s.(next_used_try_index_) s.(try_depth_) s.(breakable_block_)
    s.(switch_block_) s.(try_finally_block_) v s.(join_entries)
    s.(try_catch_blocks) s.(try_finally_blocks) s.(switch_blocks)
    s.(breakable_blocks) s.(catch_blocks).
Definition set_join_entries (v : list JoinEntryInstr) (s : t) : t :=
  mk s.(context_depth_) s.(last_used_block_id_) s.(try_catch_block_)
    s.(next_used_try_index_) s.(try_depth_) s.(breakable_block_)
    s.(switch_block_) s.(try_finally_block_) s.(catch_block_) v
    s.(try_catch_blocks) s.(try_finally_blocks) s.(switch_blocks)
    s.(breakable_blocks) s.(catch_blocks).
Definition set_try_catch_blocks (v : list TryCatchBlock.t) (s : t) : t :=
  mk s.(context_depth_) s.(last_used_block_id_) s.(try_catch_block_)
    s.(next_used_try_index_) s.(try_depth_) s.(breakable_block_)
    s.(switch_block_) s.(try_finally_block_) s.(catch_block_)
    s.(join_entries) v s.(try_finally_blocks) s.(switch_blocks)
    s.(breakable_blocks) s.(catch_blocks).
Definition set_try_finally_blocks (v : list TryFinallyBlock.t) (s : t) : t :=
  mk s.(context_depth_) s.(last_used_block_id_) s.(try_catch_block_)
    s.(next_used_try_index_) s.(try_depth_) s.(breakable_block_)
    s.(switch_block_) s.(try_finally_block_) s.(catch_block_)
    s.(join_entries) s.(try_catch_blocks) v s.(switch_blocks)
    s.(breakable_blocks) s.(catch_blocks).
Definition set_switch_blocks (v : list SwitchBlock.t) (s : t) : t :=
  mk s.(context_depth_) s.(last_used_block_id_) s.(try_catch_block_)
    s.(next_used_try_index_) s.(try_depth_) s.(breakable_block_)
    s.(switch_block_) s.(try_finally_block_) s.(catch_block_)
    s.(join_entries) s.(try_catch_blocks) s.(try_finally_blocks) v
    s.(breakable_blocks) s.(catch_blocks).
Definition set_breakable_blocks (v : list BreakableBlock.t) (s : t) : t :=
  mk s.(context_depth_) s.(last_used_block_id_) s.(try_catch_block_)
    s.(next_used_try_index_) s.(try_depth_) s.(breakable_block_)
    s.(switch_block_) s.(try_finally_block_) s.(catch_block_)
    s.(join_entries) s.(try_catch_blocks) s.(try_finally_blocks)
    s.(switch_blocks) v s.(catch_blocks).
Definition set_catch_blocks (v : list CatchBlock.t) (s : t) : t :=
  mk s.(context_depth_) s.(last_used_block_id_) s.(try_catch_block_)
    s.(next_used_try_index_) s.(try_depth_) s.(breakable_block_)
    s.(switch_block_) s.(try_finally_block_) s.(catch_block_)
    s.(join_entries) s.(try_catch_blocks) s.(try_finally_blocks)
    s.(switch_blocks) s.(breakable_blocks) v.

(** [BaseFlowGraphBuilder(parsed_function, last_used_block_id, ...)]: the
    base class starts at context depth 0 with no try-catch block and try
    index 0.  Modelled from the spec: the constructor of the derived
    [FlowGraphBuilder] is defined in kernel_to_il.cc, which is not part of
    the sources at hand; every chain of trackers starts out empty. *)
Definition init (last_used_block_id : Z) : t :=
  mk 0 last_used_block_id NULL 0 0 NULL NULL NULL NULL [] [] [] [] [] [].

(** [intptr_t AllocateTryIndex() { return next_used_try_index_++; }] *)
Definition AllocateTryIndex (s : t) : Z * t :=
  (s.(next_used_try_index_),
   set_next_used_try_index_ (IntPtr.add s.(next_used_try_index_) 1) s).

(** [intptr_t AllocateBlockId() { return ++last_used_block_id_; }] *)
Definition AllocateBlockId (s : t) : Z * t :=
  let id := IntPtr.add s.(last_used_block_id_) 1 in
  (id, set_last_used_block_id_ id s).

(** Modelled from the spec: [CurrentTryIndex] is defined in
    kernel_to_il.cc, which is not part of the sources at hand.  It gives
    the try-index of the innermost live exception-protected region; the
    index reported outside every such region,
    [CatchClauseNode::kInvalidTryIndex], is a parameter. *)
Definition CurrentTryIndex (kInvalidTryIndex : Z) (s : t) : option Z :=
  match s.(try_catch_block_) with
  | None => Some kInvalidTryIndex
  | Some a =>
      block ← s.(try_catch_blocks) !! a;
      Some (TryCatchBlock.try_index block)
  end.

(** Modelled from the spec: [BuildJoinEntry(intptr_t try_index)] is
    defined in kernel_to_il.cc, which is not part of the sources at hand.
    It builds a join-entry block with a newly allocated block id, tagged
    with the try-index, and returns the (non-null) pointer to it. *)
Definition BuildJoinEntry (try_index : Z) (s : t) : ptr * t :=
  let '(id, s) := AllocateBlockId s in
  let inst := length s.(join_entries) in
  (Some inst, set_join_entries (s.(join_entries) ++ [mkJoin id try_index]) s).
End FlowGraphBuilder.

(** ** Region trackers: member functions *)

(** The loops of [SwitchBlock::Destination] and
    [BreakableBlock::BreakDestination] have one shape:
    [while (continue(block)) block = block->outer_;].  The walk dereferences
    [block] at every step and yields the address it stops at.  Every tracker
    is created after its outer one, so from address [a] at most [a + 1]
    blocks are visited; the fuel is that bound. *)
Section Walk.
Context {A : Type} (outer : A -> ptr) (continue : A -> bool).

Fixpoint walk_outward (fuel : nat) (store : list A) (block : ptr)
    : option nat :=
  match fuel with
  | O => None
  | S fuel =>
      a ← block;
      b ← store !! a;
      if continue b then walk_outward fuel store (outer b) else Some a
  end.

Definition walk_from (store : list A) (block : ptr) : option nat :=
  a ← block; walk_outward (S a) store block.
End Walk.

(** *** TryCatchBlock *)

(** [explicit TryCatchBlock(BaseFlowGraphBuilder* builder,
                            intptr_t try_handler_index = -1)] *)
Definition TryCatchBlock_ctor (try_handler_index : Z) (s : FlowGraphBuilder.t)
    : nat * FlowGraphBuilder.t :=
  let outer := s.(FlowGraphBuilder.try_catch_block_) in
  let '(try_index, s) :=
    if try_handler_index =? -1 then FlowGraphBuilder.AllocateTryIndex s
    else (try_handler_index, s) in
  let this := length s.(FlowGraphBuilder.try_catch_blocks) in
  (this,
   FlowGraphBuilder.set_try_catch_block_ (Some this)
     (FlowGraphBuilder.set_try_catch_blocks
        (s.(FlowGraphBuilder.try_catch_blocks)
           ++ [TryCatchBlock.mk outer try_index]) s)).

(** [~TryCatchBlock() { builder_->try_catch_block_ = outer_; }] *)
Definition TryCatchBlock_dtor (this : nat) (s : FlowGraphBuilder.t)
    : option FlowGraphBuilder.t :=
  self ← s.(FlowGraphBuilder.try_catch_blocks) !! this;
  Some (FlowGraphBuilder.set_try_catch_block_ self.(TryCatchBlock.outer_) s).

(** *** TryFinallyBlock *)

(** [TryFinallyBlock(FlowGraphBuilder* builder,
                     intptr_t finalizer_kernel_offset)] *)
Definition TryFinallyBlock_ctor (kInvalidTryIndex : Z)
    (finalizer_kernel_offset : Z) (s : FlowGraphBuilder.t)
    : option (nat * FlowGraphBuilder.t) :=
  let outer := s.(FlowGraphBuilder.try_finally_block_) in
  let context_depth := s.(FlowGraphBuilder.context_depth_) in
  (* Finalizers are executed outside of the try block hence try depth of
     finalizers are one less than current try depth. *)
  let try_depth := IntPtr.sub s.(FlowGraphBuilder.try_depth_) 1 in
  try_index ← FlowGraphBuilder.CurrentTryIndex kInvalidTryIndex s;
  let this := length s.(FlowGraphBuilder.try_finally_blocks) in
  Some (this,
        FlowGraphBuilder.set_try_finally_block_ (Some this)
          (FlowGraphBuilder.set_try_finally_blocks
             (s.(FlowGraphBuilder.try_finally_blocks)
                ++ [TryFinallyBlock.mk outer finalizer_kernel_offset
                      context_depth try_depth try_index]) s)).

(** [~TryFinallyBlock() { builder_->try_finally_block_ = outer_; }] *)
Definition TryFinallyBlock_dtor (this : nat) (s : FlowGraphBuilder.t)
    : option FlowGraphBuilder.t :=
  self ← s.(FlowGraphBuilder.try_finally_blocks) !! this;
  Some (FlowGraphBuilder.set_try_finally_block_
          self.(TryFinallyBlock.outer_) s).

(** *** SwitchBlock *)

(** [SwitchBlock(FlowGraphBuilder* builder, intptr_t case_count)] *)
Definition SwitchBlock_ctor (kInvalidTryIndex : Z) (case_count : Z)
    (s : FlowGraphBuilder.t) : option (nat * FlowGraphBuilder.t) :=
  let outer := s.(FlowGraphBuilder.switch_block_) in
  let outer_finally := s.(FlowGraphBuilder.try_finally_block_) in
  let context_depth := s.(FlowGraphBuilder.context_depth_) in
  try_index ← FlowGraphBuilder.CurrentTryIndex kInvalidTryIndex s;
  depth ←
    match outer with
    | Some o =>
        outer_block ← s.(FlowGraphBuilder.switch_blocks) !! o;
        Some (IntPtr.add outer_block.(SwitchBlock.depth_)
                outer_block.(SwitchBlock.case_count_))
    | None => Some 0
    end;
  let this := length s.(FlowGraphBuilder.switch_blocks) in
  Some (this,
        FlowGraphBuilder.set_switch_block_ (Some this)
          (FlowGraphBuilder.set_switch_blocks
             (s.(FlowGraphBuilder.switch_blocks)
                ++ [SwitchBlock.mk outer IntMap.empty outer_finally case_count
                      depth context_depth try_index]) s)).

(** [~SwitchBlock() { builder_->switch_block_ = outer_; }] *)
Definition SwitchBlock_dtor (this : nat) (s : FlowGraphBuilder.t)
    : option FlowGraphBuilder.t :=
  self ← s.(FlowGraphBuilder.switch_blocks) !! this;
  Some (FlowGraphBuilder.set_switch_block_ self.(SwitchBlock.outer_) s).

(** [JoinEntryInstr* EnsureDestination(intptr_t case_num)] *)
Definition SwitchBlock_EnsureDestination (this : nat) (case_num : Z)
    (s : FlowGraphBuilder.t) : option (ptr * FlowGraphBuilder.t) :=
  self ← s.(FlowGraphBuilder.switch_blocks) !! this;
  let cached_inst := IntMap.Lookup case_num self.(SwitchBlock.destinations_) in
  if is_null cached_inst then
    let '(inst, s) :=
      FlowGraphBuilder.BuildJoinEntry self.(SwitchBlock.try_index_) s in
    let self' :=
      SwitchBlock.set_destinations_
        (IntMap.Insert case_num inst self.(SwitchBlock.destinations_)) self in
    Some (inst,
          FlowGraphBuilder.set_switch_blocks
            (<[this := self']> s.(FlowGraphBuilder.switch_blocks)) s)
  else Some (cached_inst, s).

(** The two out-parameters of [Destination] and [DestinationDirect] default
    to [NULL]; [outer_finally] and [context_depth] below say whether the
    caller passed a pointer.  Nothing is written when [outer_finally] is
    null; otherwise both are written, and writing through a null
    [context_depth] is an invalid access. *)
Definition write_outs (outer_finally context_depth : bool)
    (finally_block : ptr) (depth : Z) : option (option ptr * option Z) :=
  if outer_finally then
    if context_depth then Some (Some finally_block, Some depth) else None
  else Some (None, None).

(** [JoinEntryInstr* Destination(intptr_t target_index,
                                 TryFinallyBlock** outer_finally = NULL,
                                 intptr_t* context_depth = NULL)] *)
Definition SwitchBlock_Destination (this : nat) (target_index : Z)
    (outer_finally context_depth : bool) (s : FlowGraphBuilder.t)
    : option (ptr * (option ptr * option Z) * FlowGraphBuilder.t) :=
  (* Find corresponding [SwitchStatement]. *)
  a ← walk_from SwitchBlock.outer_
         (fun block => block.(SwitchBlock.depth_) >? target_index)
         s.(FlowGraphBuilder.switch_blocks) (Some this);
  block ← s.(FlowGraphBuilder.switch_blocks) !! a;
  (* Set the outer finally block. *)
  outs ← write_outs outer_finally context_depth
           block.(SwitchBlock.outer_finally_)
           block.(SwitchBlock.context_depth_);
  (* Ensure there's [JoinEntryInstr] for that [SwitchCase]. *)
  '(inst, s) ←
    SwitchBlock_EnsureDestination a
      (IntPtr.sub target_index block.(SwitchBlock.depth_)) s;
  Some (inst, outs, s).

(** [JoinEntryInstr* DestinationDirect(intptr_t case_num,
                                       TryFinallyBlock** outer_finally = NULL,
                                       intptr_t* context_depth = NULL)] *)
Definition SwitchBlock_DestinationDirect (this : nat) (case_num : Z)
    (outer_finally context_depth : bool) (s : FlowGraphBuilder.t)
    : option (ptr * (option ptr * option Z) * FlowGraphBuilder.t) :=
  self ← s.(FlowGraphBuilder.switch_blocks) !! this;
  outs ← write_outs outer_finally context_depth
           self.(SwitchBlock.outer_finally_)
           self.(SwitchBlock.context_depth_);
  '(inst, s) ← SwitchBlock_EnsureDestination this case_num s;
  Some (inst, outs, s).

(** *** BreakableBlock *)

(** [explicit BreakableBlock(FlowGraphBuilder* builder)] *)
Definition BreakableBlock_ctor (kInvalidTryIndex : Z) (s : FlowGraphBuilder.t)
    : option (nat * FlowGraphBuilder.t) :=
  let outer := s.(FlowGraphBuilder.breakable_block_) in
  let outer_finally := s.(FlowGraphBuilder.try_finally_block_) in
  let context_depth := s.(FlowGraphBuilder.context_depth_) in
  try_index ← FlowGraphBuilder.CurrentTryIndex kInvalidTryIndex s;
  index ←
    match s.(FlowGraphBuilder.breakable_block_) with
    | None => Some 0
    | Some o =>
        outer_block ← s.(FlowGraphBuilder.breakable_blocks) !! o;
        Some (IntPtr.add outer_block.(BreakableBlock.index_) 1)
    end;
  let this := length s.(FlowGraphBuilder.breakable_blocks) in
  Some (this,
        FlowGraphBuilder.set_breakable_block_ (Some this)
          (FlowGraphBuilder.set_breakable_blocks
             (s.(FlowGraphBuilder.breakable_blocks)
                ++ [BreakableBlock.mk index outer NULL outer_finally
                      context_depth try_index]) s)).

(** [~BreakableBlock() { builder_->breakable_block_ = outer_; }] *)
Definition BreakableBlock_dtor (this : nat) (s : FlowGraphBuilder.t)
    : option FlowGraphBuilder.t :=
  self ← s.(FlowGraphBuilder.breakable_blocks) !! this;
  Some (FlowGraphBuilder.set_breakable_block_ self.(BreakableBlock.outer_) s).

(** [JoinEntryInstr* EnsureDestination()] *)
Definition BreakableBlock_EnsureDestination (this : nat)
    (s : FlowGraphBuilder.t) : option (ptr * FlowGraphBuilder.t) :=
  self ← s.(FlowGraphBuilder.breakable_blocks) !! this;
  if is_null self.(BreakableBlock.destination_) then
    let '(inst, s) :=
      FlowGraphBuilder.BuildJoinEntry self.(BreakableBlock.try_index_) s in
    Some (inst,
          FlowGraphBuilder.set_breakable_blocks
            (<[this := BreakableBlock.set_destination_ inst self]>
               s.(FlowGraphBuilder.breakable_blocks)) s)
  else Some (self.(BreakableBlock.destination_), s).

(** [JoinEntryInstr* BreakDestination(intptr_t label_index,
                                      TryFinallyBlock** outer_finally,
                                      intptr_t* context_depth)]
    The walk starts at the builder's innermost breakable block, whatever
    block the member is called on; both out-parameters are written. *)
Definition BreakableBlock_BreakDestination (this : nat) (label_index : Z)
    (s : FlowGraphBuilder.t)
    : option (ptr * (ptr * Z) * FlowGraphBuilder.t) :=
  _ ← s.(FlowGraphBuilder.breakable_blocks) !! this;
  a ← walk_from BreakableBlock.outer_
         (fun block => negb (block.(BreakableBlock.index_) =? label_index))
         s.(FlowGraphBuilder.breakable_blocks)
         s.(FlowGraphBuilder.breakable_block_);
  block ← s.(FlowGraphBuilder.breakable_blocks) !! a;
  '(inst, s') ← BreakableBlock_EnsureDestination a s;
  Some (inst,
        (block.(BreakableBlock.outer_finally_),
         block.(BreakableBlock.context_depth_)), s').

(** *** CatchBlock *)

(** [CatchBlock(FlowGraphBuilder* builder, LocalVariable* exception_var,
                LocalVariable* stack_trace_var, intptr_t catch_try_index)] *)
Definition CatchBlock_ctor (exception_var stack_trace_var : ptr)
    (catch_try_index : Z) (s : FlowGraphBuilder.t)
    : nat * FlowGraphBuilder.t :=
  let outer := s.(FlowGraphBuilder.catch_block_) in
  let this := length s.(FlowGraphBuilder.catch_blocks) in
  (this,
   FlowGraphBuilder.set_catch_block_ (Some this)
     (FlowGraphBuilder.set_catch_blocks
        (s.(FlowGraphBuilder.catch_blocks)
           ++ [CatchBlock.mk outer exception_var stack_trace_var
                 catch_try_index]) s)).

(** [~CatchBlock() { builder_->catch_block_ = outer_; }] *)
Definition CatchBlock_dtor (this : nat) (s : FlowGraphBuilder.t)
    : option FlowGraphBuilder.t :=
  self ← s.(FlowGraphBuilder.catch_blocks) !! this;
  Some (FlowGraphBuilder.set_catch_block_ self.(CatchBlock.outer_) s).

(** ** Sequences of builder operations *)

(** What the translator can do to the builder and its trackers between two
    points of a translation: enter and leave regions, resolve jump
    destinations, allocate try indices and join entries, and adjust the
    context and try depth counters. *)
Inductive Op :=
| EnterTryCatch (try_handler_index : Z)
| LeaveTryCatch (this : nat)
| EnterTryFinally (finalizer_kernel_offset : Z)
| LeaveTryFinally (this : nat)
| EnterSwitch (case_count : Z)
| LeaveSwitch (this : nat)
| SwitchDestination (this : nat) (target_index : Z)
    (outer_finally context_depth : bool)
| SwitchDestinationDirect (this : nat) (case_num : Z)
    (outer_finally context_depth : bool)
| EnterBreakable
| LeaveBreakable (this : nat)
| BreakDestination (this : nat) (label_index : Z)
| EnterCatch (exception_var stack_trace_var : ptr) (catch_try_index : Z)
| LeaveCatch (this : nat)
| AllocateTryIndex
| BuildJoinEntry (try_index : Z)
| SetContextDepth (depth : Z)
| SetTryDepth (depth : Z).

Definition step (kInvalidTryIndex : Z) (op : Op) (s : FlowGraphBuilder.t)
    : option FlowGraphBuilder.t :=
  match op with
  | EnterTryCatch i => Some (TryCatchBlock_ctor i s).2
  | LeaveTryCatch this => TryCatchBlock_dtor this s
  | EnterTryFinally off => snd <$> TryFinallyBlock_ctor kInvalidTryIndex off s
  | LeaveTryFinally this => TryFinallyBlock_dtor this s
  | EnterSwitch n => snd <$> SwitchBlock_ctor kInvalidTryIndex n s
  | LeaveSwitch this => SwitchBlock_dtor this s
  | SwitchDestination this n f d => snd <$> SwitchBlock_Destination this n f d s
  | SwitchDestinationDirect this n f d =>
      snd <$> SwitchBlock_DestinationDirect this n f d s
  | EnterBreakable => snd <$> BreakableBlock_ctor kInvalidTryIndex s
  | LeaveBreakable this => BreakableBlock_dtor this s
  | BreakDestination this l => snd <$> BreakableBlock_BreakDestination this l s
  | EnterCatch e t i => Some (CatchBlock_ctor e t i s).2
  | LeaveCatch this => CatchBlock_dtor this s
  | AllocateTryIndex => Some (FlowGraphBuilder.AllocateTryIndex s).2
  | BuildJoinEntry i => Some (FlowGraphBuilder.BuildJoinEntry i s).2
  | SetContextDepth d =>
      if decide (IntPtr.in_range d)
      then Some (FlowGraphBuilder.set_context_depth_ d s) else None
  | SetTryDepth d =>
      if decide (IntPtr.in_range d)
      then Some (FlowGraphBuilder.set_try_depth_ d s) else None
  end.

Fixpoint run (kInvalidTryIndex : Z) (ops : list Op) (s : FlowGraphBuilder.t)
    : option FlowGraphBuilder.t :=
  match ops with
  | [] => Some s
  | op :: ops => s' ← step kInvalidTryIndex op s; run kInvalidTryIndex ops s'
  end.

(** ** Chains of trackers *)

Section Chains.
Context {A : Type} (outer : A -> ptr).

(** Every tracker was created after the one it names as its outer. *)
Definition chain_ok (store : list A) : Prop :=
  forall a b o, store !! a = Some b -> outer b = Some o -> (o < a)%nat.

(** [encloses store block r]: the tracker at [r] is [block] or one of the
    trackers around it. *)
Inductive encloses (store : list A) : ptr -> nat -> Prop :=
| encloses_self a b :
    store !! a = Some b -> encloses store (Some a) a
| encloses_outer a b r :
    store !! a = Some b -> encloses store (outer b) r ->
    encloses store (Some a) r.

(** [stops_at continue store block r]: walking outward from [block],
    [r] is the first tracker on which [continue] is false. *)
Inductive stops_at (continue : A -> bool) (store : list A)
    : ptr -> nat -> Prop :=
| stops_here a b :
    store !! a = Some b -> continue b = false ->
    stops_at continue store (Some a) a
| stops_outer a b r :
    store !! a = Some b -> continue b = true ->
    stops_at continue store (outer b) r ->
    stops_at continue store (Some a) r.
End Chains.

(** [points_into store p]: a pointer is null or the address of an object
    of the store. *)
Definition points_into {A : Type} (store : list A) (p : ptr) : Prop :=
  forall a, p = Some a -> (a < length store)%nat.

(** The builder's chains of switch and breakable blocks are well formed. *)
Record wf (s : FlowGraphBuilder.t) : Prop := {
  wf_switch_chain :
    chain_ok SwitchBlock.outer_ s.(FlowGraphBuilder.switch_blocks);
  wf_switch_top : forall a,
    s.(FlowGraphBuilder.switch_block_) = Some a ->
    (a < length s.(FlowGraphBuilder.switch_blocks))%nat;
  wf_breakable_chain :
    chain_ok BreakableBlock.outer_ s.(FlowGraphBuilder.breakable_blocks);
  wf_breakable_top : forall a,
    s.(FlowGraphBuilder.breakable_block_) = Some a ->
    (a < length s.(FlowGraphBuilder.breakable_blocks))%nat
}.

(** The depths of a chain of switch blocks are contiguous: no case count is
    negative, the outermost block has depth 0 and every other block starts
    where its outer block ends. *)
Definition contiguous (blocks : list SwitchBlock.t) : Prop :=
  forall a b, blocks !! a = Some b ->
    0 <= b.(SwitchBlock.case_count_)
    /\ match b.(SwitchBlock.outer_) with
       | None => b.(SwitchBlock.depth_) = 0
       | Some o =>
           exists ob, blocks !! o = Some ob
             /\ b.(SwitchBlock.depth_)
                = ob.(SwitchBlock.depth_) + ob.(SwitchBlock.case_count_)
       end.

(** The indices of a chain of breakable blocks count the nesting: 0 for
    the outermost block and one more than the outer block's otherwise. *)
Definition indexed (blocks : list BreakableBlock.t) : Prop :=
  forall a b, blocks !! a = Some b ->
    match b.(BreakableBlock.outer_) with
    | None => b.(BreakableBlock.index_) = 0
    | Some o =>
        exists ob, blocks !! o = Some ob
          /\ b.(BreakableBlock.index_) = ob.(BreakableBlock.index_) + 1
    end.

(** [kept R store store']: every object of [store] is still in [store'] at
    its address, related by [R] to what it was. *)
Definition kept {A : Type} (R : A -> A -> Prop) (store store' : list A)
    : Prop :=
  forall a b, store !! a = Some b ->
    exists b', store' !! a = Some b' /\ R b b'.

(** A switch block only ever gains destinations: a join entry once stored
    for a case stays, every other member is fixed at construction. *)
Definition SwitchBlock_grows (b b' : SwitchBlock.t) : Prop :=
  b'.(SwitchBlock.outer_) = b.(SwitchBlock.outer_)
  /\ b'.(SwitchBlock.outer_finally_) = b.(SwitchBlock.outer_finally_)
  /\ b'.(SwitchBlock.case_count_) = b.(SwitchBlock.case_count_)
  /\ b'.(SwitchBlock.depth_) = b.(SwitchBlock.depth_)
  /\ b'.(SwitchBlock.context_depth_) = b.(SwitchBlock.context_depth_)
  /\ b'.(SwitchBlock.try_index_) = b.(SwitchBlock.try_index_)
  /\ forall c, SwitchBlock.HadJumper b c = true ->
       IntMap.Lookup c b'.(SwitchBlock.destinations_)
       = IntMap.Lookup c b.(SwitchBlock.destinations_).

(** A breakable block keeps its destination once it has one. *)
Definition BreakableBlock_grows (b b' : BreakableBlock.t) : Prop :=
  b'.(BreakableBlock.index_) = b.(BreakableBlock.index_)
  /\ b'.(BreakableBlock.outer_) = b.(BreakableBlock.outer_)
  /\ b'.(BreakableBlock.outer_finally_) = b.(BreakableBlock.outer_finally_)
  /\ b'.(BreakableBlock.context_depth_) = b.(BreakableBlock.context_depth_)
  /\ b'.(BreakableBlock.try_index_) = b.(BreakableBlock.try_index_)
  /\ (BreakableBlock.HadJumper b = true ->
      b'.(BreakableBlock.destination_) = b.(BreakableBlock.destination_)).

(** [evolves s s']: what every builder operation guarantees of the state
    it leaves behind. *)
Record evolves (s s' : FlowGraphBuilder.t) : Prop := {
  evolves_try_catch :
    kept eq s.(FlowGraphBuilder.try_catch_blocks)
      s'.(FlowGraphBuilder.try_catch_blocks);
  evolves_try_finally :
    kept eq s.(FlowGraphBuilder.try_finally_blocks)
      s'.(FlowGraphBuilder.try_finally_blocks);
  evolves_switch :
    kept SwitchBlock_grows s.(FlowGraphBuilder.switch_blocks)
      s'.(FlowGraphBuilder.switch_blocks);
  evolves_breakable :
    kept BreakableBlock_grows s.(FlowGraphBuilder.breakable_blocks)
      s'.(FlowGraphBuilder.breakable_blocks);
  evolves_catch :
    kept eq s.(FlowGraphBuilder.catch_blocks)
      s'.(FlowGraphBuilder.catch_blocks);
  evolves_try_index :
    s'.(FlowGraphBuilder.next_used_try_index_)
      = s.(FlowGraphBuilder.next_used_try_index_)
    \/ s'.(FlowGraphBuilder.next_used_try_index_)
      = IntPtr.add s.(FlowGraphBuilder.next_used_try_index_) 1
}.

(** ** Case counts of a translation *)

(** The case counts of all switch blocks of a store, and of all the
    switches a sequence of operations opens. *)
Definition sum_cases (blocks : list SwitchBlock.t) : Z :=
  foldr (fun b acc => b.(SwitchBlock.case_count_) + acc) 0 blocks.

Definition opened_cases (op : Op) : Z :=
  match op with EnterSwitch n => n | _ => 0 end.

Definition total_cases (ops : list Op) : Z :=
  foldr (fun op acc => opened_cases op + acc) 0 ops.

Definition cases_nonneg (ops : list Op) : Prop :=
  Forall (fun op => 0 <= opened_cases op) ops.

(** ** Bounds the trackers of a translation keep *)

(** The index of a breakable block is at most its address. *)
Definition index_bounded (blocks : list BreakableBlock.t) : Prop :=
  forall a b, blocks !! a = Some b ->
    0 <= b.(BreakableBlock.index_) <= Z.of_nat a.

(** A switch block ends within the cases opened so far. *)
Definition depth_bounded (blocks : list SwitchBlock.t) : Prop :=
  forall a b, blocks !! a = Some b ->
    0 <= b.(SwitchBlock.depth_)
    /\ b.(SwitchBlock.depth_) + b.(SwitchBlock.case_count_)
       <= sum_cases blocks.

(** ** What resolving a jump leaves alone *)

(** [jump_frame s s']: between [s] and [s'] no tracker was entered or left
    and no counter other than the block id moved; at most one join entry
    was built. *)
Definition jump_frame (s s' : FlowGraphBuilder.t) : Prop :=
  s'.(FlowGraphBuilder.try_catch_block_) = s.(FlowGraphBuilder.try_catch_block_)
  /\ s'.(FlowGraphBuilder.try_finally_block_)
     = s.(FlowGraphBuilder.try_finally_block_)
  /\ s'.(FlowGraphBuilder.switch_block_) = s.(FlowGraphBuilder.switch_block_)
  /\ s'.(FlowGraphBuilder.breakable_block_)
     = s.(FlowGraphBuilder.breakable_block_)
  /\ s'.(FlowGraphBuilder.catch_block_) = s.(FlowGraphBuilder.catch_block_)
  /\ s'.(FlowGraphBuilder.next_used_try_index_)
     = s.(FlowGraphBuilder.next_used_try_index_)
  /\ s'.(FlowGraphBuilder.context_depth_) = s.(FlowGraphBuilder.context_depth_)
  /\ s'.(FlowGraphBuilder.try_depth_) = s.(FlowGraphBuilder.try_depth_)
  /\ s'.(FlowGraphBuilder.try_catch_blocks)
     = s.(FlowGraphBuilder.try_catch_blocks)
  /\ s'.(FlowGraphBuilder.try_finally_blocks)
     = s.(FlowGraphBuilder.try_finally_blocks)
  /\ s'.(FlowGraphBuilder.catch_blocks) = s.(FlowGraphBuilder.catch_blocks)
  /\ length s'.(FlowGraphBuilder.switch_blocks)
     = length s.(FlowGraphBuilder.switch_blocks)
  /\ length s'.(FlowGraphBuilder.breakable_blocks)
     = length s.(FlowGraphBuilder.breakable_blocks)
  /\ (s' = s
      \/ s'.(FlowGraphBuilder.last_used_block_id_)
         = IntPtr.add s.(FlowGraphBuilder.last_used_block_id_) 1
         /\ length s'.(FlowGraphBuilder.join_entries)
            = S (length s.(FlowGraphBuilder.join_entries))).

(** ** A sample translation *)

(** A protected region with a finalizer, holding a two-case switch whose
    body has a loop around a three-case switch with a loop of its own. *)
Definition sample_ops : list Op :=
  [EnterTryCatch (-1); EnterTryFinally 40; EnterSwitch 2; EnterBreakable;
   EnterSwitch 3; EnterBreakable].

Definition sample : FlowGraphBuilder.t :=
  Eval vm_compute in
    default (FlowGraphBuilder.init 0)
      (run (-1) sample_ops (FlowGraphBuilder.init 0)).

(** A two-case switch that is left while a protected region, a switch and
    a loop opened inside it are still open. *)
Definition sample_switch : FlowGraphBuilder.t :=
  Eval vm_compute in
    default (FlowGraphBuilder.init 0)
      (snd <$> SwitchBlock_ctor (-1) 2 (FlowGraphBuilder.init 0)).

Definition sample_switch_body : list Op :=
  [EnterTryCatch (-1); EnterSwitch 3; SwitchDestination 1 1 true true;
   EnterBreakable].

Definition sample_switch_exit : FlowGraphBuilder.t :=
  Eval vm_compute in
    default (FlowGraphBuilder.init 0)
      (run (-1) sample_switch_body sample_switch).

(** What goes on inside a region that is left early: the context depth
    moves and a tracker of every kind is entered and still open. *)
Definition sample_body : list Op :=
  [SetContextDepth 3; EnterTryCatch (-1); EnterSwitch 2; EnterBreakable;
   EnterCatch NULL NULL 0; EnterTryFinally 7].

(** * Properties *)

(** ** Machine integers *)

Lemma wrap_in_range z : IntPtr.in_range z -> IntPtr.wrap z = z.
Proof.
  unfold IntPtr.in_range, IntPtr.wrap, IntPtr.min, IntPtr.max.
  intros Hz. rewrite Z.mod_small; lia.
Qed.

Lemma wrap_range z : IntPtr.in_range (IntPtr.wrap z).
Proof.
  unfold IntPtr.in_range, IntPtr.wrap, IntPtr.min, IntPtr.max.
  pose proof (Z.mod_pos_bound (z - - 2 ^ 63) (2 ^ 64)). lia.
Qed.

Lemma is_null_true (p : ptr) : is_null p = true <-> p = NULL.
Proof. destruct p; simpl; split; congruence. Qed.

Lemma is_null_false (p : ptr) : is_null p = false <-> p <> NULL.
Proof. destruct p; simpl; split; congruence. Qed.

(** ** Fragments *)

(** C7: a fragment is open exactly when it has no entry or its current
    exit is non-null, [is_closed] is the negation of [is_open], and a
    fragment with an entry and a null current exit is closed. *)
Theorem Fragment_is_open_iff (f : Fragment.t) :
  (Fragment.is_open f = true <->
     f.(Fragment.entry) = NULL \/ f.(Fragment.current) <> NULL)
  /\ Fragment.is_closed f = negb (Fragment.is_open f)
  /\ (f.(Fragment.entry) <> NULL -> f.(Fragment.current) = NULL ->
      Fragment.is_closed f = true /\ Fragment.is_open f = false).
Proof.
  destruct f as [[e|] [c|]]; unfold Fragment.is_closed, Fragment.is_open;
    simpl; repeat split; try tauto; try congruence;
    try (intros _; (left; reflexivity) || (right; congruence));
    intros [H | H]; congruence.
Qed.

Lemma Fragment_is_open_iff_witness :
  Fragment.is_closed (Fragment.mk (Some 4%nat) NULL) = true
  /\ Fragment.is_open (Fragment.mk (Some 4%nat) NULL) = false.
Proof.
  apply (Fragment_is_open_iff (Fragment.mk (Some 4%nat) NULL));
    simpl; congruence.
Defined.

Lemma closed_is_closed f :
  f.(Fragment.entry) <> NULL -> Fragment.is_closed (Fragment.closed f) = true.
Proof. destruct f as [[e|] c]; simpl; [reflexivity | congruence]. Qed.

Example concatenate_open_links :
  Fragment.concatenate (Fragment.mk (Some 1%nat) (Some 2%nat))
    (Fragment.mk (Some 5%nat) (Some 6%nat)) ∅
  = (Fragment.mk (Some 1%nat) (Some 6%nat), {[ 2%nat := 5%nat ]}).
Proof. reflexivity. Qed.

(** C1: a closed fragment absorbs any right operand: the concatenation is
    the left operand itself, and the instruction graph keeps its edges and
    therefore its reachable instructions. *)
Theorem concatenate_closed_absorbs (a b : Fragment.t) (g : gmap nat nat) :
  Fragment.is_closed a = true ->
  Fragment.concatenate a b g = (a, g)
  /\ (forall n m,
        Fragment.linked (Fragment.concatenate a b g).2 n m
        <-> Fragment.linked g n m)
  /\ (forall n m,
        Fragment.reachable (Fragment.concatenate a b g).2 n m
        <-> Fragment.reachable g n m).
Proof.
  intros Ha.
  assert (Fragment.concatenate a b g = (a, g)) as E.
  { unfold Fragment.concatenate. rewrite Ha. reflexivity. }
  rewrite E. simpl. split; [reflexivity |]. split; intros n m; reflexivity.
Qed.

Lemma concatenate_closed_absorbs_witness :
  Fragment.concatenate (Fragment.mk (Some 1%nat) NULL)
    (Fragment.mk (Some 5%nat) (Some 6%nat)) {[ 1%nat := 3%nat ]}
  = (Fragment.mk (Some 1%nat) NULL, {[ 1%nat := 3%nat ]}).
Proof.
  apply (concatenate_closed_absorbs (Fragment.mk (Some 1%nat) NULL)).
  reflexivity.
Defined.

(** An open fragment, by contrast, is wired to its right operand. *)
Lemma concatenate_open_wires e exit next (b : Fragment.t) (g : gmap nat nat) :
  b.(Fragment.entry) = Some next ->
  Fragment.concatenate (Fragment.mk (Some e) (Some exit)) b g
  = (Fragment.mk (Some e) b.(Fragment.current), <[exit := next]> g).
Proof.
  intros Hb. unfold Fragment.concatenate. simpl. rewrite Hb. reflexivity.
Qed.

(** ** Hash-map wrappers *)

Lemma chained_lookup_absent {K V} (T : KeyValueTrait K V) (k : K) m :
  Forall (fun kv => IsKeyEqual kv k = false) m ->
  DirectChainedHashMap.Lookup T k m = None.
Proof.
  unfold DirectChainedHashMap.Lookup.
  induction 1 as [| kv m Hkv _ IH]; simpl; [reflexivity |].
  rewrite Hkv. exact IH.
Qed.

Lemma raw_inserts_absent {V} (kvs : list (nat * V)) (k : nat) :
  k ∉ kvs.*1 ->
  Forall (fun kv => @IsKeyEqual _ _ (RawPointerKeyValueTrait V) kv k = false)
    (Map_of_inserts kvs).
Proof.
  induction kvs as [| [k' v] kvs IH]; simpl; intros Hk; [constructor |].
  apply not_elem_of_cons in Hk as [Hne Hk].
  constructor; [| exact (IH Hk)].
  simpl. apply Nat.eqb_neq. congruence.
Qed.

Lemma int_inserts_absent {V} (kvs : list (Z * V)) (k : Z) :
  k ∉ kvs.*1 ->
  Forall (fun kv => @IsKeyEqual _ _ (IntKeyRawPointerValueTrait V) kv k = false)
    (IntMap_of_inserts kvs).
Proof.
  induction kvs as [| [k' v] kvs IH]; simpl; intros Hk; [constructor |].
  apply not_elem_of_cons in Hk as [Hne Hk].
  constructor; [| exact (IH Hk)].
  simpl. apply Z.eqb_neq. congruence.
Qed.

(** C10: in each of [Map], [IntMap] and [MallocMap], looking up a key that
    was never inserted gives the default-constructed value, and
    [LookupPair] gives null. *)
Theorem Lookup_never_inserted :
  (forall V (D : DefaultConstructible V) (kvs : list (nat * V)) (k : nat),
      k ∉ kvs.*1 ->
      Map.Lookup k (Map_of_inserts kvs) = default_value
      /\ Map.LookupPair k (Map_of_inserts kvs) = None)
  /\ (forall V (D : DefaultConstructible V) (kvs : list (Z * V)) (k : Z),
      k ∉ kvs.*1 ->
      IntMap.Lookup k (IntMap_of_inserts kvs) = default_value
      /\ IntMap.LookupPair k (IntMap_of_inserts kvs) = None)
  /\ (forall V (D : DefaultConstructible V) (kvs : list (nat * V)) (k : nat),
      k ∉ kvs.*1 ->
      MallocMap.Lookup k (MallocMap_of_inserts kvs) = default_value
      /\ MallocMap.LookupPair k (MallocMap_of_inserts kvs) = None).
Proof.
  split; [| split]; intros V D kvs k Hk.
  - unfold Map.Lookup, Map.LookupPair.
    rewrite (chained_lookup_absent _ _ _ (raw_inserts_absent kvs k Hk)).
    split; reflexivity.
  - unfold IntMap.Lookup, IntMap.LookupPair.
    rewrite (chained_lookup_absent _ _ _ (int_inserts_absent kvs k Hk)).
    split; reflexivity.
  - unfold MallocMap.Lookup, MallocMap.LookupPair,
      MallocDirectChainedHashMap.Lookup.
    pose proof (chained_lookup_absent _ _ _ (raw_inserts_absent kvs k Hk)) as E.
    change (Map_of_inserts kvs) with (MallocMap_of_inserts kvs) in E.
    rewrite E.
    split; reflexivity.
Qed.

Lemma Lookup_never_inserted_witness :
  (Map.Lookup 3%nat
     (Map_of_inserts [(1%nat, Some 10%nat); (2%nat, Some 20%nat)]) = NULL
   /\ Map.LookupPair 3%nat
        (Map_of_inserts [(1%nat, Some 10%nat); (2%nat, Some 20%nat)]) = None)
  /\ (IntMap.Lookup 7 (IntMap_of_inserts [(0, Some 10%nat); (4, Some 20%nat)])
        = NULL
      /\ IntMap.LookupPair 7
           (IntMap_of_inserts [(0, Some 10%nat); (4, Some 20%nat)]) = None)
  /\ (MallocMap.Lookup 3%nat (MallocMap_of_inserts [(1%nat, 5); (2%nat, 6)]) = 0
      /\ MallocMap.LookupPair 3%nat
           (MallocMap_of_inserts [(1%nat, 5); (2%nat, 6)]) = None).
Proof.
  destruct Lookup_never_inserted as (HMap & HInt & HMalloc).
  split; [| split].
  - apply (HMap _ ptr_default [(1%nat, Some 10%nat); (2%nat, Some 20%nat)]).
    apply (bool_decide_unpack _). vm_compute. exact I.
  - apply (HInt _ ptr_default [(0, Some 10%nat); (4, Some 20%nat)]).
    apply (bool_decide_unpack _). vm_compute. exact I.
  - apply (HMalloc _ intptr_default [(1%nat, 5); (2%nat, 6)]).
    apply (bool_decide_unpack _). vm_compute. exact I.
Defined.

(** ** Active-class scope guards *)

Lemma restore_whole_store (p : nat) (ac : ActiveClass.t)
    (store store2 : gmap nat ActiveClass.t) :
  store !! p = Some ac ->
  (forall q, q <> p -> store2 !! q = store !! q) ->
  <[p := ac]> store2 = store.
Proof.
  intros Hp Hframe. apply map_eq. intros q.
  destruct (decide (q = p)) as [-> | Hne].
  - rewrite lookup_insert_eq. symmetry. exact Hp.
  - rewrite lookup_insert_ne by congruence. apply Hframe, Hne.
Qed.

(** C9: both scope guards save the whole active class when constructed and
    write it back when destroyed, whatever happened to it in between; while
    alive [ActiveClassScope] has changed only [klass] and
    [ActiveMemberScope] only [member], and no other active class is
    touched. *)
Theorem ActiveClass_scopes_save_restore (p : nat) (ac : ActiveClass.t)
    (store : gmap nat ActiveClass.t) :
  store !! p = Some ac ->
  (forall klass, exists g store1,
      ActiveClassScope.ctor p klass store = Some (g, store1)
      /\ g.(ActiveClassScope.saved_) = ac
      /\ store1 !! p =
           Some (ActiveClass.mk klass ac.(ActiveClass.member)
                   ac.(ActiveClass.enclosing)
                   ac.(ActiveClass.local_type_parameters))
      /\ (forall q, q <> p -> store1 !! q = store !! q)
      /\ (forall store2,
            ActiveClassScope.dtor g store2 !! p = Some ac
            /\ (forall q, q <> p ->
                  ActiveClassScope.dtor g store2 !! q = store2 !! q)
            /\ ((forall q, q <> p -> store2 !! q = store !! q) ->
                ActiveClassScope.dtor g store2 = store)))
  /\ (forall member, exists g store1,
      ActiveMemberScope.ctor p member store = Some (g, store1)
      /\ g.(ActiveMemberScope.saved_) = ac
      /\ store1 !! p =
           Some (ActiveClass.mk ac.(ActiveClass.klass) member
                   ac.(ActiveClass.enclosing)
                   ac.(ActiveClass.local_type_parameters))
      /\ (forall q, q <> p -> store1 !! q = store !! q)
      /\ (forall store2,
            ActiveMemberScope.dtor g store2 !! p = Some ac
            /\ (forall q, q <> p ->
                  ActiveMemberScope.dtor g store2 !! q = store2 !! q)
            /\ ((forall q, q <> p -> store2 !! q = store !! q) ->
                ActiveMemberScope.dtor g store2 = store))).
Proof.
  intros Hp. split.
  - intros klass. unfold ActiveClassScope.ctor. rewrite Hp. simpl.
    eexists _, _. split; [reflexivity |]. simpl.
    split; [reflexivity |]. split; [apply lookup_insert_eq |].
    split; [intros q Hq; apply lookup_insert_ne; congruence |].
    intros store2. unfold ActiveClassScope.dtor. simpl.
    split; [apply lookup_insert_eq |].
    split; [intros q Hq; apply lookup_insert_ne; congruence |].
    apply restore_whole_store, Hp.
  - intros member. unfold ActiveMemberScope.ctor. rewrite Hp. simpl.
    eexists _, _. split; [reflexivity |]. simpl.
    split; [reflexivity |]. split; [apply lookup_insert_eq |].
    split; [intros q Hq; apply lookup_insert_ne; congruence |].
    intros store2. unfold ActiveMemberScope.dtor. simpl.
    split; [apply lookup_insert_eq |].
    split; [intros q Hq; apply lookup_insert_ne; congruence |].
    apply restore_whole_store, Hp.
Qed.

Lemma ActiveClass_scopes_save_restore_witness :
  exists g store1,
    ActiveClassScope.ctor 0%nat (Some 9%nat)
      {[ 0%nat := ActiveClass.mk (Some 1%nat) (Some 2%nat) NULL NULL ]}
    = Some (g, store1)
    /\ store1 !! 0%nat
       = Some (ActiveClass.mk (Some 9%nat) (Some 2%nat) NULL NULL)
    /\ ActiveClassScope.dtor g (<[0%nat := ActiveClass.init]> store1)
       = {[ 0%nat := ActiveClass.mk (Some 1%nat) (Some 2%nat) NULL NULL ]}.
Proof.
  assert (Hp0 : ({[ 0%nat := ActiveClass.mk (Some 1%nat) (Some 2%nat)
                                   NULL NULL ]} : gmap nat ActiveClass.t)
                  !! 0%nat
                = Some (ActiveClass.mk (Some 1%nat) (Some 2%nat) NULL NULL))
    by (vm_compute; reflexivity).
  destruct (ActiveClass_scopes_save_restore _ _ _ Hp0) as [Hk _].
  destruct (Hk (Some 9%nat)) as (g & store1 & Hc & _ & Hp & Hq & Hd).
  exists g, store1. split; [exact Hc |]. split; [exact Hp |].
  apply Hd. intros q Hne. rewrite lookup_insert_ne by congruence.
  apply Hq, Hne.
Defined.

(** ** Finally regions *)

Lemma TryFinallyBlock_ctor_inv kInv off s this s' :
  TryFinallyBlock_ctor kInv off s = Some (this, s') ->
  exists try_index,
    FlowGraphBuilder.CurrentTryIndex kInv s = Some try_index
    /\ this = length s.(FlowGraphBuilder.try_finally_blocks)
    /\ s'.(FlowGraphBuilder.try_finally_block_) = Some this
    /\ s'.(FlowGraphBuilder.try_finally_blocks)
       = s.(FlowGraphBuilder.try_finally_blocks)
           ++ [TryFinallyBlock.mk s.(FlowGraphBuilder.try_finally_block_) off
                 s.(FlowGraphBuilder.context_depth_)
                 (IntPtr.sub s.(FlowGraphBuilder.try_depth_) 1) try_index].
Proof.
  unfold TryFinallyBlock_ctor. intros H.
  destruct (FlowGraphBuilder.CurrentTryIndex kInv s) as [ti|]; [| discriminate].
  simpl in H. inversion H; subst. exists ti. repeat split.
Qed.

(** C2, as the code has it: a finally region records the finalizer's tree
    offset and the context depth in effect at its start, and ONE LESS than
    the try depth in effect at its start; the accessors return those
    recorded values. *)
Theorem TryFinallyBlock_records kInv off s this s' :
  TryFinallyBlock_ctor kInv off s = Some (this, s') ->
  exists self,
    s'.(FlowGraphBuilder.try_finally_blocks) !! this = Some self
    /\ TryFinallyBlock.finalizer_kernel_offset self = off
    /\ TryFinallyBlock.context_depth self = s.(FlowGraphBuilder.context_depth_)
    /\ TryFinallyBlock.try_depth self
       = IntPtr.sub s.(FlowGraphBuilder.try_depth_) 1
    /\ (IntPtr.min < s.(FlowGraphBuilder.try_depth_) <= IntPtr.max ->
        TryFinallyBlock.try_depth self = s.(FlowGraphBuilder.try_depth_) - 1).
Proof.
  intros H. apply TryFinallyBlock_ctor_inv in H as (ti & _ & -> & _ & Hst).
  eexists. rewrite Hst. split.
  - rewrite lookup_app_r by lia. rewrite Nat.sub_diag. reflexivity.
  - simpl. repeat split. intros Hr. unfold IntPtr.sub.
    apply wrap_in_range. unfold IntPtr.in_range, IntPtr.min, IntPtr.max in *.
    lia.
Qed.

Lemma TryFinallyBlock_records_witness :
  exists s' self,
    TryFinallyBlock_ctor (-1) 40
      (FlowGraphBuilder.set_try_depth_ 2 (FlowGraphBuilder.init 0))
    = Some (0%nat, s')
    /\ s'.(FlowGraphBuilder.try_finally_blocks) !! 0%nat = Some self
    /\ TryFinallyBlock.finalizer_kernel_offset self = 40
    /\ TryFinallyBlock.context_depth self = 0
    /\ TryFinallyBlock.try_depth self = 1.
Proof.
  eexists. 
  destruct (TryFinallyBlock_records (-1) 40
              (FlowGraphBuilder.set_try_depth_ 2 (FlowGraphBuilder.init 0))
              0%nat _ eq_refl) as (self & Hl & Ho & Hc & _ & Ht).
  exists self. split; [reflexivity |]. split; [exact Hl |].
  split; [exact Ho |]. split; [exact Hc |].
  apply Ht. vm_compute. split; congruence.
Defined.

(** C2 as stated fails: the recorded try depth is not the try depth in
    effect at construction. *)
Lemma TryFinallyBlock_try_depth_counterexample :
  ~ (forall kInv off s this s' self,
        TryFinallyBlock_ctor kInv off s = Some (this, s') ->
        s'.(FlowGraphBuilder.try_finally_blocks) !! this = Some self ->
        TryFinallyBlock.finalizer_kernel_offset self = off
        /\ TryFinallyBlock.context_depth self
           = s.(FlowGraphBuilder.context_depth_)
        /\ TryFinallyBlock.try_depth self = s.(FlowGraphBuilder.try_depth_)).
Proof.
  intros H.
  specialize (H (-1) 40
                (FlowGraphBuilder.set_try_depth_ 2 (FlowGraphBuilder.init 0))
                0%nat _ _ eq_refl eq_refl).
  destruct H as (_ & _ & H). vm_compute in H. discriminate H.
Qed.

(** ** Walking a chain of trackers *)

Section WalkFacts.
Context {A : Type} (outer : A -> ptr) (continue : A -> bool).

Lemma walk_outward_stops store block r :
  chain_ok outer store ->
  stops_at outer continue store block r ->
  forall fuel a, block = Some a -> (a < fuel)%nat ->
  walk_outward outer continue fuel store block = Some r.
Proof.
  intros Hok Hs.
  induction Hs as [a b Ha Hc | a b r Ha Hc Hs IH];
    intros fuel a' [= <-] Hlt; (destruct fuel as [| fuel]; [lia |]);
    simpl; rewrite Ha; simpl; rewrite Hc; [reflexivity |].
  destruct (outer b) as [o |] eqn:Ho; [| inversion Hs].
  apply (IH fuel o eq_refl). specialize (Hok a b o Ha Ho). lia.
Qed.

Lemma walk_from_stops store block r :
  chain_ok outer store ->
  stops_at outer continue store block r ->
  walk_from outer continue store block = Some r.
Proof.
  intros Hok Hs. unfold walk_from.
  destruct block as [a |]; [| inversion Hs]. simpl.
  apply (walk_outward_stops store (Some a) r Hok Hs (S a) a eq_refl). lia.
Qed.

Lemma walk_outward_sound store fuel block r :
  walk_outward outer continue fuel store block = Some r ->
  stops_at outer continue store block r.
Proof.
  revert block. induction fuel as [| fuel IH]; intros block; simpl;
    [discriminate |].
  destruct block as [a |]; simpl; [| discriminate].
  destruct (store !! a) as [b |] eqn:Ha; simpl; [| discriminate].
  destruct (continue b) eqn:Hc.
  - intros H. eapply stops_outer; eauto.
  - intros [= <-]. eapply stops_here; eauto.
Qed.

Lemma stops_at_block store block r :
  stops_at outer continue store block r ->
  exists b, store !! r = Some b /\ continue b = false.
Proof. induction 1; eauto. Qed.

Lemma stops_at_encloses store block r :
  stops_at outer continue store block r -> encloses outer store block r.
Proof.
  induction 1; [eapply encloses_self | eapply encloses_outer]; eauto.
Qed.

Lemma stops_at_unique store block r r' :
  stops_at outer continue store block r ->
  stops_at outer continue store block r' -> r = r'.
Proof.
  induction 1 as [a b Ha Hc | a b r Ha Hc Hs IH]; inversion 1; subst;
    try reflexivity; try congruence.
  apply IH. congruence.
Qed.

(** Some enclosing tracker stops the walk: then the walk stops, at the
    first such tracker. *)
Lemma encloses_stops store block r b :
  encloses outer store block r ->
  store !! r = Some b -> continue b = false ->
  exists r', stops_at outer continue store block r'.
Proof.
  induction 1 as [a b' Ha | a b' r Ha He IH]; intros Hr Hc.
  - exists a. eapply stops_here; eauto.
  - destruct (continue b') eqn:Hc'.
    + destruct (IH Hr Hc) as [r' Hs]. exists r'.
      eapply stops_outer; eauto.
    + exists a. eapply stops_here; eauto.
Qed.

(** The walk only reads [outer_] and the fields [continue] looks at. *)
Lemma stops_at_ext store store' block r :
  (forall a b, store !! a = Some b ->
     exists b', store' !! a = Some b'
                /\ outer b' = outer b /\ continue b' = continue b) ->
  stops_at outer continue store block r ->
  stops_at outer continue store' block r.
Proof.
  intros Hext. induction 1 as [a b Ha Hc | a b r Ha Hc Hs IH];
    destruct (Hext a b Ha) as (b' & Ha' & Ho & Hc').
  - eapply stops_here; eauto; congruence.
  - eapply stops_outer; eauto; congruence.
Qed.

Lemma chain_ok_ext store store' :
  (forall a b', store' !! a = Some b' ->
     exists b, store !! a = Some b /\ outer b' = outer b) ->
  chain_ok outer store -> chain_ok outer store'.
Proof.
  intros Hext Hok a b' o Ha Ho.
  destruct (Hext a b' Ha) as (b & Hb & Hout).
  apply (Hok a b o Hb). congruence.
Qed.

Lemma chain_ok_snoc store b :
  chain_ok outer store ->
  (forall o, outer b = Some o -> (o < length store)%nat) ->
  chain_ok outer (store ++ [b]).
Proof.
  intros Hok Hb a b' o Ha Ho.
  destruct (decide (a < length store)%nat) as [Hlt | Hge].
  - rewrite lookup_app_l in Ha by exact Hlt. eapply Hok; eauto.
  - rewrite lookup_app_r in Ha by lia.
    destruct (a - length store)%nat as [| n] eqn:Hn; simpl in Ha;
      [| destruct n; discriminate].
    injection Ha as <-. specialize (Hb o Ho). lia.
Qed.
End WalkFacts.

(** ** Switch regions *)

Lemma IntMap_Lookup_Insert_eq {V} `{DefaultConstructible V} k (v : V) m :
  IntMap.Lookup k (IntMap.Insert k v m) = v.
Proof.
  unfold IntMap.Lookup, IntMap.Insert, DirectChainedHashMap.Lookup,
    DirectChainedHashMap.Insert. simpl. rewrite Z.eqb_refl. reflexivity.
Qed.

Lemma IntMap_Lookup_Insert_ne {V} `{DefaultConstructible V} k k' (v : V) m :
  k <> k' -> IntMap.Lookup k' (IntMap.Insert k v m) = IntMap.Lookup k' m.
Proof.
  intros Hne.
  unfold IntMap.Lookup, IntMap.Insert, DirectChainedHashMap.Lookup,
    DirectChainedHashMap.Insert. simpl.
  destruct (Z.eqb_spec k k'); [contradiction | reflexivity].
Qed.

Lemma IntMap_Lookup_empty {V} `{DefaultConstructible V} k :
  IntMap.Lookup k (IntMap.empty (V:=V)) = default_value.
Proof. reflexivity. Qed.

Lemma set_destinations_same self :
  SwitchBlock.set_destinations_ self.(SwitchBlock.destinations_) self = self.
Proof. destruct self; reflexivity. Qed.

(** What [EnsureDestination] does to the block it is called on: only the
    entry of [case_num] in its destination map can change, a join entry is
    built exactly when there was none, and asking again changes nothing. *)
Lemma SwitchBlock_EnsureDestination_spec a c s self :
  s.(FlowGraphBuilder.switch_blocks) !! a = Some self ->
  exists inst s' d',
    SwitchBlock_EnsureDestination a c s = Some (inst, s')
    /\ inst <> NULL
    /\ (SwitchBlock.HadJumper self c = true ->
        inst = IntMap.Lookup c self.(SwitchBlock.destinations_) /\ s' = s)
    /\ (SwitchBlock.HadJumper self c = false ->
        inst = Some (length s.(FlowGraphBuilder.join_entries))
        /\ s'.(FlowGraphBuilder.join_entries)
           = s.(FlowGraphBuilder.join_entries)
               ++ [mkJoin
                     (IntPtr.add s.(FlowGraphBuilder.last_used_block_id_) 1)
                     self.(SwitchBlock.try_index_)])
    /\ s'.(FlowGraphBuilder.switch_blocks)
       = <[a := SwitchBlock.set_destinations_ d' self]>
           s.(FlowGraphBuilder.switch_blocks)
    /\ IntMap.Lookup c d' = inst
    /\ (forall c', c' <> c ->
          IntMap.Lookup c' d'
          = IntMap.Lookup c' self.(SwitchBlock.destinations_))
    /\ SwitchBlock_EnsureDestination a c s' = Some (inst, s').
Proof.
  intros Ha. unfold SwitchBlock_EnsureDestination at 1. rewrite Ha. simpl.
  pose proof (lookup_lt_Some _ _ _ Ha) as Hlt.
  destruct (IntMap.Lookup c (SwitchBlock.destinations_ self)) as [j |] eqn:Hj;
    simpl.
  - exists (Some j), s, self.(SwitchBlock.destinations_).
    unfold SwitchBlock.HadJumper. rewrite Hj. simpl.
    repeat split; try congruence.
    + rewrite set_destinations_same, list_insert_id; auto.
    + unfold SwitchBlock_EnsureDestination. rewrite Ha. simpl.
      rewrite Hj. reflexivity.
  - eexists _, _,
      (IntMap.Insert c (Some (length s.(FlowGraphBuilder.join_entries)))
         self.(SwitchBlock.destinations_)).
    unfold SwitchBlock.HadJumper. rewrite Hj. simpl.
    split; [reflexivity |]. split; [congruence |].
    split; [discriminate |]. split; [intros _; split; reflexivity |].
    split; [reflexivity |].
    split; [apply IntMap_Lookup_Insert_eq |].
    split; [intros c' Hc'; apply IntMap_Lookup_Insert_ne; congruence |].
    unfold SwitchBlock_EnsureDestination. simpl.
    rewrite list_lookup_insert_eq by exact Hlt. simpl.
    rewrite IntMap_Lookup_Insert_eq. reflexivity.
Qed.

Lemma contiguous_inner_depth blocks block r region :
  chain_ok SwitchBlock.outer_ blocks -> contiguous blocks ->
  encloses SwitchBlock.outer_ blocks block r ->
  blocks !! r = Some region ->
  forall a b, block = Some a -> blocks !! a = Some b -> a <> r ->
  region.(SwitchBlock.depth_) + region.(SwitchBlock.case_count_)
  <= b.(SwitchBlock.depth_).
Proof.
  intros Hok Hcont He Hr.
  induction He as [a b' Ha | a b' r Ha He IH]; intros a' b [= <-] Hb Hne;
    [contradiction |].
  assert (b' = b) as -> by congruence.
  destruct (Hcont a b Hb) as [_ Hd].
  destruct (SwitchBlock.outer_ b) as [o |] eqn:Ho; [| inversion He].
  destruct Hd as (ob & Hob & ->).
  destruct (decide (o = r)) as [-> | Hor].
  - assert (ob = region) as -> by congruence. lia.
  - specialize (IH Hr o ob eq_refl Hob Hor).
    destruct (Hcont o ob Hob) as [Hcc _]. lia.
Qed.

(** With contiguous depths, the walk of [Destination] stops at the region
    whose range of case numbers contains the target. *)
Lemma contiguous_stops_at_region blocks block r region N :
  chain_ok SwitchBlock.outer_ blocks -> contiguous blocks ->
  encloses SwitchBlock.outer_ blocks block r ->
  blocks !! r = Some region ->
  region.(SwitchBlock.depth_) <= N
    < region.(SwitchBlock.depth_) + region.(SwitchBlock.case_count_) ->
  stops_at SwitchBlock.outer_ (fun b => b.(SwitchBlock.depth_) >? N)
    blocks block r.
Proof.
  intros Hok Hcont He Hr HN.
  pose proof (contiguous_inner_depth blocks block r region Hok Hcont He Hr)
    as Hinner.
  induction He as [a b' Ha | a b' r Ha He IH].
  - eapply stops_here; eauto. assert (b' = region) as -> by congruence.
    rewrite Z.gtb_ltb; apply Z.ltb_ge. lia.
  - destruct (decide (a = r)) as [-> | Hne].
    + eapply stops_here; eauto. assert (b' = region) as -> by congruence.
      rewrite Z.gtb_ltb; apply Z.ltb_ge. lia.
    + eapply stops_outer; eauto.
      * specialize (Hinner a b' eq_refl Ha Hne).
        rewrite Z.gtb_ltb; apply Z.ltb_lt. lia.
      * apply IH; [exact Hr |].
        apply (contiguous_inner_depth blocks _ r region Hok Hcont He Hr).
Qed.

(** ** What builder operations leave untouched *)

Section Kept.
Context {A : Type} (R : A -> A -> Prop) `{!Reflexive R, !Transitive R}.

Lemma kept_refl store : kept R store store.
Proof. intros a b Ha. exists b. split; [exact Ha | reflexivity]. Qed.

Lemma kept_trans s1 s2 s3 : kept R s1 s2 -> kept R s2 s3 -> kept R s1 s3.
Proof.
  intros H12 H23 a b Ha.
  destruct (H12 a b Ha) as (b2 & Hb2 & Ho2).
  destruct (H23 a b2 Hb2) as (b3 & Hb3 & Ho3).
  exists b3. split; [exact Hb3 | etransitivity; eassumption].
Qed.

Lemma kept_snoc store x : kept R store (store ++ [x]).
Proof.
  intros a b Ha. exists b. split; [| reflexivity].
  rewrite lookup_app_l; [exact Ha |]. eapply lookup_lt_Some, Ha.
Qed.

Lemma kept_insert store i x y :
  store !! i = Some x -> R x y -> kept R store (<[i := y]> store).
Proof.
  intros Hi Ho a b Ha. destruct (decide (a = i)) as [-> | Hne].
  - exists y. split; [| congruence].
    apply list_lookup_insert_eq. eapply lookup_lt_Some, Hi.
  - exists b. split; [| reflexivity].
    rewrite list_lookup_insert_ne by congruence. exact Ha.
Qed.
End Kept.

#[local] Instance SwitchBlock_grows_refl : Reflexive SwitchBlock_grows.
Proof. intros b. unfold SwitchBlock_grows. tauto. Qed.

#[local] Instance SwitchBlock_grows_trans : Transitive SwitchBlock_grows.
Proof.
  intros b1 b2 b3 (H1 & H2 & H3 & H4 & H5 & H6 & H7)
    (K1 & K2 & K3 & K4 & K5 & K6 & K7).
  unfold SwitchBlock_grows. repeat split; try congruence.
  intros c Hc. rewrite <- (H7 c Hc). apply K7.
  unfold SwitchBlock.HadJumper in *. rewrite (H7 c Hc). exact Hc.
Qed.

#[local] Instance BreakableBlock_grows_refl : Reflexive BreakableBlock_grows.
Proof. intros b. unfold BreakableBlock_grows. tauto. Qed.

#[local] Instance BreakableBlock_grows_trans : Transitive BreakableBlock_grows.
Proof.
  intros b1 b2 b3 (H1 & H2 & H3 & H4 & H5 & H6) (K1 & K2 & K3 & K4 & K5 & K6).
  unfold BreakableBlock_grows. repeat split; try congruence.
  intros Hc. rewrite <- (H6 Hc). apply K6.
  unfold BreakableBlock.HadJumper in *. rewrite (H6 Hc). exact Hc.
Qed.

Create HintDb trackers.
Ltac solve_kept :=
  first [apply kept_refl | apply kept_snoc]; typeclasses eauto.
#[local] Hint Extern 1 (kept _ _ _) => solve_kept : trackers.

Lemma evolves_refl s : evolves s s.
Proof. constructor; auto with trackers. Qed.

Lemma TryCatchBlock_ctor_evolves i s : evolves s (TryCatchBlock_ctor i s).2.
Proof.
  unfold TryCatchBlock_ctor, FlowGraphBuilder.AllocateTryIndex.
  destruct s; destruct (i =? -1); constructor; simpl; auto with trackers.
Qed.

Lemma CatchBlock_ctor_evolves e t i s : evolves s (CatchBlock_ctor e t i s).2.
Proof.
  unfold CatchBlock_ctor. destruct s; constructor; simpl; auto with trackers.
Qed.

Ltac unfold_trackers :=
  unfold TryFinallyBlock_ctor, SwitchBlock_ctor, BreakableBlock_ctor,
    TryCatchBlock_dtor, TryFinallyBlock_dtor, SwitchBlock_dtor,
    BreakableBlock_dtor, CatchBlock_dtor, FlowGraphBuilder.CurrentTryIndex,
    FlowGraphBuilder.BuildJoinEntry, FlowGraphBuilder.AllocateBlockId,
    FlowGraphBuilder.AllocateTryIndex in *.

Ltac solve_evolves s :=
  unfold_trackers; destruct s; simpl in *; repeat case_match;
  simplify_option_eq; constructor; simpl; auto with trackers.

Lemma TryFinallyBlock_ctor_evolves kInv off s this s' :
  TryFinallyBlock_ctor kInv off s = Some (this, s') -> evolves s s'.
Proof. intros H. solve_evolves s. Qed.

Lemma SwitchBlock_ctor_evolves kInv n s this s' :
  SwitchBlock_ctor kInv n s = Some (this, s') -> evolves s s'.
Proof. intros H. solve_evolves s. Qed.

Lemma BreakableBlock_ctor_evolves kInv s this s' :
  BreakableBlock_ctor kInv s = Some (this, s') -> evolves s s'.
Proof. intros H. solve_evolves s. Qed.

Lemma dtor_evolves this s s' :
  TryCatchBlock_dtor this s = Some s' \/ TryFinallyBlock_dtor this s = Some s'
  \/ SwitchBlock_dtor this s = Some s' \/ BreakableBlock_dtor this s = Some s'
  \/ CatchBlock_dtor this s = Some s' ->
  evolves s s'.
Proof. intros [H | [H | [H | [H | H]]]]; solve_evolves s. Qed.

Lemma chain_ok_insert {A} (outer : A -> ptr) store i x y :
  store !! i = Some x -> outer y = outer x ->
  chain_ok outer store -> chain_ok outer (<[i := y]> store).
Proof.
  intros Hi Ho. apply chain_ok_ext. intros a b' Ha.
  destruct (decide (a = i)) as [-> | Hne].
  - rewrite list_lookup_insert_eq in Ha by (eapply lookup_lt_Some, Hi).
    exists x. split; [exact Hi | congruence].
  - rewrite list_lookup_insert_ne in Ha by congruence. eauto.
Qed.

(** The states [EnsureDestination] can leave behind. *)
Lemma SwitchBlock_EnsureDestination_inv a c s inst s' :
  SwitchBlock_EnsureDestination a c s = Some (inst, s') ->
  exists self,
    s.(FlowGraphBuilder.switch_blocks) !! a = Some self
    /\ (s' = s
        \/ SwitchBlock.HadJumper self c = false
           /\ s' = FlowGraphBuilder.set_switch_blocks
                    (<[a := SwitchBlock.set_destinations_
                              (IntMap.Insert c
                                 (Some (length
                                          s.(FlowGraphBuilder.join_entries)))
                                 self.(SwitchBlock.destinations_)) self]>
                       s.(FlowGraphBuilder.switch_blocks))
                    (FlowGraphBuilder.BuildJoinEntry
                       self.(SwitchBlock.try_index_) s).2).
Proof.
  unfold SwitchBlock_EnsureDestination. intros H.
  destruct (FlowGraphBuilder.switch_blocks s !! a) as [self |] eqn:Ha;
    simpl in H; [| discriminate].
  exists self. split; [reflexivity |]. unfold SwitchBlock.HadJumper.
  destruct (is_null _); [| left; congruence].
  right. destruct (FlowGraphBuilder.BuildJoinEntry _ s) as [i s1] eqn:Hb.
  unfold FlowGraphBuilder.BuildJoinEntry, FlowGraphBuilder.AllocateBlockId
    in Hb. simpl in *. simplify_eq. split; reflexivity.
Qed.

Lemma SwitchBlock_Destination_inv this N f d s inst outs s' :
  SwitchBlock_Destination this N f d s = Some (inst, outs, s')
  \/ SwitchBlock_DestinationDirect this N f d s = Some (inst, outs, s') ->
  exists a c, SwitchBlock_EnsureDestination a c s = Some (inst, s').
Proof.
  unfold SwitchBlock_Destination, SwitchBlock_DestinationDirect.
  intros [H | H]; simplify_option_eq;
    match goal with
    | H : SwitchBlock_EnsureDestination ?a ?c s = Some ?r |- _ =>
        destruct r; simplify_eq; exists a, c; exact H
    end.
Qed.

Lemma BreakableBlock_EnsureDestination_inv a s inst s' :
  BreakableBlock_EnsureDestination a s = Some (inst, s') ->
  exists self,
    s.(FlowGraphBuilder.breakable_blocks) !! a = Some self
    /\ (s' = s
        \/ BreakableBlock.HadJumper self = false
           /\ s' = FlowGraphBuilder.set_breakable_blocks
                    (<[a := BreakableBlock.set_destination_
                              (Some (length s.(FlowGraphBuilder.join_entries)))
                              self]>
                       s.(FlowGraphBuilder.breakable_blocks))
                    (FlowGraphBuilder.BuildJoinEntry
                       self.(BreakableBlock.try_index_) s).2).
Proof.
  unfold BreakableBlock_EnsureDestination. intros H.
  destruct (FlowGraphBuilder.breakable_blocks s !! a) as [self |] eqn:Ha;
    simpl in H; [| discriminate].
  exists self. split; [reflexivity |]. unfold BreakableBlock.HadJumper.
  destruct (is_null _); [| left; congruence].
  right. destruct (FlowGraphBuilder.BuildJoinEntry _ s) as [i s1] eqn:Hb.
  unfold FlowGraphBuilder.BuildJoinEntry, FlowGraphBuilder.AllocateBlockId
    in Hb. simpl in *. simplify_eq. split; reflexivity.
Qed.

Lemma BreakableBlock_BreakDestination_inv this l s inst outs s' :
  BreakableBlock_BreakDestination this l s = Some (inst, outs, s') ->
  exists a, BreakableBlock_EnsureDestination a s = Some (inst, s').
Proof.
  unfold BreakableBlock_BreakDestination. intros H. simplify_option_eq.
  match goal with
  | H : BreakableBlock_EnsureDestination ?a s = Some ?r |- _ =>
      destruct r; simplify_eq; exists a; exact H
  end.
Qed.

Lemma SwitchBlock_insert_grows self c j :
  SwitchBlock.HadJumper self c = false ->
  SwitchBlock_grows self
    (SwitchBlock.set_destinations_
       (IntMap.Insert c j self.(SwitchBlock.destinations_)) self).
Proof.
  intros Hc. unfold SwitchBlock_grows. destruct self; simpl.
  repeat split. intros c' Hc'. apply IntMap_Lookup_Insert_ne.
  intros ->. simpl in Hc. congruence.
Qed.

Lemma BreakableBlock_set_grows self j :
  BreakableBlock.HadJumper self = false ->
  BreakableBlock_grows self (BreakableBlock.set_destination_ j self).
Proof.
  intros Hc. unfold BreakableBlock_grows. destruct self; simpl.
  repeat split. simpl in Hc. congruence.
Qed.

Lemma SwitchBlock_EnsureDestination_evolves a c s inst s' :
  SwitchBlock_EnsureDestination a c s = Some (inst, s') -> evolves s s'.
Proof.
  intros H.
  apply SwitchBlock_EnsureDestination_inv in H
    as (self & Ha & [-> | [Hj ->]]); [apply evolves_refl |].
  unfold_trackers. destruct s; simpl in *. constructor; simpl;
    auto with trackers.
  eapply kept_insert; [typeclasses eauto | exact Ha |].
  apply SwitchBlock_insert_grows, Hj.
Qed.

Lemma BreakableBlock_EnsureDestination_evolves a s inst s' :
  BreakableBlock_EnsureDestination a s = Some (inst, s') -> evolves s s'.
Proof.
  intros H.
  apply BreakableBlock_EnsureDestination_inv in H
    as (self & Ha & [-> | [Hj ->]]); [apply evolves_refl |].
  unfold_trackers. destruct s; simpl in *. constructor; simpl;
    auto with trackers.
  eapply kept_insert; [typeclasses eauto | exact Ha |].
  apply BreakableBlock_set_grows, Hj.
Qed.

(** Every operation keeps the outer link of every tracker built so far and
    moves the try-index counter by at most one. *)
Lemma step_evolves kInv op s s' : step kInv op s = Some s' -> evolves s s'.
Proof.
  destruct op; simpl; intros H;
    try (eapply dtor_evolves; eauto 6; fail).
  - injection H as <-. apply TryCatchBlock_ctor_evolves.
  - destruct (TryFinallyBlock_ctor _ _ s) as [[this s1] |] eqn:Hc;
      simplify_eq/=. eapply TryFinallyBlock_ctor_evolves, Hc.
  - destruct (SwitchBlock_ctor _ _ s) as [[this s1] |] eqn:Hc;
      simplify_eq/=. eapply SwitchBlock_ctor_evolves, Hc.
  - destruct (SwitchBlock_Destination _ _ _ _ s) as [[[i o] s1] |] eqn:Hc;
      simplify_eq/=.
    destruct (SwitchBlock_Destination_inv _ _ _ _ _ _ _ _ (or_introl Hc))
      as (a & c & He).
    eapply SwitchBlock_EnsureDestination_evolves, He.
  - destruct (SwitchBlock_DestinationDirect _ _ _ _ s) as [[[i o] s1] |] eqn:Hc;
      simplify_eq/=.
    destruct (SwitchBlock_Destination_inv _ _ _ _ _ _ _ _ (or_intror Hc))
      as (a & c & He).
    eapply SwitchBlock_EnsureDestination_evolves, He.
  - destruct (BreakableBlock_ctor _ s) as [[this s1] |] eqn:Hc;
      simplify_eq/=. eapply BreakableBlock_ctor_evolves, Hc.
  - destruct (BreakableBlock_BreakDestination _ _ s) as [[[i o] s1] |] eqn:Hc;
      simplify_eq/=.
    destruct (BreakableBlock_BreakDestination_inv _ _ _ _ _ _ Hc) as (a & He).
    eapply BreakableBlock_EnsureDestination_evolves, He.
  - injection H as <-. apply CatchBlock_ctor_evolves.
  - injection H as <-. unfold_trackers. destruct s; constructor; simpl;
      auto with trackers.
  - injection H as <-. unfold_trackers. destruct s; constructor; simpl;
      auto with trackers.
  - case_decide; simplify_eq. destruct s; constructor; simpl;
      auto with trackers.
  - case_decide; simplify_eq. destruct s; constructor; simpl;
      auto with trackers.
Qed.

(** Every operation keeps the chains of switch and breakable blocks well
    formed. *)
Lemma step_wf kInv op s s' : wf s -> step kInv op s = Some s' -> wf s'.
Proof.
  intros [Hsc Hst Hbc Hbt].
  destruct op; simpl; intros H.
  - injection H as <-. unfold TryCatchBlock_ctor. unfold_trackers.
    destruct s; destruct (_ =? _); constructor; simpl in *; auto.
  - unfold_trackers. destruct s; simplify_option_eq. constructor; auto.
  - unfold_trackers. destruct s; simpl in *; repeat case_match;
      simplify_option_eq; constructor; auto.
  - unfold_trackers. destruct s; simplify_option_eq. constructor; auto.
  - unfold_trackers. destruct s; simpl in *; repeat case_match;
      simplify_option_eq; constructor; simpl; auto;
      try (apply chain_ok_snoc; simpl; auto; congruence);
      intros a [= <-]; rewrite length_app; simpl; lia.
  - unfold_trackers. destruct s; simplify_option_eq.
    constructor; simpl; auto.
    intros a Ha.
    match goal with
    | Hl : _ !! this = Some _ |- _ =>
        pose proof (Hsc _ _ _ Hl Ha); apply lookup_lt_Some in Hl; lia
    end.
  - destruct (SwitchBlock_Destination _ _ _ _ s) as [[[i o] s1] |] eqn:Hc;
      simplify_eq/=.
    destruct (SwitchBlock_Destination_inv _ _ _ _ _ _ _ _ (or_introl Hc))
      as (a & c & He).
    apply SwitchBlock_EnsureDestination_inv in He
      as (self & Ha & [-> | [Hj ->]]); [constructor; auto |].
    unfold_trackers. destruct s; simpl in *. constructor; simpl; auto.
    + eapply chain_ok_insert; eauto; destruct self; reflexivity.
    + rewrite length_insert. auto.
  - destruct (SwitchBlock_DestinationDirect _ _ _ _ s) as [[[i o] s1] |] eqn:Hc;
      simplify_eq/=.
    destruct (SwitchBlock_Destination_inv _ _ _ _ _ _ _ _ (or_intror Hc))
      as (a & c & He).
    apply SwitchBlock_EnsureDestination_inv in He
      as (self & Ha & [-> | [Hj ->]]); [constructor; auto |].
    unfold_trackers. destruct s; simpl in *. constructor; simpl; auto.
    + eapply chain_ok_insert; eauto; destruct self; reflexivity.
    + rewrite length_insert. auto.
  - unfold_trackers. destruct s; simpl in *; repeat case_match;
      simplify_option_eq; constructor; simpl; auto;
      try (apply chain_ok_snoc; simpl; auto; congruence);
      intros a [= <-]; rewrite length_app; simpl; lia.
  - unfold_trackers. destruct s; simplify_option_eq.
    constructor; simpl; auto.
    intros a Ha.
    match goal with
    | Hl : _ !! this = Some _ |- _ =>
        pose proof (Hbc _ _ _ Hl Ha); apply lookup_lt_Some in Hl; lia
    end.
  - destruct (BreakableBlock_BreakDestination _ _ s) as [[[i o] s1] |] eqn:Hc;
      simplify_eq/=.
    destruct (BreakableBlock_BreakDestination_inv _ _ _ _ _ _ Hc) as (a & He).
    apply BreakableBlock_EnsureDestination_inv in He
      as (self & Ha & [-> | [Hj ->]]); [constructor; auto |].
    unfold_trackers. destruct s; simpl in *. constructor; simpl; auto.
    + eapply chain_ok_insert; eauto; destruct self; reflexivity.
    + rewrite length_insert. auto.
  - injection H as <-. unfold CatchBlock_ctor.
    destruct s; constructor; simpl in *; auto.
  - unfold_trackers. destruct s; simplify_option_eq. constructor; auto.
  - injection H as <-. unfold_trackers.
    destruct s; constructor; simpl in *; auto.
  - injection H as <-. unfold_trackers.
    destruct s; constructor; simpl in *; auto.
  - case_decide; simplify_eq. destruct s; constructor; simpl in *; auto.
  - case_decide; simplify_eq. destruct s; constructor; simpl in *; auto.
Qed.

Lemma init_wf n : wf (FlowGraphBuilder.init n).
Proof. constructor; simpl; try discriminate; intros a b o Ha; inversion Ha. Qed.

Lemma run_wf kInv ops s s' : wf s -> run kInv ops s = Some s' -> wf s'.
Proof.
  revert s. induction ops as [| op ops IH]; simpl; intros s Hwf H.
  - congruence.
  - destruct (step kInv op s) as [s1 |] eqn:Hs; simpl in H; [| discriminate].
    eapply IH; [eapply step_wf; eauto | exact H].
Qed.

(** Whatever the translator does, a tracker stays where it was built and
    keeps what it recorded; switch and breakable blocks keep the
    destinations they have. *)
Lemma run_kept kInv ops s s' :
  run kInv ops s = Some s' ->
  kept eq s.(FlowGraphBuilder.try_catch_blocks)
    s'.(FlowGraphBuilder.try_catch_blocks)
  /\ kept eq s.(FlowGraphBuilder.try_finally_blocks)
       s'.(FlowGraphBuilder.try_finally_blocks)
  /\ kept SwitchBlock_grows s.(FlowGraphBuilder.switch_blocks)
       s'.(FlowGraphBuilder.switch_blocks)
  /\ kept BreakableBlock_grows s.(FlowGraphBuilder.breakable_blocks)
       s'.(FlowGraphBuilder.breakable_blocks)
  /\ kept eq s.(FlowGraphBuilder.catch_blocks)
       s'.(FlowGraphBuilder.catch_blocks).
Proof.
  revert s. induction ops as [| op ops IH]; simpl; intros s H.
  - injection H as <-. repeat split; apply kept_refl; typeclasses eauto.
  - destruct (step kInv op s) as [s1 |] eqn:Hs; simpl in H; [| discriminate].
    apply step_evolves in Hs as [H1 H2 H3 H4 H5 _].
    destruct (IH s1 H) as (K1 & K2 & K3 & K4 & K5).
    repeat split; eapply kept_trans; eauto; typeclasses eauto.
Qed.

(** As long as the counter cannot overflow, it never goes down, and it
    goes up by at most one per operation. *)
Lemma run_try_index kInv ops s s' :
  run kInv ops s = Some s' ->
  IntPtr.min <= s.(FlowGraphBuilder.next_used_try_index_) ->
  s.(FlowGraphBuilder.next_used_try_index_) + Z.of_nat (length ops)
    <= IntPtr.max ->
  s.(FlowGraphBuilder.next_used_try_index_)
    <= s'.(FlowGraphBuilder.next_used_try_index_)
    <= s.(FlowGraphBuilder.next_used_try_index_) + Z.of_nat (length ops).
Proof.
  revert s. induction ops as [| op ops IH]; simpl length; intros s H Hlo Hhi.
  - simpl in H. injection H as <-. lia.
  - simpl in H.
    destruct (step kInv op s) as [s1 |] eqn:Hs; simpl in H; [| discriminate].
    apply step_evolves in Hs as [_ _ _ _ _ Hn].
    assert (s.(FlowGraphBuilder.next_used_try_index_)
            <= s1.(FlowGraphBuilder.next_used_try_index_)
            <= s.(FlowGraphBuilder.next_used_try_index_) + 1) as Hs1.
    { destruct Hn as [-> | ->]; [lia |]. unfold IntPtr.add.
      rewrite wrap_in_range; [lia |]. unfold IntPtr.in_range. lia. }
    specialize (IH s1 H). lia.
Qed.

Lemma sample_run : run (-1) sample_ops (FlowGraphBuilder.init 0) = Some sample.
Proof. reflexivity. Qed.

Lemma sample_wf : wf sample.
Proof. exact (run_wf _ _ _ _ (init_wf 0) sample_run). Qed.

Lemma sample_contiguous : contiguous sample.(FlowGraphBuilder.switch_blocks).
Proof.
  intros [| [| a]] b Ha; simpl in Ha; try discriminate; injection Ha as <-;
    simpl; split; try lia; try reflexivity.
  eexists. split; reflexivity.
Qed.

Lemma SwitchBlock_ctor_inv kInv n s this s' :
  SwitchBlock_ctor kInv n s = Some (this, s') ->
  exists try_index depth,
    FlowGraphBuilder.CurrentTryIndex kInv s = Some try_index
    /\ match s.(FlowGraphBuilder.switch_block_) with
       | None => depth = 0
       | Some o =>
           exists ob, s.(FlowGraphBuilder.switch_blocks) !! o = Some ob
             /\ depth = IntPtr.add ob.(SwitchBlock.depth_)
                          ob.(SwitchBlock.case_count_)
       end
    /\ this = length s.(FlowGraphBuilder.switch_blocks)
    /\ s' = FlowGraphBuilder.set_switch_block_ (Some this)
              (FlowGraphBuilder.set_switch_blocks
                 (s.(FlowGraphBuilder.switch_blocks)
                    ++ [SwitchBlock.mk s.(FlowGraphBuilder.switch_block_)
                          IntMap.empty s.(FlowGraphBuilder.try_finally_block_)
                          n depth s.(FlowGraphBuilder.context_depth_)
                          try_index]) s).
Proof.
  unfold SwitchBlock_ctor. intros H.
  destruct (FlowGraphBuilder.CurrentTryIndex kInv s) as [ti |];
    simpl in H; [| discriminate].
  destruct (FlowGraphBuilder.switch_block_ s) as [o |] eqn:Ho; simpl in H.
  - destruct (FlowGraphBuilder.switch_blocks s !! o) as [ob |] eqn:Hob;
      simpl in H; [| discriminate].
    injection H as <- <-. eexists ti, _.
    repeat split. exists ob. split; reflexivity.
  - injection H as <- <-. exists ti, 0. repeat split.
Qed.

Lemma lookup_snoc_length {A} (l : list A) x : (l ++ [x]) !! length l = Some x.
Proof. rewrite lookup_app_r by lia. rewrite Nat.sub_diag. reflexivity. Qed.

(** C3: a switch block built inside another starts where the outer one
    ends (and at 0 when outermost); [Destination] on a case number in the
    range of an enclosing region stops at the first block outward whose
    depth is at most the target, and gives that block's join entry for the
    target minus that depth together with that block's recorded finally
    block and context depth.  With contiguous depths that block is the
    region whose range contains the target. *)
Theorem SwitchBlock_numbering :
  (forall kInv case_count s this s',
      SwitchBlock_ctor kInv case_count s = Some (this, s') ->
      exists self,
        s'.(FlowGraphBuilder.switch_blocks) !! this = Some self
        /\ self.(SwitchBlock.outer_) = s.(FlowGraphBuilder.switch_block_)
        /\ self.(SwitchBlock.case_count_) = case_count
        /\ match s.(FlowGraphBuilder.switch_block_) with
           | None => self.(SwitchBlock.depth_) = 0
           | Some o =>
               exists ob,
                 s.(FlowGraphBuilder.switch_blocks) !! o = Some ob
                 /\ self.(SwitchBlock.depth_)
                    = IntPtr.add ob.(SwitchBlock.depth_)
                        ob.(SwitchBlock.case_count_)
                 /\ (IntPtr.in_range (ob.(SwitchBlock.depth_)
                                      + ob.(SwitchBlock.case_count_)) ->
                     self.(SwitchBlock.depth_)
                     = ob.(SwitchBlock.depth_) + ob.(SwitchBlock.case_count_))
           end)
  /\ (forall s this N r region,
      wf s ->
      encloses SwitchBlock.outer_ s.(FlowGraphBuilder.switch_blocks)
        (Some this) r ->
      s.(FlowGraphBuilder.switch_blocks) !! r = Some region ->
      region.(SwitchBlock.depth_) <= N
        < region.(SwitchBlock.depth_) + region.(SwitchBlock.case_count_) ->
      exists a block,
        stops_at SwitchBlock.outer_ (fun b => b.(SwitchBlock.depth_) >? N)
          s.(FlowGraphBuilder.switch_blocks) (Some this) a
        /\ s.(FlowGraphBuilder.switch_blocks) !! a = Some block
        /\ block.(SwitchBlock.depth_) <= N
        /\ (contiguous s.(FlowGraphBuilder.switch_blocks) -> a = r)
        /\ (IntPtr.in_range (N - block.(SwitchBlock.depth_)) ->
            exists inst s' block',
              SwitchBlock_Destination this N true true s
              = Some (inst,
                      (Some block.(SwitchBlock.outer_finally_),
                       Some block.(SwitchBlock.context_depth_)), s')
              /\ inst <> NULL
              /\ s'.(FlowGraphBuilder.switch_blocks) !! a = Some block'
              /\ IntMap.Lookup (N - block.(SwitchBlock.depth_))
                   block'.(SwitchBlock.destinations_) = inst
              /\ SwitchBlock_Destination this N false false s
                 = Some (inst, (None, None), s'))).
Proof.
  split.
  - intros kInv n s this s' H.
    apply SwitchBlock_ctor_inv in H as (ti & depth & _ & Hd & -> & ->).
    destruct s; simpl in *. eexists.
    split; [apply lookup_snoc_length |]. simpl.
    split; [reflexivity |]. split; [reflexivity |].
    destruct switch_block_ as [o |]; [| exact Hd].
    destruct Hd as (ob & Hob & ->). exists ob.
    split; [exact Hob |]. split; [reflexivity |].
    intros Hr. apply wrap_in_range, Hr.
  - intros s this N r region Hwf He Hr HN.
    pose proof (wf_switch_chain s Hwf) as Hok.
    destruct (encloses_stops SwitchBlock.outer_
                (fun b => b.(SwitchBlock.depth_) >? N) _ _ _ _ He Hr)
      as [a Hs].
    { rewrite Z.gtb_ltb. apply Z.ltb_ge. lia. }
    destruct (stops_at_block _ _ _ _ _ Hs) as (block & Ha & Hc).
    exists a, block. split; [exact Hs |]. split; [exact Ha |].
    rewrite Z.gtb_ltb in Hc. apply Z.ltb_ge in Hc.
    split; [exact Hc |]. split.
    { intros Hcont. eapply stops_at_unique; [exact Hs |].
      eapply contiguous_stops_at_region; eauto. }
    intros Hsub.
    destruct (SwitchBlock_EnsureDestination_spec a
                (N - block.(SwitchBlock.depth_)) s block Ha)
      as (inst & s' & d' & He' & Hnn & _ & _ & Hst & Hl & _ & _).
    exists inst, s', (SwitchBlock.set_destinations_ d' block).
    unfold SwitchBlock_Destination.
    rewrite (walk_from_stops _ _ _ _ _ Hok Hs). simpl. rewrite Ha. simpl.
    unfold IntPtr.sub. rewrite (wrap_in_range _ Hsub), He'. simpl.
    split; [reflexivity |]. split; [exact Hnn |].
    split; [| split; [exact Hl | reflexivity]].
    rewrite Hst. apply list_lookup_insert_eq. eapply lookup_lt_Some, Ha.
Qed.

Lemma SwitchBlock_numbering_witness :
  exists inst s' block',
    SwitchBlock_Destination 1%nat 1 true true sample
    = Some (inst, (Some (Some 0%nat), Some 0), s')
    /\ inst <> NULL
    /\ s'.(FlowGraphBuilder.switch_blocks) !! 0%nat = Some block'
    /\ IntMap.Lookup 1 block'.(SwitchBlock.destinations_) = inst.
Proof.
  destruct SwitchBlock_numbering as [_ Hdest].
  destruct (Hdest sample 1%nat 1 0%nat
              (SwitchBlock.mk NULL IntMap.empty (Some 0%nat) 2 0 0 0)
              sample_wf)
    as (a & block & Hs & Ha & _ & Hr & Hd).
  - eapply encloses_outer; [reflexivity |]. eapply encloses_self. reflexivity.
  - reflexivity.
  - simpl. lia.
  - specialize (Hr sample_contiguous). subst a.
    injection Ha as <-.
    destruct Hd as (inst & s' & block' & H1 & H2 & H3 & H4 & _).
    + vm_compute. split; congruence.
    + exists inst, s', block'. repeat split; assumption.
Defined.

Lemma write_outs_valid f d finally_block depth :
  (f = true -> d = true) ->
  exists outs, write_outs f d finally_block depth = Some outs.
Proof.
  unfold write_outs. destruct f, d; eauto. intros H. discriminate (H eq_refl).
Qed.

(** A destination that is already there is returned as it is. *)
Lemma SwitchBlock_Destination_cached s this N f d a block inst :
  wf s ->
  stops_at SwitchBlock.outer_ (fun b => b.(SwitchBlock.depth_) >? N)
    s.(FlowGraphBuilder.switch_blocks) (Some this) a ->
  s.(FlowGraphBuilder.switch_blocks) !! a = Some block ->
  IntMap.Lookup (IntPtr.sub N block.(SwitchBlock.depth_))
    block.(SwitchBlock.destinations_) = inst ->
  inst <> NULL ->
  (f = true -> d = true) ->
  exists outs, SwitchBlock_Destination this N f d s = Some (inst, outs, s).
Proof.
  intros Hwf Hs Ha Hl Hnn Hfd.
  destruct (write_outs_valid f d block.(SwitchBlock.outer_finally_)
              block.(SwitchBlock.context_depth_) Hfd) as [outs Ho].
  exists outs. unfold SwitchBlock_Destination.
  rewrite (walk_from_stops _ _ _ _ _ (wf_switch_chain s Hwf) Hs). simpl.
  rewrite Ha. simpl. rewrite Ho. simpl.
  unfold SwitchBlock_EnsureDestination. rewrite Ha. simpl. rewrite Hl.
  destruct inst; [reflexivity | congruence].
Qed.

(** C6: a switch block starts without any destination; the first request
    for a case builds a join entry and stores it in the map of the region
    that owns the case, touching no other case and no other region; every
    later request that resolves to that region, whatever the translator did
    in between, returns that same join entry and changes nothing. *)
Theorem SwitchBlock_Destination_idempotent :
  (forall kInv n s this s' self,
      SwitchBlock_ctor kInv n s = Some (this, s') ->
      s'.(FlowGraphBuilder.switch_blocks) !! this = Some self ->
      forall c, SwitchBlock.HadJumper self c = false)
  /\ (forall kInv s this N f d a block,
      wf s ->
      stops_at SwitchBlock.outer_ (fun b => b.(SwitchBlock.depth_) >? N)
        s.(FlowGraphBuilder.switch_blocks) (Some this) a ->
      s.(FlowGraphBuilder.switch_blocks) !! a = Some block ->
      (f = true -> d = true) ->
      exists inst outs s1 block1,
        SwitchBlock_Destination this N f d s = Some (inst, outs, s1)
        /\ inst <> NULL
        /\ (SwitchBlock.HadJumper block
              (IntPtr.sub N block.(SwitchBlock.depth_)) = false ->
            inst = Some (length s.(FlowGraphBuilder.join_entries))
            /\ s1.(FlowGraphBuilder.join_entries)
               = s.(FlowGraphBuilder.join_entries)
                   ++ [mkJoin
                         (IntPtr.add s.(FlowGraphBuilder.last_used_block_id_) 1)
                         block.(SwitchBlock.try_index_)])
        /\ (SwitchBlock.HadJumper block
              (IntPtr.sub N block.(SwitchBlock.depth_)) = true -> s1 = s)
        /\ s1.(FlowGraphBuilder.switch_blocks) !! a = Some block1
        /\ IntMap.Lookup (IntPtr.sub N block.(SwitchBlock.depth_))
             block1.(SwitchBlock.destinations_) = inst
        /\ (forall c', c' <> IntPtr.sub N block.(SwitchBlock.depth_) ->
              IntMap.Lookup c' block1.(SwitchBlock.destinations_)
              = IntMap.Lookup c' block.(SwitchBlock.destinations_))
        /\ (forall a', a' <> a ->
              s1.(FlowGraphBuilder.switch_blocks) !! a'
              = s.(FlowGraphBuilder.switch_blocks) !! a')
        /\ SwitchBlock_Destination this N f d s1 = Some (inst, outs, s1)
        /\ (forall ops s2 this2 f2 d2,
              run kInv ops s1 = Some s2 ->
              stops_at SwitchBlock.outer_
                (fun b => b.(SwitchBlock.depth_) >? N)
                s2.(FlowGraphBuilder.switch_blocks) (Some this2) a ->
              (f2 = true -> d2 = true) ->
              exists outs2,
                SwitchBlock_Destination this2 N f2 d2 s2
                = Some (inst, outs2, s2))).
Proof.
  split.
  - intros kInv n s this s' self H Hl c.
    apply SwitchBlock_ctor_inv in H as (ti & depth & _ & _ & -> & ->).
    destruct s; simpl in *. rewrite lookup_snoc_length in Hl.
    injection Hl as <-. reflexivity.
  - intros kInv s this N f d a block Hwf Hs Ha Hfd.
    set (c := IntPtr.sub N block.(SwitchBlock.depth_)).
    pose proof (wf_switch_chain s Hwf) as Hok.
    destruct (write_outs_valid f d block.(SwitchBlock.outer_finally_)
                block.(SwitchBlock.context_depth_) Hfd) as [outs Ho].
    destruct (SwitchBlock_EnsureDestination_spec a c s block Ha)
      as (inst & s1 & d' & He & Hnn & Hhit & Hmiss & Hst & Hl & Hother
          & Hagain).
    assert (SwitchBlock_Destination this N f d s = Some (inst, outs, s1))
      as Hdest.
    { unfold SwitchBlock_Destination.
      rewrite (walk_from_stops _ _ _ _ _ Hok Hs). simpl. rewrite Ha. simpl.
      rewrite Ho. simpl. fold c. rewrite He. reflexivity. }
    pose proof (lookup_lt_Some _ _ _ Ha) as Hlt.
    assert (s1.(FlowGraphBuilder.switch_blocks) !! a
            = Some (SwitchBlock.set_destinations_ d' block)) as Ha1.
    { rewrite Hst. apply list_lookup_insert_eq, Hlt. }
    assert (wf s1) as Hwf1.
    { apply (step_wf kInv (SwitchDestination this N f d) s s1 Hwf).
      simpl. rewrite Hdest. reflexivity. }
    assert (forall ops s2 this2 f2 d2,
              run kInv ops s1 = Some s2 ->
              stops_at SwitchBlock.outer_
                (fun b => b.(SwitchBlock.depth_) >? N)
                s2.(FlowGraphBuilder.switch_blocks) (Some this2) a ->
              (f2 = true -> d2 = true) ->
              exists outs2,
                SwitchBlock_Destination this2 N f2 d2 s2
                = Some (inst, outs2, s2)) as Hlater.
    { intros ops s2 this2 f2 d2 Hrun Hs2 Hfd2.
      destruct (run_kept _ _ _ _ Hrun) as (_ & _ & Hk & _ & _).
      destruct (Hk a _ Ha1) as (block2 & Ha2 & Hg).
      destruct Hg as (_ & _ & _ & Hdepth & _ & _ & Hkeep).
      eapply SwitchBlock_Destination_cached; eauto using run_wf.
      rewrite Hdepth. destruct block; simpl in *. fold c.
      rewrite Hkeep; [exact Hl |].
      unfold SwitchBlock.HadJumper. simpl. rewrite Hl.
      destruct inst; [reflexivity | congruence]. }
    exists inst, outs, s1, (SwitchBlock.set_destinations_ d' block).
    split; [exact Hdest |]. split; [exact Hnn |].
    split; [exact Hmiss |]. split; [intros Hj; apply Hhit, Hj |].
    split; [exact Ha1 |]. split; [destruct block; exact Hl |].
    split; [destruct block; exact Hother |].
    split; [intros a' Hne; rewrite Hst;
            apply list_lookup_insert_ne; congruence |].
    split; [| exact Hlater].
    assert (stops_at SwitchBlock.outer_
              (fun b => b.(SwitchBlock.depth_) >? N)
              s1.(FlowGraphBuilder.switch_blocks) (Some this) a) as Hs1.
    { eapply stops_at_ext; [| exact Hs]. intros a0 b0 Ha0.
      destruct (decide (a0 = a)) as [-> | Hne].
      - eexists. split; [exact Ha1 |].
        assert (b0 = block) as -> by congruence.
        destruct block; split; reflexivity.
      - exists b0. rewrite Hst, list_lookup_insert_ne by congruence. auto. }
    unfold SwitchBlock_Destination.
    rewrite (walk_from_stops _ _ _ _ _ (wf_switch_chain s1 Hwf1) Hs1). simpl.
    rewrite Ha1. simpl.
    replace (SwitchBlock.outer_finally_
               (SwitchBlock.set_destinations_ d' block))
      with (SwitchBlock.outer_finally_ block) by (destruct block; reflexivity).
    replace (SwitchBlock.context_depth_
               (SwitchBlock.set_destinations_ d' block))
      with (SwitchBlock.context_depth_ block) by (destruct block; reflexivity).
    replace (SwitchBlock.depth_ (SwitchBlock.set_destinations_ d' block))
      with (SwitchBlock.depth_ block) by (destruct block; reflexivity).
    rewrite Ho. simpl. fold c. rewrite Hagain. reflexivity.
Qed.

Lemma SwitchBlock_Destination_idempotent_witness :
  exists inst outs s1,
    SwitchBlock_Destination 1%nat 1 true true sample = Some (inst, outs, s1)
    /\ inst = Some 0%nat
    /\ SwitchBlock_Destination 1%nat 1 true true s1 = Some (inst, outs, s1).
Proof.
  destruct SwitchBlock_Destination_idempotent as [_ Hdest].
  destruct (Hdest (-1) sample 1%nat 1 true true 0%nat
              (SwitchBlock.mk NULL IntMap.empty (Some 0%nat) 2 0 0 0)
              sample_wf)
    as (inst & outs & s1 & block1 & H1 & _ & Hfirst & _ & _ & _ & _ & _
        & H2 & _).
  - eapply stops_outer; [reflexivity | reflexivity |].
    eapply stops_here; reflexivity.
  - reflexivity.
  - reflexivity.
  - exists inst, outs, s1. split; [exact H1 |]. split; [| exact H2].
    apply Hfirst. reflexivity.
Defined.

(** ** Breakable regions *)

Lemma BreakableBlock_ctor_inv kInv s this s' :
  BreakableBlock_ctor kInv s = Some (this, s') ->
  exists try_index index,
    FlowGraphBuilder.CurrentTryIndex kInv s = Some try_index
    /\ match s.(FlowGraphBuilder.breakable_block_) with
       | None => index = 0
       | Some o =>
           exists ob, s.(FlowGraphBuilder.breakable_blocks) !! o = Some ob
             /\ index = IntPtr.add ob.(BreakableBlock.index_) 1
       end
    /\ this = length s.(FlowGraphBuilder.breakable_blocks)
    /\ s' = FlowGraphBuilder.set_breakable_block_ (Some this)
              (FlowGraphBuilder.set_breakable_blocks
                 (s.(FlowGraphBuilder.breakable_blocks)
                    ++ [BreakableBlock.mk index
                          s.(FlowGraphBuilder.breakable_block_) NULL
                          s.(FlowGraphBuilder.try_finally_block_)
                          s.(FlowGraphBuilder.context_depth_) try_index]) s).
Proof.
  unfold BreakableBlock_ctor. intros H.
  destruct (FlowGraphBuilder.CurrentTryIndex kInv s) as [ti |];
    simpl in H; [| discriminate].
  destruct (FlowGraphBuilder.breakable_block_ s) as [o |] eqn:Ho; simpl in H.
  - destruct (FlowGraphBuilder.breakable_blocks s !! o) as [ob |] eqn:Hob;
      simpl in H; [| discriminate].
    injection H as <- <-. eexists ti, _.
    repeat split. exists ob. split; reflexivity.
  - injection H as <- <-. exists ti, 0. repeat split.
Qed.

Lemma BreakableBlock_EnsureDestination_spec a s self :
  s.(FlowGraphBuilder.breakable_blocks) !! a = Some self ->
  exists inst s',
    BreakableBlock_EnsureDestination a s = Some (inst, s')
    /\ inst <> NULL
    /\ (BreakableBlock.HadJumper self = true ->
        inst = self.(BreakableBlock.destination_) /\ s' = s)
    /\ (BreakableBlock.HadJumper self = false ->
        inst = Some (length s.(FlowGraphBuilder.join_entries))
        /\ s'.(FlowGraphBuilder.join_entries)
           = s.(FlowGraphBuilder.join_entries)
               ++ [mkJoin
                     (IntPtr.add s.(FlowGraphBuilder.last_used_block_id_) 1)
                     self.(BreakableBlock.try_index_)])
    /\ s'.(FlowGraphBuilder.breakable_blocks)
       = <[a := BreakableBlock.set_destination_ inst self]>
           s.(FlowGraphBuilder.breakable_blocks)
    /\ s'.(FlowGraphBuilder.breakable_block_)
       = s.(FlowGraphBuilder.breakable_block_).
Proof.
  intros Ha. unfold BreakableBlock_EnsureDestination. rewrite Ha. simpl.
  unfold BreakableBlock.HadJumper.
  destruct (BreakableBlock.destination_ self) as [j |] eqn:Hj; simpl.
  - exists (Some j), s. repeat split; try congruence.
    rewrite list_insert_id; [reflexivity |].
    rewrite Ha. f_equal. destruct self; simpl in *. subst.
    reflexivity.
  - eexists _, _. split; [reflexivity |]. split; [congruence |].
    split; [discriminate |]. split; [intros _; split; reflexivity |].
    split; reflexivity.
Qed.

Lemma indexed_inner_index blocks block r region :
  chain_ok BreakableBlock.outer_ blocks -> indexed blocks ->
  encloses BreakableBlock.outer_ blocks block r ->
  blocks !! r = Some region ->
  forall a b, block = Some a -> blocks !! a = Some b -> a <> r ->
  region.(BreakableBlock.index_) < b.(BreakableBlock.index_).
Proof.
  intros Hok Hidx He Hr.
  induction He as [a b' Ha | a b' r Ha He IH]; intros a' b [= <-] Hb Hne;
    [contradiction |].
  assert (b' = b) as -> by congruence.
  pose proof (Hidx a b Hb) as Hd.
  destruct (BreakableBlock.outer_ b) as [o |] eqn:Ho; [| inversion He].
  destruct Hd as (ob & Hob & ->).
  destruct (decide (o = r)) as [-> | Hor].
  - assert (ob = region) as -> by congruence. lia.
  - specialize (IH Hr o ob eq_refl Hob Hor). lia.
Qed.

(** With nesting indices, the walk of [BreakDestination] stops at the one
    enclosing region that has the label's index. *)
Lemma indexed_stops_at_region blocks block r region :
  chain_ok BreakableBlock.outer_ blocks -> indexed blocks ->
  encloses BreakableBlock.outer_ blocks block r ->
  blocks !! r = Some region ->
  stops_at BreakableBlock.outer_
    (fun b => negb (b.(BreakableBlock.index_)
                    =? region.(BreakableBlock.index_)))
    blocks block r.
Proof.
  intros Hok Hidx He Hr.
  pose proof (indexed_inner_index blocks block r region Hok Hidx He Hr)
    as Hinner.
  induction He as [a b' Ha | a b' r Ha He IH].
  - eapply stops_here; eauto. assert (b' = region) as -> by congruence.
    rewrite Z.eqb_refl. reflexivity.
  - destruct (decide (a = r)) as [-> | Hne].
    + eapply stops_here; eauto. assert (b' = region) as -> by congruence.
      rewrite Z.eqb_refl. reflexivity.
    + eapply stops_outer; eauto.
      * specialize (Hinner a b' eq_refl Ha Hne).
        apply negb_true_iff, Z.eqb_neq. lia.
      * apply IH; [exact Hr |].
        apply (indexed_inner_index blocks _ r region Hok Hidx He Hr).
Qed.

(** A destination that is already there is returned as it is. *)
Lemma BreakableBlock_BreakDestination_cached s this label a block inst :
  wf s ->
  is_Some (s.(FlowGraphBuilder.breakable_blocks) !! this) ->
  stops_at BreakableBlock.outer_
    (fun b => negb (b.(BreakableBlock.index_) =? label))
    s.(FlowGraphBuilder.breakable_blocks)
    s.(FlowGraphBuilder.breakable_block_) a ->
  s.(FlowGraphBuilder.breakable_blocks) !! a = Some block ->
  block.(BreakableBlock.destination_) = inst ->
  inst <> NULL ->
  BreakableBlock_BreakDestination this label s
  = Some (inst,
          (block.(BreakableBlock.outer_finally_),
           block.(BreakableBlock.context_depth_)), s).
Proof.
  intros Hwf [self Hthis] Hs Ha Hl Hnn.
  unfold BreakableBlock_BreakDestination. rewrite Hthis. simpl.
  rewrite (walk_from_stops _ _ _ _ _ (wf_breakable_chain s Hwf) Hs). simpl.
  rewrite Ha. simpl.
  unfold BreakableBlock_EnsureDestination. rewrite Ha. simpl. rewrite Hl.
  destruct inst; [reflexivity | congruence].
Qed.

(** C5: a breakable block records the finally block and the context depth
    in effect when it is opened and starts without a destination.  For a
    label index carried by an enclosing breakable region,
    [BreakDestination] walks outward from the innermost breakable block to
    the first one with that index, builds its join entry on the first
    request, returns that same entry on every later request, and writes
    out the finally block and context depth that block recorded. *)
Theorem BreakDestination_resolves :
  (forall kInv s this s',
      BreakableBlock_ctor kInv s = Some (this, s') ->
      exists self,
        s'.(FlowGraphBuilder.breakable_blocks) !! this = Some self
        /\ self.(BreakableBlock.outer_) = s.(FlowGraphBuilder.breakable_block_)
        /\ self.(BreakableBlock.outer_finally_)
           = s.(FlowGraphBuilder.try_finally_block_)
        /\ self.(BreakableBlock.context_depth_)
           = s.(FlowGraphBuilder.context_depth_)
        /\ BreakableBlock.HadJumper self = false)
  /\ (forall kInv s this label r region,
      wf s ->
      is_Some (s.(FlowGraphBuilder.breakable_blocks) !! this) ->
      encloses BreakableBlock.outer_ s.(FlowGraphBuilder.breakable_blocks)
        s.(FlowGraphBuilder.breakable_block_) r ->
      s.(FlowGraphBuilder.breakable_blocks) !! r = Some region ->
      region.(BreakableBlock.index_) = label ->
      exists a block,
        stops_at BreakableBlock.outer_
          (fun b => negb (b.(BreakableBlock.index_) =? label))
          s.(FlowGraphBuilder.breakable_blocks)
          s.(FlowGraphBuilder.breakable_block_) a
        /\ s.(FlowGraphBuilder.breakable_blocks) !! a = Some block
        /\ block.(BreakableBlock.index_) = label
        /\ (indexed s.(FlowGraphBuilder.breakable_blocks) -> a = r)
        /\ exists inst s1 block1,
             BreakableBlock_BreakDestination this label s
             = Some (inst,
                     (block.(BreakableBlock.outer_finally_),
                      block.(BreakableBlock.context_depth_)), s1)
             /\ inst <> NULL
             /\ (BreakableBlock.HadJumper block = false ->
                 inst = Some (length s.(FlowGraphBuilder.join_entries))
                 /\ s1.(FlowGraphBuilder.join_entries)
                    = s.(FlowGraphBuilder.join_entries)
                        ++ [mkJoin
                              (IntPtr.add
                                 s.(FlowGraphBuilder.last_used_block_id_) 1)
                              block.(BreakableBlock.try_index_)])
             /\ (BreakableBlock.HadJumper block = true ->
                 inst = BreakableBlock.destination block /\ s1 = s)
             /\ s1.(FlowGraphBuilder.breakable_blocks) !! a = Some block1
             /\ BreakableBlock.destination block1 = inst
             /\ BreakableBlock_BreakDestination this label s1
                = Some (inst,
                        (block.(BreakableBlock.outer_finally_),
                         block.(BreakableBlock.context_depth_)), s1)
             /\ (forall ops s2 this2,
                   run kInv ops s1 = Some s2 ->
                   is_Some (s2.(FlowGraphBuilder.breakable_blocks) !! this2) ->
                   stops_at BreakableBlock.outer_
                     (fun b => negb (b.(BreakableBlock.index_) =? label))
                     s2.(FlowGraphBuilder.breakable_blocks)
                     s2.(FlowGraphBuilder.breakable_block_) a ->
                   BreakableBlock_BreakDestination this2 label s2
                   = Some (inst,
                           (block.(BreakableBlock.outer_finally_),
                            block.(BreakableBlock.context_depth_)), s2))).
Proof.
  split.
  - intros kInv s this s' H.
    apply BreakableBlock_ctor_inv in H as (ti & index & _ & _ & -> & ->).
    destruct s; simpl in *. eexists.
    split; [apply lookup_snoc_length |]. repeat split.
  - intros kInv s this label r region Hwf Hthis He Hr Hidx.
    pose proof (wf_breakable_chain s Hwf) as Hok.
    destruct (encloses_stops BreakableBlock.outer_
                (fun b => negb (b.(BreakableBlock.index_) =? label))
                _ _ _ _ He Hr) as [a Hs].
    { rewrite Hidx, Z.eqb_refl. reflexivity. }
    destruct (stops_at_block _ _ _ _ _ Hs) as (block & Ha & Hc).
    apply negb_false_iff, Z.eqb_eq in Hc.
    exists a, block. split; [exact Hs |]. split; [exact Ha |].
    split; [exact Hc |]. split.
    { intros Hi. eapply stops_at_unique; [exact Hs |]. subst label.
      eapply indexed_stops_at_region; eauto. }
    destruct (BreakableBlock_EnsureDestination_spec a s block Ha)
      as (inst & s1 & He' & Hnn & Hhit & Hmiss & Hst & Htop).
    assert (BreakableBlock_BreakDestination this label s
            = Some (inst,
                    (block.(BreakableBlock.outer_finally_),
                     block.(BreakableBlock.context_depth_)), s1)) as Hdest.
    { destruct Hthis as [self Hthis].
      unfold BreakableBlock_BreakDestination. rewrite Hthis. simpl.
      rewrite (walk_from_stops _ _ _ _ _ Hok Hs). simpl. rewrite Ha. simpl.
      rewrite He'. reflexivity. }
    pose proof (lookup_lt_Some _ _ _ Ha) as Hlt.
    assert (s1.(FlowGraphBuilder.breakable_blocks) !! a
            = Some (BreakableBlock.set_destination_ inst block)) as Ha1.
    { rewrite Hst. apply list_lookup_insert_eq, Hlt. }
    assert (wf s1) as Hwf1.
    { apply (step_wf kInv (BreakDestination this label) s s1 Hwf).
      simpl. rewrite Hdest. reflexivity. }
    assert (forall ops s2 this2,
              run kInv ops s1 = Some s2 ->
              is_Some (s2.(FlowGraphBuilder.breakable_blocks) !! this2) ->
              stops_at BreakableBlock.outer_
                (fun b => negb (b.(BreakableBlock.index_) =? label))
                s2.(FlowGraphBuilder.breakable_blocks)
                s2.(FlowGraphBuilder.breakable_block_) a ->
              BreakableBlock_BreakDestination this2 label s2
              = Some (inst,
                      (block.(BreakableBlock.outer_finally_),
                       block.(BreakableBlock.context_depth_)), s2))
      as Hlater.
    { intros ops s2 this2 Hrun Hthis2 Hs2.
      destruct (run_kept _ _ _ _ Hrun) as (_ & _ & _ & Hk & _).
      destruct (Hk a _ Ha1) as (block2 & Ha2 & Hg).
      destruct Hg as (_ & _ & Hof & Hcd & _ & Hkeep).
      replace (BreakableBlock.outer_finally_ block)
        with (BreakableBlock.outer_finally_ block2)
        by (rewrite Hof; destruct block; reflexivity).
      replace (BreakableBlock.context_depth_ block)
        with (BreakableBlock.context_depth_ block2)
        by (rewrite Hcd; destruct block; reflexivity).
      eapply BreakableBlock_BreakDestination_cached; eauto using run_wf.
      rewrite Hkeep; [destruct block; reflexivity |].
      unfold BreakableBlock.HadJumper. destruct block; simpl.
      destruct inst; [reflexivity | congruence]. }
    exists inst, s1, (BreakableBlock.set_destination_ inst block).
    split; [exact Hdest |]. split; [exact Hnn |].
    split; [exact Hmiss |]. split; [exact Hhit |].
    split; [exact Ha1 |]. split; [destruct block; reflexivity |].
    split; [| exact Hlater].
    apply (Hlater [] s1 this eq_refl).
    + rewrite Hst. apply lookup_lt_is_Some. rewrite length_insert.
      apply lookup_lt_is_Some, Hthis.
    + rewrite Htop. eapply stops_at_ext; [| exact Hs]. intros a0 b0 Ha0.
      destruct (decide (a0 = a)) as [-> | Hne].
      * eexists. split; [exact Ha1 |].
        assert (b0 = block) as -> by congruence.
        destruct block; split; reflexivity.
      * exists b0. rewrite Hst, list_lookup_insert_ne by congruence. auto.
Qed.

Lemma BreakDestination_resolves_witness :
  exists inst s1,
    BreakableBlock_BreakDestination 1%nat 0 sample
    = Some (inst, (Some 0%nat, 0), s1)
    /\ inst = Some 0%nat
    /\ BreakableBlock_BreakDestination 1%nat 0 s1
       = Some (inst, (Some 0%nat, 0), s1).
Proof.
  destruct BreakDestination_resolves as [_ Hdest].
  destruct (Hdest (-1) sample 1%nat 0 0%nat
              (BreakableBlock.mk 0 NULL NULL (Some 0%nat) 0 0) sample_wf)
    as (a & block & Hs & Ha & _ & Hr & inst & s1 & block1 & H1 & _ & Hfirst
        & _ & _ & _ & H2 & _).
  - eexists. reflexivity.
  - eapply encloses_outer; [reflexivity |]. eapply encloses_self. reflexivity.
  - reflexivity.
  - reflexivity.
  - assert (a = 0%nat) as ->.
    { apply Hr. intros [| [| n]] b Hb; simpl in Hb; try discriminate;
        injection Hb as <-; simpl; [reflexivity |].
      eexists. split; reflexivity. }
    injection Ha as <-. exists inst, s1.
    split; [exact H1 |]. split; [| exact H2]. apply Hfirst. reflexivity.
Defined.

(** ** Scoped construction and destruction of trackers *)

Lemma TryCatchBlock_ctor_inv i s this s' :
  TryCatchBlock_ctor i s = (this, s') ->
  this = length s.(FlowGraphBuilder.try_catch_blocks)
  /\ s'.(FlowGraphBuilder.try_catch_block_) = Some this
  /\ s'.(FlowGraphBuilder.try_catch_blocks)
     = s.(FlowGraphBuilder.try_catch_blocks)
         ++ [TryCatchBlock.mk s.(FlowGraphBuilder.try_catch_block_)
               (if i =? -1 then s.(FlowGraphBuilder.next_used_try_index_)
                else i)]
  /\ s'.(FlowGraphBuilder.next_used_try_index_)
     = (if i =? -1
        then IntPtr.add s.(FlowGraphBuilder.next_used_try_index_) 1
        else s.(FlowGraphBuilder.next_used_try_index_)).
Proof.
  unfold TryCatchBlock_ctor, FlowGraphBuilder.AllocateTryIndex.
  destruct s; destruct (i =? -1); simpl; intros [= <- <-]; repeat split.
Qed.

Lemma CatchBlock_ctor_inv e t i s this s' :
  CatchBlock_ctor e t i s = (this, s') ->
  this = length s.(FlowGraphBuilder.catch_blocks)
  /\ s'.(FlowGraphBuilder.catch_block_) = Some this
  /\ s'.(FlowGraphBuilder.catch_blocks)
     = s.(FlowGraphBuilder.catch_blocks)
         ++ [CatchBlock.mk s.(FlowGraphBuilder.catch_block_) e t i].
Proof.
  unfold CatchBlock_ctor. destruct s; simpl; intros [= <- <-]; repeat split.
Qed.

Lemma CurrentTryIndex_total kInv s :
  points_into s.(FlowGraphBuilder.try_catch_blocks)
    s.(FlowGraphBuilder.try_catch_block_) ->
  exists try_index, FlowGraphBuilder.CurrentTryIndex kInv s = Some try_index.
Proof.
  intros Hp. unfold FlowGraphBuilder.CurrentTryIndex.
  destruct (FlowGraphBuilder.try_catch_block_ s) as [a |]; [| eauto].
  destruct (lookup_lt_is_Some_2 s.(FlowGraphBuilder.try_catch_blocks) a
              (Hp a eq_refl)) as [block Hb].
  rewrite Hb. simpl. eauto.
Qed.

(** In a builder whose innermost pointers are valid, the constructors that
    read through them do construct. *)
Lemma TryFinallyBlock_ctor_total kInv off s :
  points_into s.(FlowGraphBuilder.try_catch_blocks)
    s.(FlowGraphBuilder.try_catch_block_) ->
  exists this s1, TryFinallyBlock_ctor kInv off s = Some (this, s1).
Proof.
  intros Hp. destruct (CurrentTryIndex_total kInv s Hp) as [ti Hti].
  unfold TryFinallyBlock_ctor. rewrite Hti. simpl. eauto.
Qed.

Lemma SwitchBlock_ctor_total kInv n s :
  points_into s.(FlowGraphBuilder.try_catch_blocks)
    s.(FlowGraphBuilder.try_catch_block_) ->
  points_into s.(FlowGraphBuilder.switch_blocks)
    s.(FlowGraphBuilder.switch_block_) ->
  exists this s1, SwitchBlock_ctor kInv n s = Some (this, s1).
Proof.
  intros Hp Hsw. destruct (CurrentTryIndex_total kInv s Hp) as [ti Hti].
  unfold SwitchBlock_ctor. rewrite Hti. simpl.
  destruct (FlowGraphBuilder.switch_block_ s) as [o |] eqn:Ho; simpl;
    [| eauto].
  destruct (lookup_lt_is_Some_2 s.(FlowGraphBuilder.switch_blocks) o
              (Hsw o eq_refl)) as [ob Hob].
  rewrite Hob. simpl. eauto.
Qed.

Lemma BreakableBlock_ctor_total kInv s :
  points_into s.(FlowGraphBuilder.try_catch_blocks)
    s.(FlowGraphBuilder.try_catch_block_) ->
  points_into s.(FlowGraphBuilder.breakable_blocks)
    s.(FlowGraphBuilder.breakable_block_) ->
  exists this s1, BreakableBlock_ctor kInv s = Some (this, s1).
Proof.
  intros Hp Hbr. destruct (CurrentTryIndex_total kInv s Hp) as [ti Hti].
  unfold BreakableBlock_ctor. rewrite Hti. simpl.
  destruct (FlowGraphBuilder.breakable_block_ s) as [o |] eqn:Ho; simpl;
    [| eauto].
  destruct (lookup_lt_is_Some_2 s.(FlowGraphBuilder.breakable_blocks) o
              (Hbr o eq_refl)) as [ob Hob].
  rewrite Hob. simpl. eauto.
Qed.

(** Every operation keeps the chain of exception-protected regions well
    formed and the builder's pointer into it valid. *)
Lemma step_try_catch_valid kInv op s s' :
  chain_ok TryCatchBlock.outer_ s.(FlowGraphBuilder.try_catch_blocks) ->
  points_into s.(FlowGraphBuilder.try_catch_blocks)
    s.(FlowGraphBuilder.try_catch_block_) ->
  step kInv op s = Some s' ->
  chain_ok TryCatchBlock.outer_ s'.(FlowGraphBuilder.try_catch_blocks)
  /\ points_into s'.(FlowGraphBuilder.try_catch_blocks)
       s'.(FlowGraphBuilder.try_catch_block_).
Proof.
  intros Hok Hp.
  assert (forall a c i,
             SwitchBlock_EnsureDestination a c s = Some (i, s') ->
             chain_ok TryCatchBlock.outer_
               s'.(FlowGraphBuilder.try_catch_blocks)
             /\ points_into s'.(FlowGraphBuilder.try_catch_blocks)
                  s'.(FlowGraphBuilder.try_catch_block_)) as Hswitch.
  { intros a c i He.
    apply SwitchBlock_EnsureDestination_inv in He
      as (self & Ha & [-> | [_ ->]]); [auto |].
    unfold_trackers. destruct s; simpl in *. auto. }
  destruct op; simpl; intros H.
  - injection H as <-.
    unfold TryCatchBlock_ctor, FlowGraphBuilder.AllocateTryIndex,
      points_into in *.
    destruct s; destruct (_ =? _); simpl in *;
      (split; [apply chain_ok_snoc; auto
              | intros a [= <-]; rewrite length_app; simpl; lia]).
  - unfold TryCatchBlock_dtor, points_into in *.
    destruct s; simplify_option_eq. split; [exact Hok |].
    intros a Ha.
    match goal with
    | Hl : _ !! this = Some _ |- _ =>
        pose proof (Hok _ _ _ Hl Ha); apply lookup_lt_Some in Hl; lia
    end.
  - unfold_trackers. destruct s; simpl in *; repeat case_match;
      simplify_option_eq; auto.
  - unfold_trackers. destruct s; simplify_option_eq. auto.
  - unfold_trackers. destruct s; simpl in *; repeat case_match;
      simplify_option_eq; auto.
  - unfold_trackers. destruct s; simplify_option_eq. auto.
  - destruct (SwitchBlock_Destination _ _ _ _ s) as [[[i o] s1] |] eqn:Hc;
      simplify_eq/=.
    destruct (SwitchBlock_Destination_inv _ _ _ _ _ _ _ _ (or_introl Hc))
      as (a & c & He). eauto.
  - destruct (SwitchBlock_DestinationDirect _ _ _ _ s) as [[[i o] s1] |] eqn:Hc;
      simplify_eq/=.
    destruct (SwitchBlock_Destination_inv _ _ _ _ _ _ _ _ (or_intror Hc))
      as (a & c & He). eauto.
  - unfold_trackers. destruct s; simpl in *; repeat case_match;
      simplify_option_eq; auto.
  - unfold_trackers. destruct s; simplify_option_eq. auto.
  - destruct (BreakableBlock_BreakDestination _ _ s) as [[[i o] s1] |] eqn:Hc;
      simplify_eq/=.
    destruct (BreakableBlock_BreakDestination_inv _ _ _ _ _ _ Hc) as (a & He).
    apply BreakableBlock_EnsureDestination_inv in He
      as (self & Ha & [-> | [_ ->]]); [auto |].
    unfold_trackers. destruct s; simpl in *. auto.
  - injection H as <-. unfold CatchBlock_ctor. destruct s; simpl in *. auto.
  - unfold_trackers. destruct s; simplify_option_eq. auto.
  - injection H as <-. unfold_trackers. destruct s; simpl in *. auto.
  - injection H as <-. unfold_trackers. destruct s; simpl in *. auto.
  - case_decide; simplify_eq. destruct s; simpl in *. auto.
  - case_decide; simplify_eq. destruct s; simpl in *. auto.
Qed.

Lemma run_try_catch_valid kInv ops s s' :
  chain_ok TryCatchBlock.outer_ s.(FlowGraphBuilder.try_catch_blocks) ->
  points_into s.(FlowGraphBuilder.try_catch_blocks)
    s.(FlowGraphBuilder.try_catch_block_) ->
  run kInv ops s = Some s' ->
  chain_ok TryCatchBlock.outer_ s'.(FlowGraphBuilder.try_catch_blocks)
  /\ points_into s'.(FlowGraphBuilder.try_catch_blocks)
       s'.(FlowGraphBuilder.try_catch_block_).
Proof.
  revert s. induction ops as [| op ops IH]; simpl; intros s Hok Hp H.
  - injection H as <-. auto.
  - destruct (step kInv op s) as [s1 |] eqn:Hs; simpl in H; [| discriminate].
    destruct (step_try_catch_valid _ _ _ _ Hok Hp Hs) as [Hok1 Hp1].
    eapply IH; eauto.
Qed.

(** In every state a translation reaches from a new builder, the innermost
    pointers the constructors read through are valid. *)
Lemma reachable_points_into kInv n ops s :
  run kInv ops (FlowGraphBuilder.init n) = Some s ->
  points_into s.(FlowGraphBuilder.try_catch_blocks)
    s.(FlowGraphBuilder.try_catch_block_)
  /\ points_into s.(FlowGraphBuilder.switch_blocks)
       s.(FlowGraphBuilder.switch_block_)
  /\ points_into s.(FlowGraphBuilder.breakable_blocks)
       s.(FlowGraphBuilder.breakable_block_).
Proof.
  intros Hrun.
  destruct (run_try_catch_valid kInv ops (FlowGraphBuilder.init n) s)
    as [_ Hp]; [| | exact Hrun |].
  - intros a b o Ha. inversion Ha.
  - intros a Ha. discriminate Ha.
  - pose proof (run_wf _ _ _ _ (init_wf n) Hrun) as [_ Hsw _ Hbr].
    split; [exact Hp |]. split; [exact Hsw | exact Hbr].
Qed.

(** C4: in a builder whose innermost pointers are valid, constructing a
    tracker of any of the five kinds succeeds and makes the new tracker the
    builder's innermost one of its kind, with the previous innermost one as
    its outer; whatever the translator does afterwards, and however far it
    got, destroying the tracker puts the previous innermost tracker back
    and changes nothing else. *)
Theorem trackers_link_and_restore (kInv : Z) (s : FlowGraphBuilder.t) :
  (forall i, exists this s1,
      TryCatchBlock_ctor i s = (this, s1)
      /\ s1.(FlowGraphBuilder.try_catch_block_) = Some this
      /\ (exists self,
            s1.(FlowGraphBuilder.try_catch_blocks) !! this = Some self
            /\ TryCatchBlock.outer self = s.(FlowGraphBuilder.try_catch_block_))
      /\ forall ops s2,
           run kInv ops s1 = Some s2 ->
           TryCatchBlock_dtor this s2
           = Some (FlowGraphBuilder.set_try_catch_block_
                     s.(FlowGraphBuilder.try_catch_block_) s2))
  /\ (points_into s.(FlowGraphBuilder.try_catch_blocks)
        s.(FlowGraphBuilder.try_catch_block_) ->
      forall off, exists this s1,
      TryFinallyBlock_ctor kInv off s = Some (this, s1)
      /\ s1.(FlowGraphBuilder.try_finally_block_) = Some this
      /\ (exists self,
            s1.(FlowGraphBuilder.try_finally_blocks) !! this = Some self
            /\ TryFinallyBlock.outer self
               = s.(FlowGraphBuilder.try_finally_block_))
      /\ forall ops s2,
           run kInv ops s1 = Some s2 ->
           TryFinallyBlock_dtor this s2
           = Some (FlowGraphBuilder.set_try_finally_block_
                     s.(FlowGraphBuilder.try_finally_block_) s2))
  /\ (points_into s.(FlowGraphBuilder.try_catch_blocks)
        s.(FlowGraphBuilder.try_catch_block_) ->
      points_into s.(FlowGraphBuilder.switch_blocks)
        s.(FlowGraphBuilder.switch_block_) ->
      forall n, exists this s1,
      SwitchBlock_ctor kInv n s = Some (this, s1)
      /\ s1.(FlowGraphBuilder.switch_block_) = Some this
      /\ (exists self,
            s1.(FlowGraphBuilder.switch_blocks) !! this = Some self
            /\ self.(SwitchBlock.outer_) = s.(FlowGraphBuilder.switch_block_))
      /\ forall ops s2,
           run kInv ops s1 = Some s2 ->
           SwitchBlock_dtor this s2
           = Some (FlowGraphBuilder.set_switch_block_
                     s.(FlowGraphBuilder.switch_block_) s2))
  /\ (points_into s.(FlowGraphBuilder.try_catch_blocks)
        s.(FlowGraphBuilder.try_catch_block_) ->
      points_into s.(FlowGraphBuilder.breakable_blocks)
        s.(FlowGraphBuilder.breakable_block_) ->
      exists this s1,
      BreakableBlock_ctor kInv s = Some (this, s1)
      /\ s1.(FlowGraphBuilder.breakable_block_) = Some this
      /\ (exists self,
            s1.(FlowGraphBuilder.breakable_blocks) !! this = Some self
            /\ self.(BreakableBlock.outer_)
               = s.(FlowGraphBuilder.breakable_block_))
      /\ forall ops s2,
           run kInv ops s1 = Some s2 ->
           BreakableBlock_dtor this s2
           = Some (FlowGraphBuilder.set_breakable_block_
                     s.(FlowGraphBuilder.breakable_block_) s2))
  /\ (forall e t i, exists this s1,
      CatchBlock_ctor e t i s = (this, s1)
      /\ s1.(FlowGraphBuilder.catch_block_) = Some this
      /\ (exists self,
            s1.(FlowGraphBuilder.catch_blocks) !! this = Some self
            /\ self.(CatchBlock.outer_) = s.(FlowGraphBuilder.catch_block_))
      /\ forall ops s2,
           run kInv ops s1 = Some s2 ->
           CatchBlock_dtor this s2
           = Some (FlowGraphBuilder.set_catch_block_
                     s.(FlowGraphBuilder.catch_block_) s2)).
Proof.
  split; [| split; [| split; [| split]]].
  - intros i.
    destruct (TryCatchBlock_ctor i s) as [this s1] eqn:H.
    exists this, s1. split; [reflexivity |].
    apply TryCatchBlock_ctor_inv in H as (-> & Htop & Hst & _).
    assert (s1.(FlowGraphBuilder.try_catch_blocks)
              !! length s.(FlowGraphBuilder.try_catch_blocks)
            = Some (TryCatchBlock.mk s.(FlowGraphBuilder.try_catch_block_)
                      (if i =? -1
                       then s.(FlowGraphBuilder.next_used_try_index_)
                       else i))) as Hself
      by (rewrite Hst; apply lookup_snoc_length).
    split; [exact Htop |]. split; [eauto |].
    intros ops s2 Hrun.
    destruct (run_kept _ _ _ _ Hrun) as (Hk & _).
    destruct (Hk _ _ Hself) as (self2 & H2 & <-).
    unfold TryCatchBlock_dtor. rewrite H2. reflexivity.
  - intros Hp off.
    destruct (TryFinallyBlock_ctor_total kInv off s Hp) as (this & s1 & H).
    exists this, s1. split; [exact H |].
    apply TryFinallyBlock_ctor_inv in H as (ti & _ & -> & Htop & Hst).
    pose proof (lookup_snoc_length s.(FlowGraphBuilder.try_finally_blocks)
                  (TryFinallyBlock.mk s.(FlowGraphBuilder.try_finally_block_)
                     off s.(FlowGraphBuilder.context_depth_)
                     (IntPtr.sub s.(FlowGraphBuilder.try_depth_) 1) ti))
      as Hself.
    rewrite <- Hst in Hself.
    split; [exact Htop |]. split; [eauto |].
    intros ops s2 Hrun.
    destruct (run_kept _ _ _ _ Hrun) as (_ & Hk & _).
    destruct (Hk _ _ Hself) as (self2 & H2 & <-).
    unfold TryFinallyBlock_dtor. rewrite H2. reflexivity.
  - intros Hp Hsw n.
    destruct (SwitchBlock_ctor_total kInv n s Hp Hsw) as (this & s1 & H).
    exists this, s1. split; [exact H |].
    apply SwitchBlock_ctor_inv in H as (ti & depth & _ & _ & -> & ->).
    match goal with
    | |- context [?l ++ [?x]] => pose proof (lookup_snoc_length l x) as Hself
    end.
    clear Hp Hsw. destruct s; simpl in *.
    split; [reflexivity |]. split; [eauto |].
    intros ops s2 Hrun.
    destruct (run_kept _ _ _ _ Hrun) as (_ & _ & Hk & _).
    destruct (Hk _ _ Hself) as (self2 & H2 & Ho & _). simpl in Ho.
    unfold SwitchBlock_dtor. rewrite H2. simpl. rewrite Ho. reflexivity.
  - intros Hp Hbr.
    destruct (BreakableBlock_ctor_total kInv s Hp Hbr) as (this & s1 & H).
    exists this, s1. split; [exact H |].
    apply BreakableBlock_ctor_inv in H as (ti & index & _ & _ & -> & ->).
    match goal with
    | |- context [?l ++ [?x]] => pose proof (lookup_snoc_length l x) as Hself
    end.
    clear Hp Hbr. destruct s; simpl in *.
    split; [reflexivity |]. split; [eauto |].
    intros ops s2 Hrun.
    destruct (run_kept _ _ _ _ Hrun) as (_ & _ & _ & Hk & _).
    destruct (Hk _ _ Hself) as (self2 & H2 & _ & Ho & _). simpl in Ho.
    unfold BreakableBlock_dtor. rewrite H2. simpl. rewrite Ho. reflexivity.
  - intros e t i.
    destruct (CatchBlock_ctor e t i s) as [this s1] eqn:H.
    exists this, s1. split; [reflexivity |].
    apply CatchBlock_ctor_inv in H as (-> & Htop & Hst).
    pose proof (lookup_snoc_length s.(FlowGraphBuilder.catch_blocks)
                  (CatchBlock.mk s.(FlowGraphBuilder.catch_block_) e t i))
      as Hself.
    rewrite <- Hst in Hself.
    split; [exact Htop |]. split; [eauto |].
    intros ops s2 Hrun.
    destruct (run_kept _ _ _ _ Hrun) as (_ & _ & _ & _ & Hk).
    destruct (Hk _ _ Hself) as (self2 & H2 & <-).
    unfold CatchBlock_dtor. rewrite H2. reflexivity.
Qed.

Lemma trackers_link_and_restore_witness :
  (exists s1 s2,
      TryCatchBlock_ctor (-1) sample = (1%nat, s1)
      /\ run (-1) sample_body s1 = Some s2
      /\ s2.(FlowGraphBuilder.try_catch_block_) = Some 2%nat
      /\ TryCatchBlock_dtor 1%nat s2
         = Some (FlowGraphBuilder.set_try_catch_block_ (Some 0%nat) s2))
  /\ (exists s1 s2,
      TryFinallyBlock_ctor (-1) 50 sample = Some (1%nat, s1)
      /\ run (-1) sample_body s1 = Some s2
      /\ s2.(FlowGraphBuilder.try_finally_block_) = Some 2%nat
      /\ TryFinallyBlock_dtor 1%nat s2
         = Some (FlowGraphBuilder.set_try_finally_block_ (Some 0%nat) s2))
  /\ (exists s1 s2,
      SwitchBlock_ctor (-1) 4 sample = Some (2%nat, s1)
      /\ run (-1) sample_body s1 = Some s2
      /\ s2.(FlowGraphBuilder.switch_block_) = Some 3%nat
      /\ SwitchBlock_dtor 2%nat s2
         = Some (FlowGraphBuilder.set_switch_block_ (Some 1%nat) s2))
  /\ (exists s1 s2,
      BreakableBlock_ctor (-1) sample = Some (2%nat, s1)
      /\ run (-1) sample_body s1 = Some s2
      /\ s2.(FlowGraphBuilder.breakable_block_) = Some 3%nat
      /\ BreakableBlock_dtor 2%nat s2
         = Some (FlowGraphBuilder.set_breakable_block_ (Some 1%nat) s2))
  /\ (exists s1 s2,
      CatchBlock_ctor (Some 7%nat) (Some 8%nat) 0 sample = (0%nat, s1)
      /\ run (-1) sample_body s1 = Some s2
      /\ s2.(FlowGraphBuilder.catch_block_) = Some 1%nat
      /\ CatchBlock_dtor 0%nat s2
         = Some (FlowGraphBuilder.set_catch_block_ NULL s2)).
Proof.
  destruct (reachable_points_into _ _ _ _ sample_run) as (Hp & Hsw & Hbr).
  destruct (trackers_link_and_restore (-1) sample)
    as (Htc & Htf & Hswitch & Hbreak & Hcatch).
  split; [| split; [| split; [| split]]].
  - destruct (Htc (-1)) as (this & s1 & Hc & _ & _ & Hd).
    vm_compute in Hc. injection Hc as <- <-.
    eexists _, _. split; [vm_compute; reflexivity |].
    split; [vm_compute; reflexivity |]. split; [reflexivity |].
    apply (Hd sample_body). vm_compute. reflexivity.
  - destruct (Htf Hp 50) as (this & s1 & Hc & _ & _ & Hd).
    vm_compute in Hc. injection Hc as <- <-.
    eexists _, _. split; [vm_compute; reflexivity |].
    split; [vm_compute; reflexivity |]. split; [reflexivity |].
    apply (Hd sample_body). vm_compute. reflexivity.
  - destruct (Hswitch Hp Hsw 4) as (this & s1 & Hc & _ & _ & Hd).
    vm_compute in Hc. injection Hc as <- <-.
    eexists _, _. split; [vm_compute; reflexivity |].
    split; [vm_compute; reflexivity |]. split; [reflexivity |].
    apply (Hd sample_body). vm_compute. reflexivity.
  - destruct (Hbreak Hp Hbr) as (this & s1 & Hc & _ & _ & Hd).
    vm_compute in Hc. injection Hc as <- <-.
    eexists _, _. split; [vm_compute; reflexivity |].
    split; [vm_compute; reflexivity |]. split; [reflexivity |].
    apply (Hd sample_body). vm_compute. reflexivity.
  - destruct (Hcatch (Some 7%nat) (Some 8%nat) 0)
      as (this & s1 & Hc & _ & _ & Hd).
    vm_compute in Hc. injection Hc as <- <-.
    eexists _, _. split; [vm_compute; reflexivity |].
    split; [vm_compute; reflexivity |]. split; [reflexivity |].
    apply (Hd sample_body). vm_compute. reflexivity.
Defined.

(** ** Try indices *)

(** C8: an exception-protected region built without a handler index takes
    the builder's next try index and records the previously innermost
    region as its outer; successive results of [AllocateTryIndex] increase
    strictly, so two such regions of one translation never share a try
    index.  (The counter is assumed not to run past the largest
    [intptr_t].) *)
Theorem TryCatchBlock_fresh_try_index (kInv : Z) (s : FlowGraphBuilder.t)
    (ops : list Op) :
  IntPtr.min <= s.(FlowGraphBuilder.next_used_try_index_) ->
  s.(FlowGraphBuilder.next_used_try_index_) + Z.of_nat (length ops) + 1
    <= IntPtr.max ->
  (forall s2,
      run kInv ops (FlowGraphBuilder.AllocateTryIndex s).2 = Some s2 ->
      (FlowGraphBuilder.AllocateTryIndex s).1
      < (FlowGraphBuilder.AllocateTryIndex s2).1)
  /\ (forall this1 s1 s2 this2 s3,
      TryCatchBlock_ctor (-1) s = (this1, s1) ->
      run kInv ops s1 = Some s2 ->
      TryCatchBlock_ctor (-1) s2 = (this2, s3) ->
      exists self1 self2,
        s3.(FlowGraphBuilder.try_catch_blocks) !! this1 = Some self1
        /\ s3.(FlowGraphBuilder.try_catch_blocks) !! this2 = Some self2
        /\ TryCatchBlock.try_index self1
           = s.(FlowGraphBuilder.next_used_try_index_)
        /\ TryCatchBlock.outer self1 = s.(FlowGraphBuilder.try_catch_block_)
        /\ TryCatchBlock.outer self2 = s2.(FlowGraphBuilder.try_catch_block_)
        /\ TryCatchBlock.try_index self1 < TryCatchBlock.try_index self2
        /\ this1 <> this2).
Proof.
  intros Hlo Hhi.
  assert (IntPtr.add s.(FlowGraphBuilder.next_used_try_index_) 1
          = s.(FlowGraphBuilder.next_used_try_index_) + 1) as Hadd.
  { apply wrap_in_range. unfold IntPtr.in_range. lia. }
  split.
  - intros s2 Hrun.
    apply run_try_index in Hrun; destruct s; simpl in *; lia.
  - intros this1 s1 s2 this2 s3 H1 Hrun H2.
    apply TryCatchBlock_ctor_inv in H1 as (-> & _ & Hst1 & Hn1).
    apply TryCatchBlock_ctor_inv in H2 as (-> & _ & Hst3 & _).
    simpl in *.
    pose proof (lookup_snoc_length s.(FlowGraphBuilder.try_catch_blocks)
                  (TryCatchBlock.mk s.(FlowGraphBuilder.try_catch_block_)
                     s.(FlowGraphBuilder.next_used_try_index_))) as Hself1.
    rewrite <- Hst1 in Hself1.
    destruct (run_kept _ _ _ _ Hrun) as (Hk & _).
    destruct (Hk _ _ Hself1) as (self & Hs2 & <-).
    pose proof (lookup_lt_Some _ _ _ Hs2) as Hlt.
    apply run_try_index in Hrun; [| lia | lia].
    eexists _, _. rewrite Hst3.
    split; [rewrite lookup_app_l by exact Hlt; exact Hs2 |].
    split; [apply lookup_snoc_length |]. simpl.
    repeat split; lia.
Qed.

Lemma TryCatchBlock_fresh_try_index_witness :
  exists s1 s2 s3 self1 self2,
    TryCatchBlock_ctor (-1) (FlowGraphBuilder.init 0) = (0%nat, s1)
    /\ run (-1) [EnterTryFinally 40; LeaveTryCatch 0%nat; AllocateTryIndex] s1
       = Some s2
    /\ TryCatchBlock_ctor (-1) s2 = (1%nat, s3)
    /\ s3.(FlowGraphBuilder.try_catch_blocks) !! 0%nat = Some self1
    /\ s3.(FlowGraphBuilder.try_catch_blocks) !! 1%nat = Some self2
    /\ TryCatchBlock.try_index self1 < TryCatchBlock.try_index self2.
Proof.
  destruct (TryCatchBlock_fresh_try_index (-1) (FlowGraphBuilder.init 0)
              [EnterTryFinally 40; LeaveTryCatch 0%nat; AllocateTryIndex])
    as [_ H].
  - vm_compute. congruence.
  - vm_compute. congruence.
  - destruct (H 0%nat _ _ 1%nat _ eq_refl eq_refl eq_refl)
      as (self1 & self2 & H1 & H2 & _ & _ & _ & Hlt & _).
    eexists _, _, _, self1, self2.
    split; [reflexivity |]. split; [reflexivity |]. split; [reflexivity |].
    split; [exact H1 |]. split; [exact H2 | exact Hlt].
Defined.

(** * Further properties of the header *)

(** ** Keys of the kernel constants map *)

Section KernelConstMapKeys.
Context {Smi : Type} `{EqDecision Smi}.
Context (Value : Smi -> Z) (New : Z -> Smi) (kMaxValue : Z).
Hypothesis Value_New : forall k, 0 <= k <= kMaxValue -> Value (New k) = k.
Hypothesis Value_inj : forall a b, Value a = Value b -> a = b.

(** X1: the hash agrees with the match: keys that match hash alike; on a
    non-negative key that fits a Smi the [intptr_t] overloads of [IsMatch]
    and [Hash] give what the object overloads give on [NewKey(key)]; and
    the hash of such a key is the key modulo [kMaxValue - 13]. *)
Theorem KernelConstMapKeys_consistent :
  (forall a b,
      KernelConstMapKeyEqualsTraits.IsMatch Value a b = true ->
      KernelConstMapKeyEqualsTraits.Hash Value kMaxValue a
      = KernelConstMapKeyEqualsTraits.Hash Value kMaxValue b)
  /\ (forall key b,
      0 <= key <= kMaxValue ->
      KernelConstMapKeyEqualsTraits.IsMatch_key New key b
      = KernelConstMapKeyEqualsTraits.IsMatch Value
          (KernelConstMapKeyEqualsTraits.NewKey New key) b
      /\ KernelConstMapKeyEqualsTraits.Hash_key Value New kMaxValue key
         = KernelConstMapKeyEqualsTraits.Hash Value kMaxValue
             (KernelConstMapKeyEqualsTraits.NewKey New key))
  /\ (forall key,
      13 < kMaxValue < 2 ^ 63 -> 0 <= key <= kMaxValue ->
      KernelConstMapKeyEqualsTraits.Hash_key Value New kMaxValue key
      = key `mod` (kMaxValue - 13)
      /\ 0 <= KernelConstMapKeyEqualsTraits.Hash_key Value New kMaxValue key
         < kMaxValue - 13).
Proof.
  unfold KernelConstMapKeyEqualsTraits.IsMatch,
    KernelConstMapKeyEqualsTraits.IsMatch_key,
    KernelConstMapKeyEqualsTraits.Hash,
    KernelConstMapKeyEqualsTraits.Hash_key,
    KernelConstMapKeyEqualsTraits.NewKey,
    KernelConstMapKeyEqualsTraits.KeyAsSmi.
  split; [| split].
  - intros a b Hm. apply Z.eqb_eq in Hm. rewrite Hm. reflexivity.
  - intros key b Hkey. split; [| reflexivity].
    rewrite (Value_New key Hkey).
    destruct (Z.eqb_spec key (Value b)) as [He | Hne].
    + apply bool_decide_eq_true. apply Value_inj.
      rewrite (Value_New key Hkey). exact He.
    + apply bool_decide_eq_false. intros <-.
      rewrite (Value_New key Hkey) in Hne. congruence.
  - intros key HM Hkey. rewrite (Value_New key Hkey).
    unfold KernelConstMapKeyEqualsTraits.HashValue,
      KernelConstMapKeyEqualsTraits.uword.
    rewrite Z.rem_mod_nonneg by lia.
    pose proof (Z.mod_pos_bound key (kMaxValue - 13)) as Hb.
    rewrite Z.mod_small by lia. split; [reflexivity | lia].
Qed.
End KernelConstMapKeys.

Lemma KernelConstMapKeys_consistent_witness :
  KernelConstMapKeyEqualsTraits.Hash_key id id (2 ^ 62 - 1) (2 ^ 62 - 10) = 4
  /\ KernelConstMapKeyEqualsTraits.IsMatch_key id 7 7
     = KernelConstMapKeyEqualsTraits.IsMatch id
         (KernelConstMapKeyEqualsTraits.NewKey id 7) 7.
Proof.
  destruct (KernelConstMapKeys_consistent (Smi:=Z) id id (2 ^ 62 - 1))
    as (_ & Hkey & Hhash).
  - intros k _. reflexivity.
  - intros a b Hab. exact Hab.
  - split.
    + destruct (Hhash (2 ^ 62 - 10)) as [Hh _]; [lia | lia |].
      rewrite Hh. reflexivity.
    + apply (Hkey 7 7). lia.
Defined.

(** ** Insertion and lookup in the hash-map wrappers *)

Lemma raw_inserts_found {V} (kvs : list (nat * V)) (k : nat) (v : V) :
  NoDup kvs.*1 -> (k, v) ∈ kvs ->
  DirectChainedHashMap.Lookup (RawPointerKeyValueTrait V) k
    (Map_of_inserts kvs) = Some (mkPair k v).
Proof.
  induction kvs as [| [k0 v0] kvs IH]; simpl; intros Hnd Hin;
    [inversion Hin |].
  apply NoDup_cons in Hnd as [Hfresh Hnd].
  unfold Map.Insert, DirectChainedHashMap.Insert,
    DirectChainedHashMap.Lookup. simpl.
  apply elem_of_cons in Hin as [[= -> ->] | Hin].
  - rewrite Nat.eqb_refl. reflexivity.
  - destruct (Nat.eqb_spec k0 k) as [-> | _]; [| exact (IH Hnd Hin)].
    exfalso. apply Hfresh. apply list_elem_of_fmap. exists (k, v). auto.
Qed.

Lemma int_inserts_found {V} (kvs : list (Z * V)) (k : Z) (v : V) :
  NoDup kvs.*1 -> (k, v) ∈ kvs ->
  DirectChainedHashMap.Lookup (IntKeyRawPointerValueTrait V) k
    (IntMap_of_inserts kvs) = Some (mkPair k v).
Proof.
  induction kvs as [| [k0 v0] kvs IH]; simpl; intros Hnd Hin;
    [inversion Hin |].
  apply NoDup_cons in Hnd as [Hfresh Hnd].
  unfold IntMap.Insert, DirectChainedHashMap.Insert,
    DirectChainedHashMap.Lookup. simpl.
  apply elem_of_cons in Hin as [[= -> ->] | Hin].
  - rewrite Z.eqb_refl. reflexivity.
  - destruct (Z.eqb_spec k0 k) as [-> | _]; [| exact (IH Hnd Hin)].
    exfalso. apply Hfresh. apply list_elem_of_fmap. exists (k, v). auto.
Qed.

(** X2: in a [Map], [IntMap] or [MallocMap] filled by inserting different
    keys, [Lookup] of every inserted key gives the value inserted with it
    and [LookupPair] gives the pair.  Values equal to [V()] are left out:
    [Lookup] answers [V()] for a missing key, so it could not tell them
    apart. *)
Theorem wrappers_Lookup_inserted :
  (forall V (D : DefaultConstructible V) (kvs : list (nat * V)) k v,
      NoDup kvs.*1 ->
      Forall (fun kv => kv.2 <> default_value) kvs ->
      (k, v) ∈ kvs ->
      Map.Lookup k (Map_of_inserts kvs) = v
      /\ Map.LookupPair k (Map_of_inserts kvs) = Some (mkPair k v))
  /\ (forall V (D : DefaultConstructible V) (kvs : list (Z * V)) k v,
      NoDup kvs.*1 ->
      Forall (fun kv => kv.2 <> default_value) kvs ->
      (k, v) ∈ kvs ->
      IntMap.Lookup k (IntMap_of_inserts kvs) = v
      /\ IntMap.LookupPair k (IntMap_of_inserts kvs) = Some (mkPair k v))
  /\ (forall V (D : DefaultConstructible V) (kvs : list (nat * V)) k v,
      NoDup kvs.*1 ->
      Forall (fun kv => kv.2 <> default_value) kvs ->
      (k, v) ∈ kvs ->
      MallocMap.Lookup k (MallocMap_of_inserts kvs) = v
      /\ MallocMap.LookupPair k (MallocMap_of_inserts kvs)
         = Some (mkPair k v)).
Proof.
  split; [| split]; intros V D kvs k v Hnd _ Hin.
  - unfold Map.Lookup, Map.LookupPair.
    rewrite (raw_inserts_found kvs k v Hnd Hin). split; reflexivity.
  - unfold IntMap.Lookup, IntMap.LookupPair.
    rewrite (int_inserts_found kvs k v Hnd Hin). split; reflexivity.
  - unfold MallocMap.Lookup, MallocMap.LookupPair,
      MallocDirectChainedHashMap.Lookup.
    pose proof (raw_inserts_found kvs k v Hnd Hin) as E.
    change (Map_of_inserts kvs) with (MallocMap_of_inserts kvs) in E.
    rewrite E. split; reflexivity.
Qed.

Lemma wrappers_Lookup_inserted_witness :
  IntMap.Lookup 4
    (IntMap_of_inserts [(7, Some 1%nat); (4, Some 9%nat); (0, Some 3%nat)])
  = Some 9%nat
  /\ IntMap.LookupPair 4
       (IntMap_of_inserts [(7, Some 1%nat); (4, Some 9%nat); (0, Some 3%nat)])
     = Some (mkPair 4 (Some 9%nat)).
Proof.
  destruct wrappers_Lookup_inserted as (_ & HInt & _).
  apply (HInt _ ptr_default
           [(7, Some 1%nat); (4, Some 9%nat); (0, Some 3%nat)]).
  - apply (bool_decide_unpack _). vm_compute. exact I.
  - repeat constructor; simpl; discriminate.
  - apply (bool_decide_unpack _). vm_compute. exact I.
Defined.

(** ** Nested active-class scope guards *)

(** X3: a member scope opened inside a class scope on the same active class
    sees the new class and the new member; destroyed in reverse order of
    construction the two guards give the store back as it was, but when the
    class scope is destroyed first the member scope then writes back a
    state that still has the class of the class scope. *)
Theorem ActiveClass_scopes_nest (p : nat) (ac : ActiveClass.t)
    (store : gmap nat ActiveClass.t) (klass member : ptr) :
  store !! p = Some ac ->
  exists g1 store1 g2 store2,
    ActiveClassScope.ctor p klass store = Some (g1, store1)
    /\ ActiveMemberScope.ctor p member store1 = Some (g2, store2)
    /\ store2 !! p
       = Some (ActiveClass.mk klass member ac.(ActiveClass.enclosing)
                 ac.(ActiveClass.local_type_parameters))
    /\ (forall now, store2 !! p = Some now ->
          ActiveClass.HasMember now = negb (is_null member))
    /\ ActiveClassScope.dtor g1 (ActiveMemberScope.dtor g2 store2) = store
    /\ ActiveMemberScope.dtor g2 (ActiveClassScope.dtor g1 store2) !! p
       = Some (ActiveClass.mk klass ac.(ActiveClass.member)
                 ac.(ActiveClass.enclosing)
                 ac.(ActiveClass.local_type_parameters)).
Proof.
  intros Hp. unfold ActiveClassScope.ctor. rewrite Hp. simpl.
  eexists _, _. unfold ActiveMemberScope.ctor.
  rewrite lookup_insert_eq. simpl. eexists _, _.
  split; [reflexivity |]. split; [reflexivity |].
  split; [apply lookup_insert_eq |].
  split.
  { intros now. rewrite lookup_insert_eq. intros [= <-]. reflexivity. }
  unfold ActiveClassScope.dtor, ActiveMemberScope.dtor. simpl.
  split; [| apply lookup_insert_eq].
  apply restore_whole_store; [exact Hp |].
  intros q Hq. rewrite !lookup_insert_ne by congruence. reflexivity.
Qed.

Lemma ActiveClass_scopes_nest_witness :
  exists g1 store1 g2 store2,
    ActiveClassScope.ctor 0%nat (Some 9%nat)
      {[ 0%nat := ActiveClass.mk (Some 1%nat) NULL NULL NULL ]}
    = Some (g1, store1)
    /\ ActiveMemberScope.ctor 0%nat (Some 5%nat) store1 = Some (g2, store2)
    /\ store2 !! 0%nat
       = Some (ActiveClass.mk (Some 9%nat) (Some 5%nat) NULL NULL)
    /\ ActiveClassScope.dtor g1 (ActiveMemberScope.dtor g2 store2)
       = {[ 0%nat := ActiveClass.mk (Some 1%nat) NULL NULL NULL ]}.
Proof.
  assert (Hp0 : ({[ 0%nat := ActiveClass.mk (Some 1%nat) NULL NULL NULL ]}
                   : gmap nat ActiveClass.t) !! 0%nat
                = Some (ActiveClass.mk (Some 1%nat) NULL NULL NULL))
    by (vm_compute; reflexivity).
  destruct (ActiveClass_scopes_nest 0%nat _ _ (Some 9%nat) (Some 5%nat) Hp0)
    as (g1 & store1 & g2 & store2 & H1 & H2 & H3 & _ & H4 & _).
  exists g1, store1, g2, store2. repeat split; assumption.
Defined.

(** ** Handler indices given by the caller *)

(** X4: a [TryCatchBlock] built with a handler index other than -1 carries
    that index and leaves the try-index counter alone; so when the index
    given is the counter's current value, the next block built without an
    index receives the very same try index. *)
Theorem TryCatchBlock_explicit_index (s : FlowGraphBuilder.t) (i : Z)
    (this : nat) (s1 : FlowGraphBuilder.t) :
  i <> -1 ->
  TryCatchBlock_ctor i s = (this, s1) ->
  s1.(FlowGraphBuilder.next_used_try_index_)
  = s.(FlowGraphBuilder.next_used_try_index_)
  /\ s1.(FlowGraphBuilder.try_catch_block_) = Some this
  /\ s1.(FlowGraphBuilder.try_catch_blocks) !! this
     = Some (TryCatchBlock.mk s.(FlowGraphBuilder.try_catch_block_) i)
  /\ (i = s.(FlowGraphBuilder.next_used_try_index_) ->
      forall this2 s2,
        TryCatchBlock_ctor (-1) s1 = (this2, s2) ->
        this2 <> this
        /\ s2.(FlowGraphBuilder.try_catch_blocks) !! this
           = Some (TryCatchBlock.mk s.(FlowGraphBuilder.try_catch_block_) i)
        /\ s2.(FlowGraphBuilder.try_catch_blocks) !! this2
           = Some (TryCatchBlock.mk (Some this) i)).
Proof.
  intros Hi H.
  apply TryCatchBlock_ctor_inv in H as (-> & Htop & Hst & Hn).
  apply Z.eqb_neq in Hi. rewrite Hi in Hst, Hn.
  assert (s1.(FlowGraphBuilder.try_catch_blocks)
            !! length s.(FlowGraphBuilder.try_catch_blocks)
          = Some (TryCatchBlock.mk s.(FlowGraphBuilder.try_catch_block_) i))
    as Hself by (rewrite Hst; apply lookup_snoc_length).
  split; [exact Hn |]. split; [exact Htop |]. split; [exact Hself |].
  intros -> this2 s2 H2.
  apply TryCatchBlock_ctor_inv in H2 as (-> & _ & Hst2 & _). simpl in Hst2.
  pose proof (lookup_lt_Some _ _ _ Hself) as Hlt.
  split; [lia |]. rewrite Hst2. split.
  - rewrite lookup_app_l by exact Hlt. exact Hself.
  - rewrite lookup_snoc_length, Htop, Hn. reflexivity.
Qed.

Lemma TryCatchBlock_explicit_index_witness :
  exists s1,
    TryCatchBlock_ctor 5 (FlowGraphBuilder.init 0) = (0%nat, s1)
    /\ s1.(FlowGraphBuilder.next_used_try_index_) = 0
    /\ s1.(FlowGraphBuilder.try_catch_blocks) !! 0%nat
       = Some (TryCatchBlock.mk NULL 5).
Proof.
  eexists. split; [reflexivity |].
  destruct (TryCatchBlock_explicit_index (FlowGraphBuilder.init 0) 5 0%nat _
              ltac:(lia) eq_refl) as (Hn & _ & Hself & _).
  split; [exact Hn | exact Hself].
Defined.

(** ** Trackers destroyed out of order *)

(** X5: the destructor of a tracker writes back the outer pointer it saved,
    whatever tracker is innermost by then.  Two nested exception-protected
    regions destroyed inner first leave the builder where it started;
    destroyed outer first, they leave the builder pointing at the outer
    region, which has been destroyed. *)
Theorem TryCatchBlock_destruction_order (s : FlowGraphBuilder.t) (i j : Z)
    (a b : nat) (s1 s2 : FlowGraphBuilder.t) :
  TryCatchBlock_ctor i s = (a, s1) ->
  TryCatchBlock_ctor j s1 = (b, s2) ->
  (exists s3 s4,
      TryCatchBlock_dtor b s2 = Some s3
      /\ TryCatchBlock_dtor a s3 = Some s4
      /\ s4.(FlowGraphBuilder.try_catch_block_)
         = s.(FlowGraphBuilder.try_catch_block_))
  /\ (exists s3 s4,
      TryCatchBlock_dtor a s2 = Some s3
      /\ TryCatchBlock_dtor b s3 = Some s4
      /\ s4.(FlowGraphBuilder.try_catch_block_) = Some a).
Proof.
  intros H1 H2.
  apply TryCatchBlock_ctor_inv in H1 as (-> & Htop1 & Hst1 & _).
  apply TryCatchBlock_ctor_inv in H2 as (-> & _ & Hst2 & _).
  assert (s2.(FlowGraphBuilder.try_catch_blocks)
            !! length s.(FlowGraphBuilder.try_catch_blocks)
          = Some (TryCatchBlock.mk s.(FlowGraphBuilder.try_catch_block_)
                    (if i =? -1
                     then s.(FlowGraphBuilder.next_used_try_index_)
                     else i))) as Ha.
  { rewrite Hst2, Hst1. rewrite lookup_app_l.
    - apply lookup_snoc_length.
    - rewrite length_app. simpl. lia. }
  pose proof (lookup_snoc_length s1.(FlowGraphBuilder.try_catch_blocks)
                (TryCatchBlock.mk s1.(FlowGraphBuilder.try_catch_block_)
                   (if j =? -1
                    then s1.(FlowGraphBuilder.next_used_try_index_)
                    else j))) as Hb.
  rewrite <- Hst2 in Hb.
  unfold TryCatchBlock_dtor. split.
  - eexists _, _. rewrite Hb. simpl. split; [reflexivity |].
    destruct s2; simpl in *. rewrite Ha. simpl. split; reflexivity.
  - eexists _, _. rewrite Ha. simpl. split; [reflexivity |].
    destruct s2; simpl in *. rewrite Hb. simpl.
    split; [reflexivity |]. exact Htop1.
Qed.

Lemma TryCatchBlock_destruction_order_witness :
  exists s2 s3 s4,
    TryCatchBlock_ctor (-1)
      (TryCatchBlock_ctor (-1) (FlowGraphBuilder.init 0)).2 = (1%nat, s2)
    /\ TryCatchBlock_dtor 0%nat s2 = Some s3
    /\ TryCatchBlock_dtor 1%nat s3 = Some s4
    /\ s4.(FlowGraphBuilder.try_catch_block_) = Some 0%nat.
Proof.
  destruct (TryCatchBlock_destruction_order (FlowGraphBuilder.init 0)
              (-1) (-1) 0%nat 1%nat _ _ eq_refl eq_refl)
    as (_ & s3 & s4 & H3 & H4 & Htop).
  eexists _, s3, s4. split; [reflexivity |]. repeat split; assumption.
Defined.

(** ** Resolving a switch case block by block *)

Lemma walk_outward_fuel {A} (outer : A -> ptr) (continue : A -> bool)
    store a fuel fuel' :
  chain_ok outer store -> (a < fuel)%nat -> (a < fuel')%nat ->
  walk_outward outer continue fuel store (Some a)
  = walk_outward outer continue fuel' store (Some a).
Proof.
  intros Hok Hf Hf'.
  destruct (walk_outward outer continue fuel store (Some a)) as [r |] eqn:H1.
  - apply walk_outward_sound in H1. symmetry.
    eapply walk_outward_stops; eauto.
  - destruct (walk_outward outer continue fuel' store (Some a)) as [r |] eqn:H2;
      [| reflexivity].
    apply walk_outward_sound in H2.
    rewrite (walk_outward_stops outer continue store (Some a) r Hok H2
               fuel a eq_refl Hf) in H1. discriminate.
Qed.

(** X6: what [Destination] does is decided by the block it is called on.
    A block whose depth is at most the target answers itself, as
    [DestinationDirect] on the target minus its depth; a block that starts
    after the target passes the request to its outer block; and when there
    is no outer block the walk runs into a null pointer. *)
Theorem SwitchBlock_Destination_unfolds (s : FlowGraphBuilder.t)
    (this : nat) (self : SwitchBlock.t) (N : Z) (f d : bool) :
  wf s ->
  s.(FlowGraphBuilder.switch_blocks) !! this = Some self ->
  (self.(SwitchBlock.depth_) <= N ->
   SwitchBlock_Destination this N f d s
   = SwitchBlock_DestinationDirect this
       (IntPtr.sub N self.(SwitchBlock.depth_)) f d s)
  /\ (N < self.(SwitchBlock.depth_) ->
      forall o, self.(SwitchBlock.outer_) = Some o ->
      SwitchBlock_Destination this N f d s
      = SwitchBlock_Destination o N f d s)
  /\ (N < self.(SwitchBlock.depth_) ->
      self.(SwitchBlock.outer_) = NULL ->
      SwitchBlock_Destination this N f d s = None).
Proof.
  intros Hwf Hthis. pose proof (wf_switch_chain s Hwf) as Hok.
  unfold SwitchBlock_Destination, SwitchBlock_DestinationDirect, walk_from.
  simpl. rewrite Hthis. simpl.
  split; [| split].
  - intros Hle.
    replace (SwitchBlock.depth_ self >? N) with false
      by (symmetry; rewrite Z.gtb_ltb; apply Z.ltb_ge; lia).
    simpl. rewrite Hthis. reflexivity.
  - intros Hlt o Ho.
    replace (SwitchBlock.depth_ self >? N) with true
      by (symmetry; rewrite Z.gtb_ltb; apply Z.ltb_lt; lia).
    rewrite Ho.
    pose proof (Hok this self o Hthis Ho) as Hlto.
    rewrite (walk_outward_fuel SwitchBlock.outer_ _ _ o this (S o) Hok)
      by lia.
    reflexivity.
  - intros Hlt Ho.
    replace (SwitchBlock.depth_ self >? N) with true
      by (symmetry; rewrite Z.gtb_ltb; apply Z.ltb_lt; lia).
    rewrite Ho. destruct this; reflexivity.
Qed.

Lemma SwitchBlock_Destination_unfolds_witness :
  SwitchBlock_Destination 1%nat 1 true true sample
  = SwitchBlock_Destination 0%nat 1 true true sample
  /\ SwitchBlock_Destination 0%nat 1 true true sample
     = SwitchBlock_DestinationDirect 0%nat (IntPtr.sub 1 0) true true sample.
Proof.
  split.
  - destruct (SwitchBlock_Destination_unfolds sample 1%nat
                (SwitchBlock.mk (Some 0%nat) IntMap.empty (Some 0%nat) 3 2 0 0)
                1 true true sample_wf eq_refl) as (_ & Houter & _).
    apply Houter; [simpl; lia | reflexivity].
  - destruct (SwitchBlock_Destination_unfolds sample 0%nat
                (SwitchBlock.mk NULL IntMap.empty (Some 0%nat) 2 0 0 0)
                1 true true sample_wf eq_refl) as (Hown & _).
    apply Hown. simpl. lia.
Defined.

(** X7: [DestinationDirect] answers for the block it is called on: it
    writes out that block's finally block and context depth when asked to,
    builds the join entry of the case when there is none, after which
    [HadJumper] holds for that case and is unchanged for every other case,
    and gives the same entry without any change when asked again. *)
Theorem SwitchBlock_DestinationDirect_lazy (s : FlowGraphBuilder.t)
    (this : nat) (self : SwitchBlock.t) (c : Z) (f d : bool) :
  s.(FlowGraphBuilder.switch_blocks) !! this = Some self ->
  (f = true -> d = true) ->
  exists inst s1 self1,
    SwitchBlock_DestinationDirect this c f d s
    = Some (inst,
            (if f
             then (Some self.(SwitchBlock.outer_finally_),
                   Some self.(SwitchBlock.context_depth_))
             else (None, None)), s1)
    /\ inst <> NULL
    /\ (SwitchBlock.HadJumper self c = true ->
        inst = IntMap.Lookup c self.(SwitchBlock.destinations_) /\ s1 = s)
    /\ (SwitchBlock.HadJumper self c = false ->
        inst = Some (length s.(FlowGraphBuilder.join_entries)))
    /\ s1.(FlowGraphBuilder.switch_blocks) !! this = Some self1
    /\ IntMap.Lookup c self1.(SwitchBlock.destinations_) = inst
    /\ SwitchBlock.HadJumper self1 c = true
    /\ (forall c', c' <> c ->
          SwitchBlock.HadJumper self1 c' = SwitchBlock.HadJumper self c')
    /\ (forall a, a <> this ->
          s1.(FlowGraphBuilder.switch_blocks) !! a
          = s.(FlowGraphBuilder.switch_blocks) !! a)
    /\ exists outs,
         SwitchBlock_DestinationDirect this c f d s1 = Some (inst, outs, s1).
Proof.
  intros Hthis Hfd.
  destruct (SwitchBlock_EnsureDestination_spec this c s self Hthis)
    as (inst & s1 & d' & He & Hnn & Hhit & Hmiss & Hst & Hl & Hother
        & Hagain).
  pose proof (lookup_lt_Some _ _ _ Hthis) as Hlt.
  assert (s1.(FlowGraphBuilder.switch_blocks) !! this
          = Some (SwitchBlock.set_destinations_ d' self)) as Hthis1.
  { rewrite Hst. apply list_lookup_insert_eq, Hlt. }
  exists inst, s1, (SwitchBlock.set_destinations_ d' self).
  split.
  { unfold SwitchBlock_DestinationDirect, write_outs. rewrite Hthis. simpl.
    destruct f; [rewrite (Hfd eq_refl) |]; simpl; rewrite He; reflexivity. }
  split; [exact Hnn |]. split; [exact Hhit |].
  split; [intros Hj; apply Hmiss, Hj |].
  split; [exact Hthis1 |].
  split; [destruct self; exact Hl |].
  split.
  { unfold SwitchBlock.HadJumper. destruct self; simpl in *. rewrite Hl.
    destruct inst; [reflexivity | congruence]. }
  split.
  { intros c' Hc'. unfold SwitchBlock.HadJumper. destruct self; simpl in *.
    rewrite (Hother c' Hc'). reflexivity. }
  split.
  { intros a Ha. rewrite Hst. apply list_lookup_insert_ne. congruence. }
  destruct (write_outs_valid f d self.(SwitchBlock.outer_finally_)
              self.(SwitchBlock.context_depth_) Hfd) as [outs Ho].
  exists outs. unfold SwitchBlock_DestinationDirect. rewrite Hthis1. simpl.
  rewrite Ho. simpl. rewrite Hagain. reflexivity.
Qed.

Lemma SwitchBlock_DestinationDirect_lazy_witness :
  exists inst s1 self1,
    SwitchBlock_DestinationDirect 1%nat 2 true true sample
    = Some (inst, (Some (Some 0%nat), Some 0), s1)
    /\ inst = Some 0%nat
    /\ s1.(FlowGraphBuilder.switch_blocks) !! 1%nat = Some self1
    /\ SwitchBlock.HadJumper self1 2 = true
    /\ SwitchBlock.HadJumper self1 0 = false.
Proof.
  destruct (SwitchBlock_DestinationDirect_lazy sample 1%nat
              (SwitchBlock.mk (Some 0%nat) IntMap.empty (Some 0%nat) 3 2 0 0)
              2 true true eq_refl (fun _ => eq_refl))
    as (inst & s1 & self1 & H1 & _ & _ & Hmiss & Hl & _ & Hj & Hother & _).
  exists inst, s1, self1. split; [exact H1 |].
  split; [apply Hmiss; reflexivity |]. split; [exact Hl |].
  split; [exact Hj |]. rewrite Hother by lia. reflexivity.
Defined.

(** ** Jumps that cannot be resolved *)

Lemma walk_from_sound {A} (outer : A -> ptr) (continue : A -> bool)
    store block r :
  walk_from outer continue store block = Some r ->
  stops_at outer continue store block r.
Proof.
  unfold walk_from. destruct block as [a |]; [| discriminate].
  intros H. exact (walk_outward_sound _ _ _ (S a) _ _ H).
Qed.

Lemma contiguous_depth_nonneg blocks :
  chain_ok SwitchBlock.outer_ blocks -> contiguous blocks ->
  forall a b, blocks !! a = Some b -> 0 <= b.(SwitchBlock.depth_).
Proof.
  intros Hok Hcont a. induction (lt_wf a) as [a _ IH]. intros b Hb.
  destruct (Hcont a b Hb) as [_ Hd].
  destruct (SwitchBlock.outer_ b) as [o |] eqn:Ho; [| lia].
  destruct Hd as (ob & Hob & ->).
  pose proof (IH o (Hok a b o Hb Ho) ob Hob).
  destruct (Hcont o ob Hob) as [Hcc _]. lia.
Qed.

(** X8: [Destination] has no check for running out of blocks.  When every
    enclosing switch block starts after the target the walk dereferences a
    null outer pointer; with contiguous depths that is the case exactly
    for negative targets. *)
Theorem SwitchBlock_Destination_unresolved (s : FlowGraphBuilder.t)
    (this : nat) (N : Z) (f d : bool) :
  ((forall r region,
       encloses SwitchBlock.outer_ s.(FlowGraphBuilder.switch_blocks)
         (Some this) r ->
       s.(FlowGraphBuilder.switch_blocks) !! r = Some region ->
       N < region.(SwitchBlock.depth_)) ->
   SwitchBlock_Destination this N f d s = None)
  /\ (wf s -> contiguous s.(FlowGraphBuilder.switch_blocks) -> N < 0 ->
      SwitchBlock_Destination this N f d s = None).
Proof.
  assert ((forall r region,
              encloses SwitchBlock.outer_ s.(FlowGraphBuilder.switch_blocks)
                (Some this) r ->
              s.(FlowGraphBuilder.switch_blocks) !! r = Some region ->
              N < region.(SwitchBlock.depth_)) ->
          SwitchBlock_Destination this N f d s = None) as Hgen.
  { intros Hall. unfold SwitchBlock_Destination.
    destruct (walk_from _ _ _ _) as [a |] eqn:Hw; [| reflexivity].
    apply walk_from_sound in Hw.
    destruct (stops_at_block _ _ _ _ _ Hw) as (b & Hb & Hc).
    pose proof (Hall a b (stops_at_encloses _ _ _ _ _ Hw) Hb) as Hlt.
    rewrite Z.gtb_ltb in Hc. apply Z.ltb_ge in Hc. lia. }
  split; [exact Hgen |].
  intros Hwf Hcont HN. apply Hgen. intros r region _ Hr.
  pose proof (contiguous_depth_nonneg _ (wf_switch_chain s Hwf) Hcont r
                region Hr). lia.
Qed.

Lemma SwitchBlock_Destination_unresolved_witness :
  SwitchBlock_Destination 1%nat (-1) true true sample = None.
Proof.
  destruct (SwitchBlock_Destination_unresolved sample 1%nat (-1) true true)
    as [_ H].
  apply H; [exact sample_wf | exact sample_contiguous | lia].
Defined.

(** X9: [BreakDestination] dereferences the block it walks to before its
    [ASSERT(block != NULL)]: with a label index that no enclosing breakable
    block carries, and in particular with no breakable block open, the
    walk runs into a null pointer. *)
Theorem BreakDestination_unknown_label (s : FlowGraphBuilder.t)
    (this : nat) (label : Z) :
  ((forall r region,
       encloses BreakableBlock.outer_ s.(FlowGraphBuilder.breakable_blocks)
         s.(FlowGraphBuilder.breakable_block_) r ->
       s.(FlowGraphBuilder.breakable_blocks) !! r = Some region ->
       region.(BreakableBlock.index_) <> label) ->
   BreakableBlock_BreakDestination this label s = None)
  /\ (s.(FlowGraphBuilder.breakable_block_) = NULL ->
      BreakableBlock_BreakDestination this label s = None).
Proof.
  assert ((forall r region,
              encloses BreakableBlock.outer_
                s.(FlowGraphBuilder.breakable_blocks)
                s.(FlowGraphBuilder.breakable_block_) r ->
              s.(FlowGraphBuilder.breakable_blocks) !! r = Some region ->
              region.(BreakableBlock.index_) <> label) ->
          BreakableBlock_BreakDestination this label s = None) as Hgen.
  { intros Hall. unfold BreakableBlock_BreakDestination.
    destruct (FlowGraphBuilder.breakable_blocks s !! this); [| reflexivity].
    simpl.
    destruct (walk_from _ _ _ _) as [a |] eqn:Hw; [| reflexivity].
    apply walk_from_sound in Hw.
    destruct (stops_at_block _ _ _ _ _ Hw) as (b & Hb & Hc).
    pose proof (Hall a b (stops_at_encloses _ _ _ _ _ Hw) Hb) as Hne.
    apply negb_false_iff, Z.eqb_eq in Hc. contradiction. }
  split; [exact Hgen |].
  intros Hnull. apply Hgen. intros r region He. rewrite Hnull in He.
  inversion He.
Qed.

Lemma BreakDestination_unknown_label_witness :
  BreakableBlock_BreakDestination 1%nat 2 sample = None
  /\ BreakableBlock_BreakDestination 0%nat 0 sample_switch = None.
Proof.
  split.
  - destruct (BreakDestination_unknown_label sample 1%nat 2) as [H _].
    apply H. intros r region He Hr.
    destruct r as [| [| r]]; simpl in Hr; try discriminate;
      injection Hr as <-; simpl; lia.
  - destruct (BreakDestination_unknown_label sample_switch 0%nat 0) as [_ H].
    apply H. reflexivity.
Defined.

(** ** What resolving a jump leaves alone *)

Lemma SwitchBlock_EnsureDestination_frame a c s inst s' :
  SwitchBlock_EnsureDestination a c s = Some (inst, s') ->
  jump_frame s s'
  /\ s'.(FlowGraphBuilder.breakable_blocks)
     = s.(FlowGraphBuilder.breakable_blocks).
Proof.
  intros He.
  apply SwitchBlock_EnsureDestination_inv in He as (self & Ha & [-> | [_ ->]]).
  - unfold jump_frame. repeat split; auto.
  - unfold jump_frame, FlowGraphBuilder.BuildJoinEntry,
      FlowGraphBuilder.AllocateBlockId.
    destruct s; simpl. rewrite length_insert, length_app. simpl.
    repeat split; try reflexivity. right. split; [reflexivity | lia].
Qed.

Lemma BreakableBlock_EnsureDestination_frame a s inst s' :
  BreakableBlock_EnsureDestination a s = Some (inst, s') ->
  jump_frame s s'
  /\ s'.(FlowGraphBuilder.switch_blocks) = s.(FlowGraphBuilder.switch_blocks).
Proof.
  intros He.
  apply BreakableBlock_EnsureDestination_inv in He
    as (self & Ha & [-> | [_ ->]]).
  - unfold jump_frame. repeat split; auto.
  - unfold jump_frame, FlowGraphBuilder.BuildJoinEntry,
      FlowGraphBuilder.AllocateBlockId.
    destruct s; simpl. rewrite length_insert, length_app. simpl.
    repeat split; try reflexivity. right. split; [reflexivity | lia].
Qed.

(** X10: resolving a jump never enters or leaves a region and never moves
    the try-index counter or the depth counters: [Destination],
    [DestinationDirect] and [BreakDestination] keep all five innermost
    tracker pointers, the exception, finally and catch trackers and the
    number of switch and breakable blocks, and either change nothing at
    all or build one join entry with the next block id. *)
Theorem jumps_keep_regions (s s' : FlowGraphBuilder.t) (inst : ptr) :
  (forall this N f d outs,
      SwitchBlock_Destination this N f d s = Some (inst, outs, s') ->
      jump_frame s s'
      /\ s'.(FlowGraphBuilder.breakable_blocks)
         = s.(FlowGraphBuilder.breakable_blocks))
  /\ (forall this c f d outs,
      SwitchBlock_DestinationDirect this c f d s = Some (inst, outs, s') ->
      jump_frame s s'
      /\ s'.(FlowGraphBuilder.breakable_blocks)
         = s.(FlowGraphBuilder.breakable_blocks))
  /\ (forall this label outs,
      BreakableBlock_BreakDestination this label s = Some (inst, outs, s') ->
      jump_frame s s'
      /\ s'.(FlowGraphBuilder.switch_blocks)
         = s.(FlowGraphBuilder.switch_blocks)).
Proof.
  split; [| split].
  - intros this N f d outs H.
    destruct (SwitchBlock_Destination_inv _ _ _ _ _ _ _ _ (or_introl H))
      as (a & c & He). eapply SwitchBlock_EnsureDestination_frame, He.
  - intros this c f d outs H.
    destruct (SwitchBlock_Destination_inv _ _ _ _ _ _ _ _ (or_intror H))
      as (a & c' & He). eapply SwitchBlock_EnsureDestination_frame, He.
  - intros this label outs H.
    destruct (BreakableBlock_BreakDestination_inv _ _ _ _ _ _ H) as (a & He).
    eapply BreakableBlock_EnsureDestination_frame, He.
Qed.

Lemma jumps_keep_regions_witness :
  exists inst outs s',
    SwitchBlock_Destination 1%nat 1 true true sample = Some (inst, outs, s')
    /\ s'.(FlowGraphBuilder.switch_block_) = Some 1%nat
    /\ s'.(FlowGraphBuilder.next_used_try_index_) = 1
    /\ s'.(FlowGraphBuilder.breakable_blocks)
       = sample.(FlowGraphBuilder.breakable_blocks).
Proof.
  destruct (SwitchBlock_Destination 1%nat 1 true true sample)
    as [[[inst outs] s'] |] eqn:H; [| vm_compute in H; discriminate H].
  destruct (jumps_keep_regions sample s' inst) as (Hdest & _ & _).
  destruct (Hdest 1%nat 1 true true outs H)
    as ((_ & _ & Hsw & _ & _ & Hn & _) & Hbr).
  exists inst, outs, s'. split; [reflexivity |].
  split; [rewrite Hsw; reflexivity |]. split; [rewrite Hn; reflexivity |].
  exact Hbr.
Defined.

(** ** How one operation changes the stores *)

Ltac step_plain s :=
  unfold_trackers; unfold TryCatchBlock_ctor, CatchBlock_ctor in *;
  unfold_trackers; destruct s; simpl in *; repeat case_match;
  simplify_option_eq; simpl; auto.

Lemma step_block_id kInv op s s' :
  step kInv op s = Some s' ->
  s'.(FlowGraphBuilder.last_used_block_id_)
  = s.(FlowGraphBuilder.last_used_block_id_)
  \/ s'.(FlowGraphBuilder.last_used_block_id_)
     = IntPtr.add s.(FlowGraphBuilder.last_used_block_id_) 1.
Proof.
  destruct op; simpl; intros H.
  7: { destruct (SwitchBlock_Destination _ _ _ _ s) as [[[i o] s1] |] eqn:Hc;
         simplify_eq/=.
       destruct (SwitchBlock_Destination_inv _ _ _ _ _ _ _ _ (or_introl Hc))
         as (a & c & He).
       apply SwitchBlock_EnsureDestination_frame in He as [Hf _].
       destruct Hf as (_ & _ & _ & _ & _ & _ & _ & _ & _ & _ & _ & _ & _
                       & [-> | [Hid _]]); auto. }
  7: { destruct (SwitchBlock_DestinationDirect _ _ _ _ s)
         as [[[i o] s1] |] eqn:Hc; simplify_eq/=.
       destruct (SwitchBlock_Destination_inv _ _ _ _ _ _ _ _ (or_intror Hc))
         as (a & c & He).
       apply SwitchBlock_EnsureDestination_frame in He as [Hf _].
       destruct Hf as (_ & _ & _ & _ & _ & _ & _ & _ & _ & _ & _ & _ & _
                       & [-> | [Hid _]]); auto. }
  9: { destruct (BreakableBlock_BreakDestination _ _ s)
         as [[[i o] s1] |] eqn:Hc; simplify_eq/=.
       destruct (BreakableBlock_BreakDestination_inv _ _ _ _ _ _ Hc)
         as (a & He).
       apply BreakableBlock_EnsureDestination_frame in He as [Hf _].
       destruct Hf as (_ & _ & _ & _ & _ & _ & _ & _ & _ & _ & _ & _ & _
                       & [-> | [Hid _]]); auto. }
  all: step_plain s.
Qed.

Lemma run_block_id kInv ops s s' :
  run kInv ops s = Some s' ->
  IntPtr.min <= s.(FlowGraphBuilder.last_used_block_id_) ->
  s.(FlowGraphBuilder.last_used_block_id_) + Z.of_nat (length ops)
    <= IntPtr.max ->
  s.(FlowGraphBuilder.last_used_block_id_)
    <= s'.(FlowGraphBuilder.last_used_block_id_)
    <= s.(FlowGraphBuilder.last_used_block_id_) + Z.of_nat (length ops).
Proof.
  revert s. induction ops as [| op ops IH]; simpl length; intros s H Hlo Hhi.
  - simpl in H. injection H as <-. lia.
  - simpl in H.
    destruct (step kInv op s) as [s1 |] eqn:Hs; simpl in H; [| discriminate].
    apply step_block_id in Hs.
    assert (s.(FlowGraphBuilder.last_used_block_id_)
            <= s1.(FlowGraphBuilder.last_used_block_id_)
            <= s.(FlowGraphBuilder.last_used_block_id_) + 1) as Hs1.
    { destruct Hs as [-> | ->]; [lia |]. unfold IntPtr.add.
      rewrite wrap_in_range; [lia |]. unfold IntPtr.in_range. lia. }
    specialize (IH s1 H). lia.
Qed.

(** ** Block ids *)

(** X11: [AllocateBlockId] increments first and returns the new value, so
    the first id handed out is one more than the id the builder was
    created with; no operation lowers the counter, so ids handed out later
    in a translation are strictly larger.  (The counter is assumed not to
    run past the largest [intptr_t].) *)
Theorem AllocateBlockId_increases (kInv : Z) (s : FlowGraphBuilder.t)
    (ops : list Op) :
  IntPtr.min <= s.(FlowGraphBuilder.last_used_block_id_) ->
  s.(FlowGraphBuilder.last_used_block_id_) + Z.of_nat (length ops) + 2
    <= IntPtr.max ->
  (FlowGraphBuilder.AllocateBlockId s).1
  = s.(FlowGraphBuilder.last_used_block_id_) + 1
  /\ (FlowGraphBuilder.AllocateBlockId s).2
       .(FlowGraphBuilder.last_used_block_id_)
     = (FlowGraphBuilder.AllocateBlockId s).1
  /\ forall s2,
       run kInv ops (FlowGraphBuilder.AllocateBlockId s).2 = Some s2 ->
       (FlowGraphBuilder.AllocateBlockId s).1
       < (FlowGraphBuilder.AllocateBlockId s2).1.
Proof.
  intros Hlo Hhi.
  assert (IntPtr.add s.(FlowGraphBuilder.last_used_block_id_) 1
          = s.(FlowGraphBuilder.last_used_block_id_) + 1) as Hadd.
  { apply wrap_in_range. unfold IntPtr.in_range. lia. }
  unfold FlowGraphBuilder.AllocateBlockId. simpl.
  split; [exact Hadd |]. split; [destruct s; reflexivity |].
  intros s2 Hrun. apply run_block_id in Hrun.
  - destruct s; simpl in *. rewrite Hadd in *.
    unfold IntPtr.add. rewrite wrap_in_range; [lia |].
    unfold IntPtr.in_range. lia.
  - destruct s; simpl in *. lia.
  - destruct s; simpl in *. lia.
Qed.

Lemma AllocateBlockId_increases_witness :
  (FlowGraphBuilder.AllocateBlockId (FlowGraphBuilder.init 0)).1 = 1
  /\ exists s2,
       run (-1) [EnterSwitch 2; SwitchDestination 0 1 true true]
         (FlowGraphBuilder.AllocateBlockId (FlowGraphBuilder.init 0)).2
       = Some s2
       /\ 1 < (FlowGraphBuilder.AllocateBlockId s2).1.
Proof.
  destruct (AllocateBlockId_increases (-1) (FlowGraphBuilder.init 0)
              [EnterSwitch 2; SwitchDestination 0 1 true true])
    as (H1 & _ & H2).
  - vm_compute. congruence.
  - vm_compute. congruence.
  - split; [exact H1 |].
    destruct (run (-1) [EnterSwitch 2; SwitchDestination 0 1 true true]
                (FlowGraphBuilder.AllocateBlockId (FlowGraphBuilder.init 0)).2)
      as [s2 |] eqn:Hrun; [| vm_compute in Hrun; discriminate Hrun].
    exists s2. split; [reflexivity |]. exact (H2 s2 eq_refl).
Defined.

Lemma step_breakable_shape kInv op s s' :
  step kInv op s = Some s' ->
  s'.(FlowGraphBuilder.breakable_blocks) = s.(FlowGraphBuilder.breakable_blocks)
  \/ (exists this, BreakableBlock_ctor kInv s = Some (this, s'))
  \/ (exists a self j,
        s.(FlowGraphBuilder.breakable_blocks) !! a = Some self
        /\ s'.(FlowGraphBuilder.breakable_blocks)
           = <[a := BreakableBlock.set_destination_ j self]>
               s.(FlowGraphBuilder.breakable_blocks)).
Proof.
  destruct op; simpl; intros H.
  7: { destruct (SwitchBlock_Destination _ _ _ _ s) as [[[i o] s1] |] eqn:Hc;
         simplify_eq/=.
       destruct (SwitchBlock_Destination_inv _ _ _ _ _ _ _ _ (or_introl Hc))
         as (a & c & He).
       apply SwitchBlock_EnsureDestination_frame in He as [_ Hb]. auto. }
  7: { destruct (SwitchBlock_DestinationDirect _ _ _ _ s)
         as [[[i o] s1] |] eqn:Hc; simplify_eq/=.
       destruct (SwitchBlock_Destination_inv _ _ _ _ _ _ _ _ (or_intror Hc))
         as (a & c & He).
       apply SwitchBlock_EnsureDestination_frame in He as [_ Hb]. auto. }
  7: { destruct (BreakableBlock_ctor kInv s) as [[this s1] |] eqn:Hc;
         simplify_eq/=. right. left. eauto. }
  8: { destruct (BreakableBlock_BreakDestination _ _ s)
         as [[[i o] s1] |] eqn:Hc; simplify_eq/=.
       destruct (BreakableBlock_BreakDestination_inv _ _ _ _ _ _ Hc)
         as (a & He).
       apply BreakableBlock_EnsureDestination_inv in He
         as (self & Ha & [-> | [_ ->]]); [auto |].
       right. right. exists a, self. eexists. split; [exact Ha |].
       unfold_trackers. destruct s; reflexivity. }
  all: left; step_plain s.
Qed.

Lemma step_switch_shape kInv op s s' :
  step kInv op s = Some s' ->
  s'.(FlowGraphBuilder.switch_blocks) = s.(FlowGraphBuilder.switch_blocks)
  \/ (exists n this,
        op = EnterSwitch n /\ SwitchBlock_ctor kInv n s = Some (this, s'))
  \/ (exists a self d,
        s.(FlowGraphBuilder.switch_blocks) !! a = Some self
        /\ s'.(FlowGraphBuilder.switch_blocks)
           = <[a := SwitchBlock.set_destinations_ d self]>
               s.(FlowGraphBuilder.switch_blocks)).
Proof.
  assert (forall a c i,
             SwitchBlock_EnsureDestination a c s = Some (i, s') ->
             s'.(FlowGraphBuilder.switch_blocks)
             = s.(FlowGraphBuilder.switch_blocks)
             \/ (exists n this,
                   op = EnterSwitch n
                   /\ SwitchBlock_ctor kInv n s = Some (this, s'))
             \/ (exists a self d,
                   s.(FlowGraphBuilder.switch_blocks) !! a = Some self
                   /\ s'.(FlowGraphBuilder.switch_blocks)
                      = <[a := SwitchBlock.set_destinations_ d self]>
                          s.(FlowGraphBuilder.switch_blocks))) as Hensure.
  { intros a c i He.
    apply SwitchBlock_EnsureDestination_inv in He
      as (self & Ha & [-> | [_ ->]]); [auto |].
    right. right. exists a, self. eexists. split; [exact Ha |].
    unfold_trackers. destruct s; reflexivity. }
  destruct op; simpl; intros H.
  5: { destruct (SwitchBlock_ctor kInv case_count s) as [[this s1] |] eqn:Hc;
         simplify_eq/=. right. left. eauto. }
  6: { destruct (SwitchBlock_Destination _ _ _ _ s) as [[[i o] s1] |] eqn:Hc;
         simplify_eq/=.
       destruct (SwitchBlock_Destination_inv _ _ _ _ _ _ _ _ (or_introl Hc))
         as (a & c & He). eauto. }
  6: { destruct (SwitchBlock_DestinationDirect _ _ _ _ s)
         as [[[i o] s1] |] eqn:Hc; simplify_eq/=.
       destruct (SwitchBlock_Destination_inv _ _ _ _ _ _ _ _ (or_intror Hc))
         as (a & c & He). eauto. }
  8: { destruct (BreakableBlock_BreakDestination _ _ s)
         as [[[i o] s1] |] eqn:Hc; simplify_eq/=.
       destruct (BreakableBlock_BreakDestination_inv _ _ _ _ _ _ Hc)
         as (a & He).
       apply BreakableBlock_EnsureDestination_frame in He as [_ Hb]. auto. }
  all: left; step_plain s.
Qed.

(** ** Indices of breakable blocks *)

Lemma indexed_snoc blocks x :
  indexed blocks ->
  match x.(BreakableBlock.outer_) with
  | None => x.(BreakableBlock.index_) = 0
  | Some o =>
      exists ob, blocks !! o = Some ob
        /\ x.(BreakableBlock.index_) = ob.(BreakableBlock.index_) + 1
  end ->
  indexed (blocks ++ [x]).
Proof.
  intros Hidx Hx a b Hb.
  assert (forall o ob, blocks !! o = Some ob -> (blocks ++ [x]) !! o = Some ob)
    as Hkeep.
  { intros o ob Ho. rewrite lookup_app_l; [exact Ho |].
    eapply lookup_lt_Some, Ho. }
  destruct (decide (a < length blocks)%nat) as [Hlt | Hge].
  - rewrite lookup_app_l in Hb by exact Hlt. specialize (Hidx a b Hb).
    destruct (BreakableBlock.outer_ b); [| exact Hidx].
    destruct Hidx as (ob & Hob & Hi). eauto.
  - rewrite lookup_app_r in Hb by lia.
    destruct (a - length blocks)%nat as [| k]; simpl in Hb;
      [| destruct k; discriminate].
    injection Hb as <-.
    destruct (BreakableBlock.outer_ x); [| exact Hx].
    destruct Hx as (ob & Hob & Hi). eauto.
Qed.

Lemma indexed_insert blocks a self j :
  blocks !! a = Some self ->
  indexed blocks ->
  indexed (<[a := BreakableBlock.set_destination_ j self]> blocks).
Proof.
  intros Ha Hidx.
  pose proof (lookup_lt_Some _ _ _ Ha) as Hlt.
  assert (forall o ob, blocks !! o = Some ob ->
            exists ob',
              (<[a := BreakableBlock.set_destination_ j self]> blocks) !! o
              = Some ob'
              /\ ob'.(BreakableBlock.index_) = ob.(BreakableBlock.index_)
              /\ ob'.(BreakableBlock.outer_) = ob.(BreakableBlock.outer_))
    as Hkeep.
  { intros o ob Ho. destruct (decide (o = a)) as [-> | Hne].
    - rewrite list_lookup_insert_eq by exact Hlt. eexists.
      split; [reflexivity |]. assert (ob = self) as -> by congruence.
      destruct self; split; reflexivity.
    - rewrite list_lookup_insert_ne by congruence. eauto. }
  intros a' b' Hb'.
  assert (exists b, blocks !! a' = Some b
                    /\ b'.(BreakableBlock.index_) = b.(BreakableBlock.index_)
                    /\ b'.(BreakableBlock.outer_) = b.(BreakableBlock.outer_))
    as (b & Hb & Hi & Ho).
  { destruct (decide (a' = a)) as [-> | Hne].
    - rewrite list_lookup_insert_eq in Hb' by exact Hlt.
      injection Hb' as <-. exists self. split; [exact Ha |].
      destruct self; split; reflexivity.
    - rewrite list_lookup_insert_ne in Hb' by congruence. eauto. }
  specialize (Hidx a' b Hb). rewrite Ho, Hi.
  destruct (BreakableBlock.outer_ b) as [o |]; [| exact Hidx].
  destruct Hidx as (ob & Hob & ->).
  destruct (Hkeep o ob Hob) as (ob' & Hob' & Hi' & _).
  exists ob'. split; [exact Hob' | lia].
Qed.

Lemma index_bounded_insert blocks a self j :
  blocks !! a = Some self ->
  index_bounded blocks ->
  index_bounded (<[a := BreakableBlock.set_destination_ j self]> blocks).
Proof.
  intros Ha Hb a' b' Hb'.
  pose proof (lookup_lt_Some _ _ _ Ha) as Hlt.
  destruct (decide (a' = a)) as [-> | Hne].
  - rewrite list_lookup_insert_eq in Hb' by exact Hlt. injection Hb' as <-.
    specialize (Hb a self Ha). destruct self; exact Hb.
  - rewrite list_lookup_insert_ne in Hb' by congruence. eauto.
Qed.

(** One operation keeps the indices of breakable blocks in step with the
    nesting, as long as the store has room for one more address. *)
Lemma step_indexed kInv op s s' :
  step kInv op s = Some s' ->
  wf s -> indexed s.(FlowGraphBuilder.breakable_blocks) ->
  index_bounded s.(FlowGraphBuilder.breakable_blocks) ->
  Z.of_nat (length s.(FlowGraphBuilder.breakable_blocks)) <= IntPtr.max ->
  indexed s'.(FlowGraphBuilder.breakable_blocks)
  /\ index_bounded s'.(FlowGraphBuilder.breakable_blocks)
  /\ (length s'.(FlowGraphBuilder.breakable_blocks)
      <= S (length s.(FlowGraphBuilder.breakable_blocks)))%nat.
Proof.
  intros Hstep Hwf Hidx Hbnd Hroom.
  destruct (step_breakable_shape _ _ _ _ Hstep)
    as [-> | [[this Hc] | (a & self & j & Ha & ->)]].
  - split; [exact Hidx |]. split; [exact Hbnd | lia].
  - apply BreakableBlock_ctor_inv in Hc as (ti & index & _ & Hi & -> & ->).
    destruct s; simpl in *.
    assert (0 <= index <= Z.of_nat (length breakable_blocks)
            /\ match breakable_block_ with
               | None => index = 0
               | Some o =>
                   exists ob, breakable_blocks !! o = Some ob
                     /\ index = ob.(BreakableBlock.index_) + 1
               end) as [Hrange Hlink].
    { destruct breakable_block_ as [o |]; [| split; [lia | exact Hi]].
      destruct Hi as (ob & Hob & ->).
      pose proof (Hbnd o ob Hob) as Hob_bnd.
      pose proof (lookup_lt_Some _ _ _ Hob) as Hlt.
      assert (IntPtr.add (BreakableBlock.index_ ob) 1
              = BreakableBlock.index_ ob + 1) as ->.
      { apply wrap_in_range. unfold IntPtr.in_range, IntPtr.min in *. lia. }
      split; [lia | eauto]. }
    split; [apply indexed_snoc; [exact Hidx | exact Hlink] |].
    split; [| rewrite length_app; simpl; lia].
    intros a b Hb.
    destruct (decide (a < length breakable_blocks)%nat) as [Hlt | Hge].
    + rewrite lookup_app_l in Hb by exact Hlt. eauto.
    + rewrite lookup_app_r in Hb by lia.
      destruct (a - length breakable_blocks)%nat as [| k] eqn:Hk;
        simpl in Hb; [| destruct k; discriminate].
      injection Hb as <-. simpl. lia.
  - split; [apply indexed_insert; assumption |].
    split; [apply index_bounded_insert; assumption |].
    rewrite length_insert. lia.
Qed.

Lemma run_indexed kInv ops s s' :
  run kInv ops s = Some s' ->
  wf s -> indexed s.(FlowGraphBuilder.breakable_blocks) ->
  index_bounded s.(FlowGraphBuilder.breakable_blocks) ->
  Z.of_nat (length s.(FlowGraphBuilder.breakable_blocks))
    + Z.of_nat (length ops) <= IntPtr.max ->
  indexed s'.(FlowGraphBuilder.breakable_blocks)
  /\ index_bounded s'.(FlowGraphBuilder.breakable_blocks).
Proof.
  revert s.
  induction ops as [| op ops IH]; simpl length; intros s H Hwf Hi Hb Hr.
  - simpl in H. injection H as <-. auto.
  - simpl in H.
    destruct (step kInv op s) as [s1 |] eqn:Hs; simpl in H; [| discriminate].
    destruct (step_indexed _ _ _ _ Hs Hwf Hi Hb) as (Hi1 & Hb1 & Hlen);
      [lia |].
    apply (IH s1 H); eauto using step_wf. lia.
Qed.

(** X12: in a translation the index of a breakable block counts the
    breakable blocks around it: 0 for the outermost, one more than the
    outer block's otherwise.  The indices along a chain are therefore all
    different, and the walk of [BreakDestination] for the index of an
    enclosing region stops at that very region.  (Fewer operations than the
    largest [intptr_t] are assumed.) *)
Theorem breakable_indices_count_nesting (kInv n : Z) (ops : list Op)
    (s : FlowGraphBuilder.t) :
  run kInv ops (FlowGraphBuilder.init n) = Some s ->
  Z.of_nat (length ops) <= IntPtr.max ->
  wf s
  /\ indexed s.(FlowGraphBuilder.breakable_blocks)
  /\ index_bounded s.(FlowGraphBuilder.breakable_blocks)
  /\ forall r region,
       encloses BreakableBlock.outer_ s.(FlowGraphBuilder.breakable_blocks)
         s.(FlowGraphBuilder.breakable_block_) r ->
       s.(FlowGraphBuilder.breakable_blocks) !! r = Some region ->
       stops_at BreakableBlock.outer_
         (fun b => negb (b.(BreakableBlock.index_)
                         =? region.(BreakableBlock.index_)))
         s.(FlowGraphBuilder.breakable_blocks)
         s.(FlowGraphBuilder.breakable_block_) r.
Proof.
  intros Hrun Hlen.
  pose proof (run_wf _ _ _ _ (init_wf n) Hrun) as Hwf.
  destruct (run_indexed _ _ _ _ Hrun (init_wf n)) as [Hidx Hbnd].
  - intros a b Hb. inversion Hb.
  - intros a b Hb. inversion Hb.
  - simpl. lia.
  - split; [exact Hwf |]. split; [exact Hidx |]. split; [exact Hbnd |].
    intros r region He Hr.
    eapply indexed_stops_at_region; eauto using wf_breakable_chain.
Qed.

Lemma breakable_indices_count_nesting_witness :
  wf sample
  /\ indexed sample.(FlowGraphBuilder.breakable_blocks)
  /\ index_bounded sample.(FlowGraphBuilder.breakable_blocks).
Proof.
  destruct (breakable_indices_count_nesting (-1) 0 sample_ops sample
              sample_run) as (H1 & H2 & H3 & _).
  - vm_compute. congruence.
  - split; [exact H1 |]. split; [exact H2 | exact H3].
Defined.

(** ** Depths of switch blocks *)

Lemma sum_cases_snoc blocks x :
  sum_cases (blocks ++ [x]) = sum_cases blocks + x.(SwitchBlock.case_count_).
Proof.
  unfold sum_cases. induction blocks as [| b blocks IH]; simpl; [lia |].
  rewrite IH. lia.
Qed.

Lemma sum_cases_insert (blocks : list SwitchBlock.t) (a : nat) self d :
  blocks !! a = Some self ->
  sum_cases (<[a := SwitchBlock.set_destinations_ d self]> blocks)
  = sum_cases blocks.
Proof.
  unfold sum_cases. revert a.
  induction blocks as [| b blocks IH]; intros [| a] Ha; simpl in *;
    try discriminate.
  - injection Ha as ->. destruct self; reflexivity.
  - rewrite (IH a Ha). reflexivity.
Qed.

Lemma sum_cases_nonneg blocks :
  (forall a b, blocks !! a = Some b -> 0 <= b.(SwitchBlock.case_count_)) ->
  0 <= sum_cases blocks.
Proof.
  unfold sum_cases. induction blocks as [| b blocks IH]; intros H; simpl;
    [lia |].
  pose proof (H 0%nat b eq_refl).
  assert (0 <= foldr (fun b acc => SwitchBlock.case_count_ b + acc) 0 blocks).
  { apply IH. intros a b' Hb'. apply (H (S a) b' Hb'). }
  lia.
Qed.

Lemma switch_lookup_insert (blocks : list SwitchBlock.t) (a : nat) self d :
  blocks !! a = Some self ->
  forall o,
    match blocks !! o,
          (<[a := SwitchBlock.set_destinations_ d self]> blocks) !! o with
    | Some ob, Some ob' =>
        ob'.(SwitchBlock.depth_) = ob.(SwitchBlock.depth_)
        /\ ob'.(SwitchBlock.case_count_) = ob.(SwitchBlock.case_count_)
        /\ ob'.(SwitchBlock.outer_) = ob.(SwitchBlock.outer_)
    | None, None => True
    | _, _ => False
    end.
Proof.
  intros Ha o. pose proof (lookup_lt_Some _ _ _ Ha) as Hlt.
  destruct (decide (o = a)) as [-> | Hne].
  - rewrite list_lookup_insert_eq by exact Hlt. rewrite Ha.
    destruct self; repeat split.
  - rewrite list_lookup_insert_ne by congruence.
    destruct (blocks !! o); repeat split.
Qed.

Lemma contiguous_insert (blocks : list SwitchBlock.t) (a : nat) self d :
  blocks !! a = Some self ->
  contiguous blocks ->
  contiguous (<[a := SwitchBlock.set_destinations_ d self]> blocks).
Proof.
  intros Ha Hcont a' b' Hb'.
  pose proof (switch_lookup_insert blocks a self d Ha a') as Hsame.
  rewrite Hb' in Hsame.
  destruct (blocks !! a') as [b |] eqn:Hb; [| contradiction].
  destruct Hsame as (Hd & Hc & Ho). rewrite Hd, Hc, Ho.
  destruct (Hcont a' b Hb) as [Hcc Hlink]. split; [exact Hcc |].
  destruct (SwitchBlock.outer_ b) as [o |]; [| exact Hlink].
  destruct Hlink as (ob & Hob & ->).
  pose proof (switch_lookup_insert blocks a self d Ha o) as Hsame.
  rewrite Hob in Hsame.
  destruct (<[a := SwitchBlock.set_destinations_ d self]> blocks !! o)
    as [ob' |]; [| contradiction].
  destruct Hsame as (Hd' & Hc' & _). exists ob'. split; [reflexivity | lia].
Qed.

Lemma depth_bounded_insert (blocks : list SwitchBlock.t) (a : nat) self d :
  blocks !! a = Some self ->
  depth_bounded blocks ->
  depth_bounded (<[a := SwitchBlock.set_destinations_ d self]> blocks).
Proof.
  intros Ha Hb a' b' Hb'. rewrite (sum_cases_insert _ _ _ _ Ha).
  pose proof (switch_lookup_insert blocks a self d Ha a') as Hsame.
  rewrite Hb' in Hsame.
  destruct (blocks !! a') as [b |] eqn:Hlb; [| contradiction].
  destruct Hsame as (Hd & Hc & _). rewrite Hd, Hc. exact (Hb a' b Hlb).
Qed.

Lemma contiguous_snoc blocks x :
  contiguous blocks ->
  0 <= x.(SwitchBlock.case_count_) ->
  match x.(SwitchBlock.outer_) with
  | None => x.(SwitchBlock.depth_) = 0
  | Some o =>
      exists ob, blocks !! o = Some ob
        /\ x.(SwitchBlock.depth_)
           = ob.(SwitchBlock.depth_) + ob.(SwitchBlock.case_count_)
  end ->
  contiguous (blocks ++ [x]).
Proof.
  intros Hcont Hcc Hx a b Hb.
  assert (forall o ob, blocks !! o = Some ob -> (blocks ++ [x]) !! o = Some ob)
    as Hkeep.
  { intros o ob Ho. rewrite lookup_app_l; [exact Ho |].
    eapply lookup_lt_Some, Ho. }
  destruct (decide (a < length blocks)%nat) as [Hlt | Hge].
  - rewrite lookup_app_l in Hb by exact Hlt.
    destruct (Hcont a b Hb) as [Hc Hlink]. split; [exact Hc |].
    destruct (SwitchBlock.outer_ b); [| exact Hlink].
    destruct Hlink as (ob & Hob & Hi). eauto.
  - rewrite lookup_app_r in Hb by lia.
    destruct (a - length blocks)%nat as [| k]; simpl in Hb;
      [| destruct k; discriminate].
    injection Hb as <-. split; [exact Hcc |].
    destruct (SwitchBlock.outer_ x); [| exact Hx].
    destruct Hx as (ob & Hob & Hi). eauto.
Qed.

(** One operation keeps the depths of switch blocks contiguous, as long as
    the switch it opens has a case count that is not negative and fits. *)
Lemma step_contiguous kInv op s s' :
  step kInv op s = Some s' ->
  wf s -> contiguous s.(FlowGraphBuilder.switch_blocks) ->
  depth_bounded s.(FlowGraphBuilder.switch_blocks) ->
  0 <= opened_cases op ->
  sum_cases s.(FlowGraphBuilder.switch_blocks) + opened_cases op
    <= IntPtr.max ->
  contiguous s'.(FlowGraphBuilder.switch_blocks)
  /\ depth_bounded s'.(FlowGraphBuilder.switch_blocks)
  /\ sum_cases s'.(FlowGraphBuilder.switch_blocks)
     <= sum_cases s.(FlowGraphBuilder.switch_blocks) + opened_cases op.
Proof.
  intros Hstep Hwf Hcont Hbnd Hop Hroom.
  destruct (step_switch_shape _ _ _ _ Hstep)
    as [-> | [(n & this & -> & Hc) | (a & self & d & Ha & ->)]].
  - split; [exact Hcont |]. split; [exact Hbnd | lia].
  - simpl in Hop, Hroom.
    apply SwitchBlock_ctor_inv in Hc as (ti & depth & _ & Hd & -> & ->).
    pose proof (wf_switch_top s Hwf) as Htop.
    destruct s; simpl in *.
    assert (0 <= sum_cases switch_blocks) as Hsum.
    { apply sum_cases_nonneg. intros a b Hb. apply (Hcont a b Hb). }
    assert (0 <= depth <= sum_cases switch_blocks
            /\ match switch_block_ with
               | None => depth = 0
               | Some o =>
                   exists ob, switch_blocks !! o = Some ob
                     /\ depth = ob.(SwitchBlock.depth_)
                                + ob.(SwitchBlock.case_count_)
               end) as [Hrange Hlink].
    { destruct switch_block_ as [o |]; [| split; [lia | exact Hd]].
      destruct Hd as (ob & Hob & ->).
      destruct (Hbnd o ob Hob) as [Hd0 Hdsum].
      destruct (Hcont o ob Hob) as [Hcc _].
      assert (IntPtr.add (SwitchBlock.depth_ ob) (SwitchBlock.case_count_ ob)
              = SwitchBlock.depth_ ob + SwitchBlock.case_count_ ob) as ->.
      { apply wrap_in_range. unfold IntPtr.in_range, IntPtr.min in *. lia. }
      split; [lia | eauto]. }
    split; [apply contiguous_snoc; [exact Hcont | exact Hop | exact Hlink] |].
    rewrite sum_cases_snoc. simpl. split; [| lia].
    intros a b Hb. rewrite sum_cases_snoc. simpl.
    destruct (decide (a < length switch_blocks)%nat) as [Hlt | Hge].
    + rewrite lookup_app_l in Hb by exact Hlt.
      destruct (Hbnd a b Hb). split; lia.
    + rewrite lookup_app_r in Hb by lia.
      destruct (a - length switch_blocks)%nat as [| k] eqn:Hk;
        simpl in Hb; [| destruct k; discriminate].
      injection Hb as <-. simpl. split; lia.
  - split; [apply contiguous_insert; assumption |].
    split; [apply depth_bounded_insert; assumption |].
    rewrite (sum_cases_insert _ _ _ _ Ha). lia.
Qed.

Lemma run_contiguous kInv ops s s' :
  run kInv ops s = Some s' ->
  wf s -> contiguous s.(FlowGraphBuilder.switch_blocks) ->
  depth_bounded s.(FlowGraphBuilder.switch_blocks) ->
  cases_nonneg ops ->
  sum_cases s.(FlowGraphBuilder.switch_blocks) + total_cases ops
    <= IntPtr.max ->
  contiguous s'.(FlowGraphBuilder.switch_blocks)
  /\ depth_bounded s'.(FlowGraphBuilder.switch_blocks).
Proof.
  revert s.
  induction ops as [| op ops IH]; intros s H Hwf Hc Hb Hnn Hr.
  - simpl in H. injection H as <-. auto.
  - simpl in H, Hr. fold (total_cases ops) in Hr.
    apply Forall_cons in Hnn as [Hop Hnn].
    assert (0 <= total_cases ops) as Htot.
    { clear -Hnn. unfold total_cases.
      induction Hnn as [| op ops Hop _ IH]; simpl; lia. }
    destruct (step kInv op s) as [s1 |] eqn:Hs; simpl in H; [| discriminate].
    destruct (step_contiguous _ _ _ _ Hs Hwf Hc Hb Hop) as (Hc1 & Hb1 & Hsum);
      [lia |].
    apply (IH s1 H); eauto using step_wf. lia.
Qed.

(** X13: in a translation that opens its switches with case counts that
    are not negative, the switch blocks number their cases contiguously:
    the outermost block starts at 0 and every other block starts where its
    outer block ends.  The ranges of the blocks of a chain are therefore
    disjoint, and the walk of [Destination] for a case number in the range
    of an enclosing region stops at that very region.  (The cases of all
    switches together are assumed to fit an [intptr_t].) *)
Theorem switch_depths_contiguous (kInv n : Z) (ops : list Op)
    (s : FlowGraphBuilder.t) :
  run kInv ops (FlowGraphBuilder.init n) = Some s ->
  cases_nonneg ops ->
  total_cases ops <= IntPtr.max ->
  wf s
  /\ contiguous s.(FlowGraphBuilder.switch_blocks)
  /\ depth_bounded s.(FlowGraphBuilder.switch_blocks)
  /\ forall block r region N,
       encloses SwitchBlock.outer_ s.(FlowGraphBuilder.switch_blocks)
         block r ->
       s.(FlowGraphBuilder.switch_blocks) !! r = Some region ->
       region.(SwitchBlock.depth_) <= N
         < region.(SwitchBlock.depth_) + region.(SwitchBlock.case_count_) ->
       stops_at SwitchBlock.outer_ (fun b => b.(SwitchBlock.depth_) >? N)
         s.(FlowGraphBuilder.switch_blocks) block r.
Proof.
  intros Hrun Hnn Htot.
  pose proof (run_wf _ _ _ _ (init_wf n) Hrun) as Hwf.
  destruct (run_contiguous _ _ _ _ Hrun (init_wf n)) as [Hcont Hbnd].
  - intros a b Hb. inversion Hb.
  - intros a b Hb. inversion Hb.
  - exact Hnn.
  - simpl. exact Htot.
  - split; [exact Hwf |]. split; [exact Hcont |]. split; [exact Hbnd |].
    intros block r region N He Hr HN.
    eapply contiguous_stops_at_region; eauto using wf_switch_chain.
Qed.

Lemma switch_depths_contiguous_witness :
  wf sample
  /\ contiguous sample.(FlowGraphBuilder.switch_blocks)
  /\ stops_at SwitchBlock.outer_ (fun b => b.(SwitchBlock.depth_) >? 1)
       sample.(FlowGraphBuilder.switch_blocks) (Some 1%nat) 0%nat.
Proof.
  destruct (switch_depths_contiguous (-1) 0 sample_ops sample sample_run)
    as (H1 & H2 & _ & H4).
  - repeat constructor; simpl; lia.
  - vm_compute. congruence.
  - split; [exact H1 |]. split; [exact H2 |].
    apply (H4 (Some 1%nat) 0%nat
             (SwitchBlock.mk NULL IntMap.empty (Some 0%nat) 2 0 0 0)).
    + eapply encloses_outer; [reflexivity |].
      eapply encloses_self. reflexivity.
    + reflexivity.
    + simpl. lia.
Defined.

(** ** What trackers keep for the rest of a translation *)

(** X14: a destination is never dropped or replaced.  Once a switch block
    has a join entry for a case, or a breakable block has its join entry,
    every later state of the translation has that same entry there. *)
Theorem destinations_persist (kInv : Z) (ops : list Op)
    (s s' : FlowGraphBuilder.t) :
  run kInv ops s = Some s' ->
  (forall a b c,
      s.(FlowGraphBuilder.switch_blocks) !! a = Some b ->
      SwitchBlock.HadJumper b c = true ->
      exists b',
        s'.(FlowGraphBuilder.switch_blocks) !! a = Some b'
        /\ SwitchBlock.HadJumper b' c = true
        /\ IntMap.Lookup c b'.(SwitchBlock.destinations_)
           = IntMap.Lookup c b.(SwitchBlock.destinations_))
  /\ (forall a b,
      s.(FlowGraphBuilder.breakable_blocks) !! a = Some b ->
      BreakableBlock.HadJumper b = true ->
      exists b',
        s'.(FlowGraphBuilder.breakable_blocks) !! a = Some b'
        /\ BreakableBlock.HadJumper b' = true
        /\ BreakableBlock.destination b' = BreakableBlock.destination b).
Proof.
  intros Hrun.
  destruct (run_kept _ _ _ _ Hrun) as (_ & _ & Hsw & Hbr & _).
  split.
  - intros a b c Hb Hj.
    destruct (Hsw a b Hb) as (b' & Hb' & _ & _ & _ & _ & _ & _ & Hkeep).
    exists b'. split; [exact Hb' |]. specialize (Hkeep c Hj).
    split; [| exact Hkeep].
    unfold SwitchBlock.HadJumper in *. rewrite Hkeep. exact Hj.
  - intros a b Hb Hj.
    destruct (Hbr a b Hb) as (b' & Hb' & _ & _ & _ & _ & _ & Hkeep).
    exists b'. split; [exact Hb' |]. specialize (Hkeep Hj).
    split; [| exact Hkeep].
    unfold BreakableBlock.HadJumper in *. rewrite Hkeep. exact Hj.
Qed.

Lemma destinations_persist_witness :
  exists b s2 b2,
    sample_switch_exit.(FlowGraphBuilder.switch_blocks) !! 0%nat = Some b
    /\ run (-1) [LeaveSwitch 1; EnterSwitch 4; EnterBreakable]
         sample_switch_exit = Some s2
    /\ s2.(FlowGraphBuilder.switch_blocks) !! 0%nat = Some b2
    /\ IntMap.Lookup 1 b2.(SwitchBlock.destinations_)
       = IntMap.Lookup 1 b.(SwitchBlock.destinations_).
Proof.
  destruct (run (-1) [LeaveSwitch 1; EnterSwitch 4; EnterBreakable]
              sample_switch_exit)
    as [s2 |] eqn:Hrun; [| vm_compute in Hrun; discriminate Hrun].
  destruct (destinations_persist _ _ _ _ Hrun) as [Hsw _].
  destruct (Hsw 0%nat _ 1 eq_refl eq_refl) as (b2 & Hb2 & _ & Hl).
  eexists _, s2, b2. split; [reflexivity |]. split; [reflexivity |].
  split; [exact Hb2 | exact Hl].
Defined.

(** X15: what a tracker recorded when it was built is what it reports at
    any later point of the translation, whatever happened to the builder's
    context depth, try depth or innermost trackers since: the variables and
    try index of a catch block, the finalizer offset and depths of a
    finally block, and the case count, finally block and context depth of
    a switch or breakable block. *)
Theorem trackers_keep_records (kInv : Z) (s : FlowGraphBuilder.t)
    (ops : list Op) :
  (forall e t i this s1 s2,
      CatchBlock_ctor e t i s = (this, s1) ->
      run kInv ops s1 = Some s2 ->
      exists self,
        s2.(FlowGraphBuilder.catch_blocks) !! this = Some self
        /\ CatchBlock.exception_var self = e
        /\ CatchBlock.stack_trace_var self = t
        /\ CatchBlock.catch_try_index self = i)
  /\ (forall off this s1 s2,
      TryFinallyBlock_ctor kInv off s = Some (this, s1) ->
      run kInv ops s1 = Some s2 ->
      exists self,
        s2.(FlowGraphBuilder.try_finally_blocks) !! this = Some self
        /\ TryFinallyBlock.finalizer_kernel_offset self = off
        /\ TryFinallyBlock.context_depth self
           = s.(FlowGraphBuilder.context_depth_)
        /\ TryFinallyBlock.try_depth self
           = IntPtr.sub s.(FlowGraphBuilder.try_depth_) 1)
  /\ (forall n this s1 s2,
      SwitchBlock_ctor kInv n s = Some (this, s1) ->
      run kInv ops s1 = Some s2 ->
      exists self,
        s2.(FlowGraphBuilder.switch_blocks) !! this = Some self
        /\ self.(SwitchBlock.case_count_) = n
        /\ self.(SwitchBlock.outer_finally_)
           = s.(FlowGraphBuilder.try_finally_block_)
        /\ self.(SwitchBlock.context_depth_)
           = s.(FlowGraphBuilder.context_depth_))
  /\ (forall this s1 s2,
      BreakableBlock_ctor kInv s = Some (this, s1) ->
      run kInv ops s1 = Some s2 ->
      exists self,
        s2.(FlowGraphBuilder.breakable_blocks) !! this = Some self
        /\ self.(BreakableBlock.outer_finally_)
           = s.(FlowGraphBuilder.try_finally_block_)
        /\ self.(BreakableBlock.context_depth_)
           = s.(FlowGraphBuilder.context_depth_)).
Proof.
  split; [| split; [| split]].
  - intros e t i this s1 s2 H Hrun.
    apply CatchBlock_ctor_inv in H as (-> & _ & Hst).
    pose proof (lookup_snoc_length s.(FlowGraphBuilder.catch_blocks)
                  (CatchBlock.mk s.(FlowGraphBuilder.catch_block_) e t i))
      as Hself.
    rewrite <- Hst in Hself.
    destruct (run_kept _ _ _ _ Hrun) as (_ & _ & _ & _ & Hk).
    destruct (Hk _ _ Hself) as (self & H2 & <-). eauto.
  - intros off this s1 s2 H Hrun.
    apply TryFinallyBlock_ctor_inv in H as (ti & _ & -> & _ & Hst).
    pose proof (lookup_snoc_length s.(FlowGraphBuilder.try_finally_blocks)
                  (TryFinallyBlock.mk s.(FlowGraphBuilder.try_finally_block_)
                     off s.(FlowGraphBuilder.context_depth_)
                     (IntPtr.sub s.(FlowGraphBuilder.try_depth_) 1) ti))
      as Hself.
    rewrite <- Hst in Hself.
    destruct (run_kept _ _ _ _ Hrun) as (_ & Hk & _).
    destruct (Hk _ _ Hself) as (self & H2 & <-). eauto.
  - intros n this s1 s2 H Hrun.
    apply SwitchBlock_ctor_inv in H as (ti & depth & _ & _ & -> & ->).
    match goal with
    | H : context [?l ++ [?x]] |- _ =>
        pose proof (lookup_snoc_length l x) as Hself
    end.
    destruct (run_kept _ _ _ _ Hrun) as (_ & _ & Hk & _).
    destruct s; simpl in *.
    destruct (Hk _ _ Hself) as (self & H2 & _ & Hof & Hcc & _ & Hcd & _).
    exists self. simpl in *. auto.
  - intros this s1 s2 H Hrun.
    apply BreakableBlock_ctor_inv in H as (ti & index & _ & _ & -> & ->).
    match goal with
    | H : context [?l ++ [?x]] |- _ =>
        pose proof (lookup_snoc_length l x) as Hself
    end.
    destruct (run_kept _ _ _ _ Hrun) as (_ & _ & _ & Hk & _).
    destruct s; simpl in *.
    destruct (Hk _ _ Hself) as (self & H2 & _ & _ & Hof & Hcd & _).
    exists self. simpl in *. auto.
Qed.

Lemma trackers_keep_records_witness :
  exists s2 self,
    run (-1) [SetContextDepth 3; EnterTryFinally 40; EnterBreakable]
      (CatchBlock_ctor (Some 7%nat) (Some 8%nat) 2 (FlowGraphBuilder.init 0)).2
    = Some s2
    /\ s2.(FlowGraphBuilder.catch_blocks) !! 0%nat = Some self
    /\ CatchBlock.exception_var self = Some 7%nat
    /\ CatchBlock.stack_trace_var self = Some 8%nat
    /\ CatchBlock.catch_try_index self = 2.
Proof.
  destruct (run (-1) [SetContextDepth 3; EnterTryFinally 40; EnterBreakable]
              (CatchBlock_ctor (Some 7%nat) (Some 8%nat) 2
                 (FlowGraphBuilder.init 0)).2)
    as [s2 |] eqn:Hrun; [| vm_compute in Hrun; discriminate Hrun].
  destruct (trackers_keep_records (-1) (FlowGraphBuilder.init 0)
              [SetContextDepth 3; EnterTryFinally 40; EnterBreakable])
    as (Hcatch & _).
  destruct (Hcatch (Some 7%nat) (Some 8%nat) 2 0%nat _ s2 eq_refl Hrun)
    as (self & H1 & H2 & H3 & H4).
  exists s2, self. split; [reflexivity |]. repeat split; assumption.
Defined.
